(** * hex-engine: the low-level pointer pipeline and the Point model

    A shallow embedding of [packages/2d/src/Components/LowLevelMouse.ts]
    and of the [Point] class (imported there as [Vector]).

    - JavaScript numbers are modelled by [num]: the extended reals with NaN.
      The two zeros are identified (the one zero stands for +0) and
      rounding is not modelled; the special values follow IEEE 754 /
      ECMAScript, and the squares and the sum of squares taken by
      [magnitude] and [distanceTo] overflow to an infinity and underflow
      to 0 at the thresholds of binary64.
    - Objects mutated in place become records threaded through functions.
    - The closures stored in [pendingMove], [pendingDown] and [pendingUp]
      are defunctionalised: a slot holds the parameters its closure captured.
    - Callbacks are opaque to the component; the model records every
      invocation in a log and lets a listener dispatch raw events
      synchronously and raise an exception.  A handler registered through
      useFirstClick returns or raises an exception.
    - A history hands raw events to the handlers of a component directly;
      the listener list of the canvas (bindListeners, unbindListeners) is
      modelled on its own, and the wrapper useCallbackAsCurrent is outside
      the model. *)

From Stdlib Require Import ZArith List Bool Lia Reals Lra.
From stdpp Require Import base option list.
Import ListNotations.

(** ** Numbers *)

Inductive num : Type :=
| NaN
| PInf
| NInf
| Fin (r : R).

Definition Rsgn (r : R) : comparison :=
  match total_order_T r 0 with
  | inleft (left _) => Lt
  | inleft (right _) => Eq
  | inright _ => Gt
  end.

Definition nsgn (a : num) : comparison :=
  match a with
  | NaN => Eq
  | PInf => Gt
  | NInf => Lt
  | Fin r => Rsgn r
  end.

Definition sgn_mul (c d : comparison) : comparison :=
  match c, d with
  | Eq, _ | _, Eq => Eq
  | Lt, Lt | Gt, Gt => Gt
  | Lt, Gt | Gt, Lt => Lt
  end.

(** The infinity of a given sign; a zero sign stands for an invalid
    operation. *)
Definition inf_of (c : comparison) : num :=
  match c with
  | Lt => NInf
  | Eq => NaN
  | Gt => PInf
  end.

Definition is_finite (a : num) : Prop :=
  match a with Fin _ => True | _ => False end.

(** Unary minus. *)
Definition nneg (a : num) : num :=
  match a with
  | NaN => NaN
  | PInf => NInf
  | NInf => PInf
  | Fin r => Fin (- r)
  end.

(** [a + b] *)
Definition nadd (a b : num) : num :=
  match a, b with
  | NaN, _ | _, NaN => NaN
  | PInf, NInf | NInf, PInf => NaN
  | PInf, _ | _, PInf => PInf
  | NInf, _ | _, NInf => NInf
  | Fin r, Fin s => Fin (r + s)
  end.

(** [a - b] *)
Definition nsub (a b : num) : num := nadd a (nneg b).

(** [a * b]; an infinity times zero is NaN. *)
Definition nmul (a b : num) : num :=
  match a, b with
  | NaN, _ | _, NaN => NaN
  | Fin r, Fin s => Fin (r * s)
  | _, _ => inf_of (sgn_mul (nsgn a) (nsgn b))
  end.

(** [a / b]; 0/0 and Infinity/Infinity are NaN, r/0 is an infinity. *)
Definition ndiv (a b : num) : num :=
  match a, b with
  | NaN, _ | _, NaN => NaN
  | Fin r, Fin s =>
      match Rsgn s with
      | Eq => inf_of (Rsgn r)
      | _ => Fin (r / s)
      end
  | Fin _, _ => Fin 0
  | _, Fin s => inf_of (sgn_mul (nsgn a) (match Rsgn s with Lt => Lt | _ => Gt end))
  | _, _ => NaN
  end.

(** [Math.sqrt] *)
Definition Math_sqrt (a : num) : num :=
  match a with
  | NaN | NInf => NaN
  | PInf => PInf
  | Fin r => match Rsgn r with Lt => NaN | _ => Fin (sqrt r) end
  end.

(** The range of binary64.  Rounding to nearest sends a real of absolute
    value 2^1024 - 2^970 or more to an infinity, and one of absolute value
    2^-1075 or less to zero. *)
Definition overflow_threshold : R := (2 ^ 1024 - 2 ^ 970)%R.

Definition underflow_threshold : R := (/ 2 ^ 1075)%R.

(** An exact result brought into the range of binary64: it overflows to an
    infinity or underflows to zero at the two thresholds; between them it is
    kept as it is (its rounding to 53 bits is not modelled). *)
Definition to_double (a : num) : num :=
  match a with
  | Fin r =>
      if Rle_dec overflow_threshold (Rabs r) then inf_of (Rsgn r)
      else if Rle_dec (Rabs r) underflow_threshold then Fin 0
      else Fin r
  | _ => a
  end.

(** The exact power [a^n]. *)
Fixpoint exact_pow (a : num) (n : nat) : num :=
  match n with
  | O => Fin 1
  | S n' => nmul a (exact_pow a n')
  end.

(** [Math.pow] at a natural exponent: the exact power, in the range of
    binary64. *)
Definition Math_pow (a : num) (n : nat) : num := to_double (exact_pow a n).

(** [Math.cos], [Math.sin] *)
Definition Math_cos (a : num) : num :=
  match a with Fin r => Fin (cos r) | _ => NaN end.

Definition Math_sin (a : num) : num :=
  match a with Fin r => Fin (sin r) | _ => NaN end.

(** The two-argument arctangent of finite reals, in (-PI, PI]. *)
Definition Ratan2 (b a : R) : R :=
  match Rsgn a with
  | Gt => atan (b / a)
  | Lt => match Rsgn b with
          | Lt => atan (b / a) - PI
          | _ => atan (b / a) + PI
          end
  | Eq => match Rsgn b with
          | Gt => PI / 2
          | Lt => - (PI / 2)
          | Eq => 0
          end
  end%R.

(** [Math.atan2(b, a)] *)
Definition Math_atan2 (b a : num) : num :=
  match b, a with
  | NaN, _ | _, NaN => NaN
  | PInf, PInf => Fin (PI / 4)
  | PInf, NInf => Fin (3 * PI / 4)
  | PInf, Fin _ => Fin (PI / 2)
  | NInf, PInf => Fin (- (PI / 4))
  | NInf, NInf => Fin (- (3 * PI / 4))
  | NInf, Fin _ => Fin (- (PI / 2))
  | Fin _, PInf => Fin 0
  | Fin s, NInf => match Rsgn s with Lt => Fin (- PI) | _ => Fin PI end
  | Fin s, Fin r => Fin (Ratan2 s r)
  end.

(** ** Point (also imported as Vector) *)

Record Point : Type := mkPoint { x : num; y : num }.

Definition Vector : Type := Point.

(** [get magnitude()]: each square and their sum can overflow to Infinity
    or underflow to 0. *)
Definition magnitude (p : Point) : num :=
  Math_sqrt (to_double (nadd (Math_pow (nsub (Fin 0) (x p)) 2)
                             (Math_pow (nsub (Fin 0) (y p)) 2))).

(** [get angle()]: the y component is inverted.  [num] has one zero, which
    stands for +0; its inverse is -0, and [Math.atan2(-0, x)] is -PI for a
    negative [x] (where [Math.atan2(0, x)] is PI). *)
Definition angle (p : Point) : num :=
  match nsgn (x p), y p with
  | Lt, Fin s =>
      match Rsgn s with
      | Eq => Fin (- PI)
      | _ => Math_atan2 (nneg (y p)) (x p)
      end
  | _, _ => Math_atan2 (nneg (y p)) (x p)
  end.

(** [set angle(newValue)] *)
Definition set_angle (newValue : num) (p : Point) : Point :=
  let x' := nmul (magnitude p) (Math_cos newValue) in
  let y' := nneg (nmul (magnitude p) (Math_sin newValue)) in
  {| x := x'; y := y' |}.

(** [normalize()] *)
Definition normalize (p : Point) : Point :=
  let existingMagnitude := magnitude p in
  let normalizedX := ndiv (x p) existingMagnitude in
  let normalizedY := ndiv (y p) existingMagnitude in
  mkPoint normalizedX normalizedY.

(** [normalizeMutate()]: the receiver after the call. *)
Definition normalizeMutate (p : Point) : Point :=
  let existingMagnitude := magnitude p in
  let normalizedX := ndiv (x p) existingMagnitude in
  let normalizedY := ndiv (y p) existingMagnitude in
  {| x := normalizedX; y := normalizedY |}.

(** [set magnitude(newValue)] *)
Definition set_magnitude (newValue : num) (p : Point) : Point :=
  let p1 := normalizeMutate p in
  {| x := nmul (x p1) newValue; y := nmul (y p1) newValue |}.

(** [mutateInto(other)]: the receiver after the call. *)
Definition mutateInto (other : Point) (p : Point) : Point :=
  {| x := x other; y := y other |}.

(** [subtractMutate(other)] with the [Point | number] operand as a sum. *)
Definition subtractMutate (other : Point + num) (p : Point) : Point :=
  match other with
  | inr n => {| x := nsub (x p) n; y := nsub (y p) n |}
  | inl o => {| x := nsub (x p) (x o); y := nsub (y p) (y o) |}
  end.

(** [subtract(other)] *)
Definition subtract (other : Point + num) (p : Point) : Point :=
  match other with
  | inr n => mkPoint (nsub (x p) n) (nsub (y p) n)
  | inl o => mkPoint (nsub (x p) (x o)) (nsub (y p) (y o))
  end.

(** [fromAngleAndMagnitude(angle, magnitude)] *)
Definition fromAngleAndMagnitude (a m : num) : Point :=
  set_magnitude m (set_angle a (mkPoint (Fin 1) (Fin 1))).

(** Ranges of reals: [bounded lo hi r] says that [r] is zero or of absolute
    value between [lo] and [hi]. *)
Definition bounded (lo hi r : R) : Prop :=
  r = 0%R \/ (lo <= Rabs r <= hi)%R.

(** The reals whose square neither overflows nor underflows, with room for
    the sum of two squares. *)
Definition square_in_range (r : R) : Prop :=
  bounded (/ 2 ^ 537) (2 ^ 511) r.

(** The reals that are zero or of absolute value between 2^-150 and 2^150:
    the polar operations on such components and factors take no square out
    of range. *)
Definition moderate (r : R) : Prop :=
  bounded (/ 2 ^ 150) (2 ^ 150) r.

Definition moderate_point (p : Point) : Prop :=
  match x p, y p with
  | Fin a, Fin b => moderate a /\ moderate b
  | _, _ => False
  end.

(** ** Affine matrices *)

(** Modelled from the spec: the 2D affine matrix capability with
    [transformPoint] and [inverse] that the entity transform resolver
    returns ([useEntityTransforms().matrixForWorldPosition()], a DOMMatrix
    in the source, which is not part of this repository).  The six entries
    are those of a 2D DOMMatrix. *)
Record Matrix : Type := mkMatrix {
  m_a : num; m_b : num; m_c : num; m_d : num; m_e : num; m_f : num
}.

(** Modelled from the spec: the identity transform of that capability. *)
Definition identity_matrix : Matrix :=
  mkMatrix (Fin 1) (Fin 0) (Fin 0) (Fin 1) (Fin 0) (Fin 0).

(** Modelled from the spec: what inverting a singular matrix gives (the
    host's DOMMatrix sets every entry to NaN). *)
Definition nan_matrix : Matrix := mkMatrix NaN NaN NaN NaN NaN NaN.

(** Modelled from the spec: the determinant of the linear part. *)
Definition determinant (m : Matrix) : num :=
  nsub (nmul (m_a m) (m_d m)) (nmul (m_b m) (m_c m)).

(** Modelled from the spec: [inverse()] of that capability; a matrix that
    is not invertible inverts to all-NaN. *)
Definition inverse (m : Matrix) : Matrix :=
  let det := determinant m in
  match det with
  | Fin r =>
      match Rsgn r with
      | Eq => nan_matrix
      | _ =>
        mkMatrix (ndiv (m_d m) det)
                 (ndiv (nneg (m_b m)) det)
                 (ndiv (nneg (m_c m)) det)
                 (ndiv (m_a m) det)
                 (ndiv (nsub (nmul (m_c m) (m_f m)) (nmul (m_d m) (m_e m))) det)
                 (ndiv (nsub (nmul (m_b m) (m_e m)) (nmul (m_a m) (m_f m))) det)
      end
  | _ => nan_matrix
  end.

(** Modelled from the spec: [transformPoint(p)] of that capability. *)
Definition transformPoint (m : Matrix) (p : Point) : Point :=
  mkPoint (nadd (nadd (nmul (m_a m) (x p)) (nmul (m_c m) (y p))) (m_e m))
          (nadd (nadd (nmul (m_b m) (x p)) (nmul (m_d m) (y p))) (m_f m)).

(** ** The event model *)

Record Buttons : Type := mkButtons {
  left : bool; right : bool; middle : bool; mouse4 : bool; mouse5 : bool
}.

Record HexMouseEvent : Type := mkHexMouseEvent {
  pos : Vector;
  delta : Vector;
  buttons : Buttons
}.

(** The browser's [MouseEvent], with the fields the component reads. *)
Record MouseEvent : Type := mkMouseEvent {
  me_clientX : num; me_clientY : num; me_buttons : Z; me_button : Z
}.

Record Touch : Type := mkTouch { t_clientX : num; t_clientY : num }.

Record TouchEvent : Type := mkTouchEvent {
  touches : list Touch;
  changedTouches : list Touch
}.

Inductive RawEvent : Type :=
| mousemove (e : MouseEvent)
| mousedown (e : MouseEvent)
| mouseup (e : MouseEvent)
| mouseover (e : MouseEvent)
| mouseout (e : MouseEvent)
| touchstart (e : TouchEvent)
| touchmove (e : TouchEvent)
| touchend (e : TouchEvent).

(** The argument object of [updateEvent]; [buttons] and [button] may be
    absent. *)
Record UpdateArgs : Type := mkUpdateArgs {
  clientX : num;
  clientY : num;
  u_buttons : option Z;
  u_button : option Z
}.

Inductive EventClass : Type := Move | Down | Up | Out | Over.

Inductive Slot : Type := SMove | SDown | SUp.

(** The callback set that a closure stored in [pendingMove] triggers. *)
Inductive MoveTarget : Type := ToMove | ToOut | ToOver.

Definition class_of_target (k : MoveTarget) : EventClass :=
  match k with ToMove => Move | ToOut => Out | ToOver => Over end.

Definition slot_of_class (cls : EventClass) : Slot :=
  match cls with
  | Move | Out | Over => SMove
  | Down => SDown
  | Up => SUp
  end.

(** What a callback does when it is called, as far as this component can
    tell: it may dispatch raw events on the canvas (each reaching the raw
    handler of some component) and then it may throw. *)
Record Behaviour : Type := mkBehaviour {
  emits : list (nat * RawEvent);
  throws : bool
}.

(** A registered listener: a function object (identified by [cb_id]) and
    what it does with the event it is given. *)
Record Callback : Type := mkCallback {
  cb_id : nat;
  cb_run : HexMouseEvent -> Behaviour
}.

(** [CallbackSet]: a JavaScript [Set], insertion ordered, without
    duplicates of one function object. *)
Definition CallbackSet : Type := list Callback.

Definition CallbackSet_has (s : CallbackSet) (cb : Callback) : bool :=
  existsb (fun o => Nat.eqb (cb_id o) (cb_id cb)) s.

Definition CallbackSet_add (cb : Callback) (s : CallbackSet) : CallbackSet :=
  if CallbackSet_has s cb then s else s ++ [cb].

Record Storage : Type := mkStorage {
  moveCallbacks : CallbackSet;
  downCallbacks : CallbackSet;
  upCallbacks : CallbackSet;
  outCallbacks : CallbackSet;
  overCallbacks : CallbackSet
}.

Definition callbacks_of (cls : EventClass) (s : Storage) : CallbackSet :=
  match cls with
  | Move => moveCallbacks s
  | Down => downCallbacks s
  | Up => upCallbacks s
  | Out => outCallbacks s
  | Over => overCallbacks s
  end.

Record DOMRect : Type := mkDOMRect {
  rect_left : num; rect_top : num; rect_width : num; rect_height : num
}.

Record HTMLCanvasElement : Type := mkCanvas {
  width : num;
  height : num;
  getBoundingClientRect : DOMRect
}.

(** ** One LowLevelMouse component: the variables its closures share *)

Record Component : Type := mkComponent {
  storage : Storage;
  canvas : HTMLCanvasElement;
  matrixForWorldPosition : Matrix;
  lastPos : Vector;
  event : HexMouseEvent;
  pendingMove : option (UpdateArgs * MoveTarget);
  pendingDown : option UpdateArgs;
  pendingUp : option UpdateArgs;
  isTouching : bool
}.

Definition set_storage (v : Storage) (c : Component) : Component :=
  mkComponent v (canvas c) (matrixForWorldPosition c) (lastPos c) (event c)
              (pendingMove c) (pendingDown c) (pendingUp c) (isTouching c).

Definition set_lastPos (v : Vector) (c : Component) : Component :=
  mkComponent (storage c) (canvas c) (matrixForWorldPosition c) v (event c)
              (pendingMove c) (pendingDown c) (pendingUp c) (isTouching c).

Definition set_event (v : HexMouseEvent) (c : Component) : Component :=
  mkComponent (storage c) (canvas c) (matrixForWorldPosition c) (lastPos c) v
              (pendingMove c) (pendingDown c) (pendingUp c) (isTouching c).

Definition set_pendingMove (v : option (UpdateArgs * MoveTarget))
    (c : Component) : Component :=
  mkComponent (storage c) (canvas c) (matrixForWorldPosition c) (lastPos c)
              (event c) v (pendingDown c) (pendingUp c) (isTouching c).

Definition set_pendingDown (v : option UpdateArgs) (c : Component) : Component :=
  mkComponent (storage c) (canvas c) (matrixForWorldPosition c) (lastPos c)
              (event c) (pendingMove c) v (pendingUp c) (isTouching c).

Definition set_pendingUp (v : option UpdateArgs) (c : Component) : Component :=
  mkComponent (storage c) (canvas c) (matrixForWorldPosition c) (lastPos c)
              (event c) (pendingMove c) (pendingDown c) v (isTouching c).

Definition set_isTouching (v : bool) (c : Component) : Component :=
  mkComponent (storage c) (canvas c) (matrixForWorldPosition c) (lastPos c)
              (event c) (pendingMove c) (pendingDown c) (pendingUp c) v.

(** [translatePos(clientX, clientY)] *)
Definition translatePos (c : Component) (clientX clientY : num) : Vector :=
  let rect := getBoundingClientRect (canvas c) in
  let scaleX := ndiv (rect_width rect) (width (canvas c)) in
  let scaleY := ndiv (rect_height rect) (height (canvas c)) in
  let x0 := ndiv (nsub clientX (rect_left rect)) scaleX in
  let y0 := ndiv (nsub clientY (rect_top rect)) scaleY in
  let untransformedPoint := mkPoint x0 y0 in
  transformPoint (inverse (matrixForWorldPosition c)) untransformedPoint.

(** The integer operators used on button values. *)
Definition ToInt32 (z : Z) : Z := ((z + 2 ^ 31) mod 2 ^ 32 - 2 ^ 31)%Z.

(** [a & b] *)
Definition bitand (a b : Z) : Z := Z.land (ToInt32 a) (ToInt32 b).

(** [Boolean(z)] *)
Definition Boolean (z : Z) : bool := negb (z =? 0)%Z.

(** [button === k], false when [button] is undefined. *)
Definition strict_eq (button : option Z) (k : Z) : bool :=
  match button with
  | Some b => (b =? k)%Z
  | None => false
  end.

(** [updateEvent({clientX, clientY, buttons = 0, button})] *)
Definition updateEvent (a : UpdateArgs) (c : Component) : Component :=
  let buttons := default 0%Z (u_buttons a) in
  let button := u_button a in
  let pos1 := translatePos c (clientX a) (clientY a) in
  let delta1 := mutateInto pos1 (delta (event c)) in
  let delta2 := subtractMutate (inl (lastPos c)) delta1 in
  let lastPos1 := mutateInto pos1 (lastPos c) in
  let buttons1 :=
    {| left := Boolean (bitand buttons 1) || strict_eq button 0;
       right := Boolean (bitand buttons 2) || strict_eq button 2;
       middle := Boolean (bitand buttons 4) || strict_eq button 1;
       mouse4 := Boolean (bitand buttons 8) || strict_eq button 3;
       mouse5 := Boolean (bitand buttons 16) || strict_eq button 4 |} in
  set_event {| pos := pos1; delta := delta2; buttons := buttons1 |}
            (set_lastPos lastPos1 c).

(** ** The process: module-level state, components, and the log *)

(** A function registered through [useFirstClick], identified by
    [fc_id]: when it is called it returns or it throws. *)
Record FirstClickHandler : Type := mkFirstClickHandler {
  fc_id : nat;
  fc_throws : bool
}.

(** What the model records of a run. *)
Inductive Obs : Type :=
| ORaw (i : nat) (ev : RawEvent)
    (* the raw handler of component i was entered with ev and returned *)
| ORawThrew (i : nat) (ev : RawEvent) (h : nat)
    (* the raw handler of component i was entered with ev and ended with
       the exception thrown by first-click handler h *)
| OPreventDefault (i : nat)
    (* ev.preventDefault() *)
| OFirstClick (h : nat)
    (* a handler registered through useFirstClick was called *)
| OCleared (i : nat) (s : Slot)
    (* a pending closure of component i set its slot to null *)
| ODispatch (i : nat) (cls : EventClass) (e : HexMouseEvent)
    (* triggerCallbacks was entered; e is the event at that time *)
| OCall (i : nat) (cls : EventClass) (cb : nat) (e : HexMouseEvent).
    (* a listener was called with e *)

Record World : Type := mkWorld {
  firstClickHasHappened : bool;
  pendingFirstClickHandlers : list FirstClickHandler;
  components : list Component;
  log : list Obs
}.

Definition set_firstClickHasHappened (v : bool) (w : World) : World :=
  mkWorld v (pendingFirstClickHandlers w) (components w) (log w).

Definition set_pendingFirstClickHandlers (v : list FirstClickHandler) (w : World) :
    World :=
  mkWorld (firstClickHasHappened w) v (components w) (log w).

Definition set_components (v : list Component) (w : World) : World :=
  mkWorld (firstClickHasHappened w) (pendingFirstClickHandlers w) v (log w).

Definition add_log (o : Obs) (w : World) : World :=
  mkWorld (firstClickHasHappened w) (pendingFirstClickHandlers w)
          (components w) (log w ++ [o]).

(** An assignment to variables of component [i]. *)
Definition modify (i : nat) (f : Component -> Component) (w : World) : World :=
  set_components (alter f i (components w)) w.

(** The state of the world before the first component is made. *)
Definition initial_world : World := mkWorld false [] [] [].

(** [useFirstClick(handler)]: the world after the call and the value that
    the returned object's getter reads in a world. *)
Definition useFirstClick (handler : FirstClickHandler) (w : World) : World :=
  set_pendingFirstClickHandlers (pendingFirstClickHandlers w ++ [handler]) w.

Definition get_firstClickHasHappened (w : World) : bool :=
  firstClickHasHappened w.

Inductive Outcome : Type :=
| Normal
| Threw (cb : nat).

(** A computation on the world that returns normally or throws; what it
    did before throwing stays done. *)
Definition Act : Type := World -> World * Outcome.

Definition ret : Act := fun w => (w, Normal).

Definition lift (f : World -> World) : Act := fun w => (f w, Normal).

Definition andThen (a b : Act) : Act :=
  fun w => match a w with
           | (w1, Normal) => b w1
           | (w1, Threw cb) => (w1, Threw cb)
           end.

Notation "a ;> b" := (andThen a b) (at level 62, right associativity).

(** [handler()] for one first-click handler. *)
Definition call_first_click_handler (h : FirstClickHandler) : Act :=
  fun w => (add_log (OFirstClick (fc_id h)) w,
            if fc_throws h then Threw (fc_id h) else Normal).

(** [pendingFirstClickHandlers.forEach((handler) => { handler(); })]:
    nothing catches what a handler throws. *)
Fixpoint call_first_click_handlers (hs : list FirstClickHandler) : Act :=
  match hs with
  | [] => ret
  | h :: rest => call_first_click_handler h ;> call_first_click_handlers rest
  end.

(** The block shared by [handleMouseDown] and [handleTouchStart]. *)
Definition first_click : Act :=
  fun w =>
    if negb (firstClickHasHappened w) then
      (lift (set_firstClickHasHappened true) ;>
       (fun w1 => call_first_click_handlers (pendingFirstClickHandlers w1) w1) ;>
       lift (set_pendingFirstClickHandlers [])) w
    else (w, Normal).

Definition args_of_buttons (e : MouseEvent) : UpdateArgs :=
  mkUpdateArgs (me_clientX e) (me_clientY e) (Some (me_buttons e)) None.

Definition args_of_button (e : MouseEvent) : UpdateArgs :=
  mkUpdateArgs (me_clientX e) (me_clientY e) None (Some (me_button e)).

Definition args_of_touch (t : Touch) : UpdateArgs :=
  mkUpdateArgs (t_clientX t) (t_clientY t) None (Some 0%Z).

Definition handleMouseMove (i : nat) (e : MouseEvent) (w : World) : World :=
  modify i (set_pendingMove (Some (args_of_buttons e, ToMove))) w.

Definition handleMouseDown (i : nat) (e : MouseEvent) : Act :=
  first_click ;>
  lift (modify i (set_pendingDown (Some (args_of_button e)))).

Definition handleMouseUp (i : nat) (e : MouseEvent) (w : World) : World :=
  modify i (set_pendingUp (Some (args_of_button e))) w.

Definition handleMouseOut (i : nat) (e : MouseEvent) (w : World) : World :=
  modify i (set_pendingMove (Some (args_of_buttons e, ToOut))) w.

Definition handleMouseOver (i : nat) (e : MouseEvent) (w : World) : World :=
  modify i (set_pendingMove (Some (args_of_buttons e, ToOver))) w.

Definition handleTouchStart (i : nat) (c : Component) (ev : TouchEvent) : Act :=
  lift (add_log (OPreventDefault i)) ;>
  (if isTouching c then ret else
   first_click ;>
   lift (fun w1 =>
           match touches ev with
           | [] => w1
           | t :: _ =>
               let w2 := modify i (set_pendingDown (Some (args_of_touch t))) w1 in
               modify i (set_isTouching true) w2
           end)).

Definition handleTouchMove (i : nat) (ev : TouchEvent) (w : World) : World :=
  let w0 := add_log (OPreventDefault i) w in
  match touches ev with
  | [] => w0
  | t :: _ => modify i (set_pendingMove (Some (args_of_touch t, ToMove))) w0
  end.

Definition handleTouchEnd (i : nat) (c : Component) (ev : TouchEvent)
    (w : World) : World :=
  let w0 := add_log (OPreventDefault i) w in
  if negb (isTouching c) then w0 else
  match changedTouches ev with
  | [] => w0
  | t :: _ =>
      let w1 := modify i (set_pendingUp (Some (args_of_touch t))) w0 in
      modify i (set_isTouching false) w1
  end.

(** The handler that component [i] bound for the type of [ev]; [c] is the
    component's state on entry. *)
Definition raw_handler (i : nat) (c : Component) (ev : RawEvent) : Act :=
  match ev with
  | mousemove e => lift (handleMouseMove i e)
  | mousedown e => handleMouseDown i e
  | mouseup e => lift (handleMouseUp i e)
  | mouseover e => lift (handleMouseOver i e)
  | mouseout e => lift (handleMouseOut i e)
  | touchstart e => handleTouchStart i c e
  | touchmove e => lift (handleTouchMove i e)
  | touchend e => lift (handleTouchEnd i c e)
  end.

(** The canvas delivers a raw event to the handler of component [i].  An
    exception that ends the handler is reported by the host and does not
    reach whoever dispatched the event; what the handler did before stays
    done.  The log entry stands where the handler is entered and says how
    the handler ends (which does not depend on the log). *)
Definition deliver (i : nat) (ev : RawEvent) (w : World) : World :=
  match components w !! i with
  | None => w
  | Some c =>
      let entry := match snd (raw_handler i c ev w) with
                   | Normal => ORaw i ev
                   | Threw h => ORawThrew i ev h
                   end in
      fst (raw_handler i c ev (add_log entry w))
  end.

Definition deliver_all (evs : list (nat * RawEvent)) (w : World) : World :=
  fold_left (fun acc e => deliver (fst e) (snd e) acc) evs w.

(** ** Dispatch *)

(** [callback(event)] for one listener of component [i]. *)
Definition invoke (i : nat) (cls : EventClass) (cb : Callback) : Act :=
  fun w =>
    match components w !! i with
    | None => (w, Normal)
    | Some c =>
        let b := cb_run cb (event c) in
        let w1 := add_log (OCall i cls (cb_id cb) (event c)) w in
        let w2 := deliver_all (emits b) w1 in
        (w2, if throws b then Threw (cb_id cb) else Normal)
    end.

(** [callbacks.forEach((callback) => callback(event))] *)
Fixpoint forEach (i : nat) (cls : EventClass) (cbs : list Callback) : Act :=
  match cbs with
  | [] => ret
  | cb :: rest => invoke i cls cb ;> forEach i cls rest
  end.

(** [triggerCallbacks(storage.<cls>Callbacks)] *)
Definition triggerCallbacks (i : nat) (cls : EventClass) : Act :=
  fun w =>
    match components w !! i with
    | None => (w, Normal)
    | Some c =>
        forEach i cls (callbacks_of cls (storage c))
                (add_log (ODispatch i cls (event c)) w)
    end.

(** The closure stored in [pendingMove]. *)
Definition run_pendingMove (i : nat) (p : UpdateArgs * MoveTarget) : Act :=
  lift (fun w => add_log (OCleared i SMove) (modify i (set_pendingMove None) w)) ;>
  lift (modify i (updateEvent (fst p))) ;>
  triggerCallbacks i (class_of_target (snd p)).

(** The closure stored in [pendingDown]. *)
Definition run_pendingDown (i : nat) (a : UpdateArgs) : Act :=
  lift (fun w => add_log (OCleared i SDown) (modify i (set_pendingDown None) w)) ;>
  lift (modify i (updateEvent a)) ;>
  triggerCallbacks i Down.

(** The closure stored in [pendingUp]. *)
Definition run_pendingUp (i : nat) (a : UpdateArgs) : Act :=
  lift (fun w => add_log (OCleared i SUp) (modify i (set_pendingUp None) w)) ;>
  lift (modify i (updateEvent a)) ;>
  triggerCallbacks i Up.

(** [if (pendingMove) pendingMove();] and its two siblings. *)
Definition flushMove (i : nat) : Act :=
  fun w => match components w !! i with
           | Some c => match pendingMove c with
                       | Some p => run_pendingMove i p w
                       | None => (w, Normal)
                       end
           | None => (w, Normal)
           end.

Definition flushDown (i : nat) : Act :=
  fun w => match components w !! i with
           | Some c => match pendingDown c with
                       | Some a => run_pendingDown i a w
                       | None => (w, Normal)
                       end
           | None => (w, Normal)
           end.

Definition flushUp (i : nat) : Act :=
  fun w => match components w !! i with
           | Some c => match pendingUp c with
                       | Some a => run_pendingUp i a w
                       | None => (w, Normal)
                       end
           | None => (w, Normal)
           end.

(** The callback given to [useUpdate]: one tick of component [i]. *)
Definition update (i : nat) : Act :=
  flushMove i ;> flushDown i ;> flushUp i.

(** ** The public surface and process histories *)

(** [LowLevelMouse()]: the variables of a new component. *)
Definition new_component (cv : HTMLCanvasElement) (m : Matrix) : Component :=
  {| storage := mkStorage [] [] [] [] [];
     canvas := cv;
     matrixForWorldPosition := m;
     lastPos := mkPoint (Fin 0) (Fin 0);
     event := mkHexMouseEvent (mkPoint (Fin 0) (Fin 0)) (mkPoint (Fin 0) (Fin 0))
                (mkButtons false false false false false);
     pendingMove := None;
     pendingDown := None;
     pendingUp := None;
     isTouching := false |}.

Definition LowLevelMouse (cv : HTMLCanvasElement) (m : Matrix) (w : World) : World :=
  set_components (components w ++ [new_component cv m]) w.

Definition add_callback (cls : EventClass) (cb : Callback) (s : Storage) : Storage :=
  match cls with
  | Move => mkStorage (CallbackSet_add cb (moveCallbacks s)) (downCallbacks s)
              (upCallbacks s) (outCallbacks s) (overCallbacks s)
  | Down => mkStorage (moveCallbacks s) (CallbackSet_add cb (downCallbacks s))
              (upCallbacks s) (outCallbacks s) (overCallbacks s)
  | Up => mkStorage (moveCallbacks s) (downCallbacks s)
              (CallbackSet_add cb (upCallbacks s)) (outCallbacks s) (overCallbacks s)
  | Out => mkStorage (moveCallbacks s) (downCallbacks s) (upCallbacks s)
              (CallbackSet_add cb (outCallbacks s)) (overCallbacks s)
  | Over => mkStorage (moveCallbacks s) (downCallbacks s) (upCallbacks s)
              (outCallbacks s) (CallbackSet_add cb (overCallbacks s))
  end.

(** [onMouseMove], [onMouseDown], [onMouseUp], [onCanvasLeave] (Out) and
    [onCanvasEnter] (Over) of component [i]. *)
Definition subscribe (i : nat) (cls : EventClass) (cb : Callback) (w : World) : World :=
  modify i (fun c => set_storage (add_callback cls cb (storage c)) c) w.

Definition set_environment (cv : HTMLCanvasElement) (m : Matrix)
    (c : Component) : Component :=
  mkComponent (storage c) cv m (lastPos c) (event c)
              (pendingMove c) (pendingDown c) (pendingUp c) (isTouching c).

(** What can happen to the process, one step at a time. *)
Inductive Action : Type :=
| NewComponent (cv : HTMLCanvasElement) (m : Matrix)
| UseFirstClick (handler : FirstClickHandler)
| Subscribe (i : nat) (cls : EventClass) (cb : Callback)
| Raw (i : nat) (ev : RawEvent)
| Tick (i : nat)
| Environment (i : nat) (cv : HTMLCanvasElement) (m : Matrix).
    (* the page lays the canvas out anew, or the entity is transformed *)

Definition run_action (a : Action) (w : World) : World :=
  match a with
  | NewComponent cv m => LowLevelMouse cv m w
  | UseFirstClick h => useFirstClick h w
  | Subscribe i cls cb => subscribe i cls cb w
  | Raw i ev => deliver i ev w
  | Tick i => fst (update i w)
  | Environment i cv m => modify i (set_environment cv m) w
  end.

Definition run (h : list Action) (w : World) : World :=
  fold_left (fun acc a => run_action a acc) h w.

(** The handlers registered through [useFirstClick] in a history, in
    order. *)
Definition registered (h : list Action) : list FirstClickHandler :=
  flat_map (fun a => match a with UseFirstClick f => [f] | _ => [] end) h.

(** ** Reading the log *)

Definition first_click_calls (t : list Obs) : list nat :=
  flat_map (fun o => match o with OFirstClick h => [h] | _ => [] end) t.

(** The slots that component [i] cleared, in order. *)
Definition fired_slots (i : nat) (t : list Obs) : list Slot :=
  flat_map (fun o => match o with
                     | OCleared j s => if Nat.eqb j i then [s] else []
                     | _ => []
                     end) t.

(** The dispatches of component [i]: class and event, in order. *)
Definition dispatches (i : nat) (t : list Obs) : list (EventClass * HexMouseEvent) :=
  flat_map (fun o => match o with
                     | ODispatch j cls e => if Nat.eqb j i then [(cls, e)] else []
                     | _ => []
                     end) t.

(** The listeners of component [i] that were called: class and identity. *)
Definition calls (i : nat) (t : list Obs) : list (EventClass * nat) :=
  flat_map (fun o => match o with
                     | OCall j cls cb _ => if Nat.eqb j i then [(cls, cb)] else []
                     | _ => []
                     end) t.

Definition is_flush_obs (i : nat) (o : Obs) : bool :=
  match o with
  | OCleared j _ | ODispatch j _ _ | OCall j _ _ _ => Nat.eqb j i
  | _ => false
  end.

(** What the tick of component [i] itself did: slots cleared, dispatches
    entered, listeners called. *)
Definition flush_view (i : nat) (t : list Obs) : list Obs :=
  List.filter (is_flush_obs i) t.

(** The shape of one pending closure's run in the log: nothing, or the
    slot cleared, then the dispatch entered, then listeners of that one
    class called with the event of the dispatch. *)
Definition is_block (i : nat) (s : Slot) (blk : list Obs) : Prop :=
  blk = [] \/
  exists cls e cbs,
    slot_of_class cls = s /\
    blk = OCleared i s :: ODispatch i cls e
            :: map (fun cb => OCall i cls cb e) cbs.

Definition slot_pending (s : Slot) (c : Component) : bool :=
  match s with
  | SMove => match pendingMove c with Some _ => true | None => false end
  | SDown => match pendingDown c with Some _ => true | None => false end
  | SUp => match pendingUp c with Some _ => true | None => false end
  end.

Definition clear_slot (s : Slot) (c : Component) : Component :=
  match s with
  | SMove => set_pendingMove None c
  | SDown => set_pendingDown None c
  | SUp => set_pendingUp None c
  end.

(** What a raw handler does to the variables of its own component. *)
Definition handler_effect (ev : RawEvent) (c : Component) : Component :=
  match ev with
  | mousemove e => set_pendingMove (Some (args_of_buttons e, ToMove)) c
  | mousedown e => set_pendingDown (Some (args_of_button e)) c
  | mouseup e => set_pendingUp (Some (args_of_button e)) c
  | mouseover e => set_pendingMove (Some (args_of_buttons e, ToOver)) c
  | mouseout e => set_pendingMove (Some (args_of_buttons e, ToOut)) c
  | touchstart e =>
      if isTouching c then c else
      match touches e with
      | [] => c
      | t :: _ => set_isTouching true (set_pendingDown (Some (args_of_touch t)) c)
      end
  | touchmove e =>
      match touches e with
      | [] => c
      | t :: _ => set_pendingMove (Some (args_of_touch t, ToMove)) c
      end
  | touchend e =>
      if negb (isTouching c) then c else
      match changedTouches e with
      | [] => c
      | t :: _ => set_isTouching false (set_pendingUp (Some (args_of_touch t)) c)
      end
  end.

(** The variables of component [i] as the log accounts for them: a raw
    event has its handler's effect, a cleared slot is empty, a dispatch
    leaves its event and position behind. *)
Definition replay_obs (i : nat) (o : Obs) (c : Component) : Component :=
  match o with
  | ORaw j ev => if Nat.eqb j i then handler_effect ev c else c
  | OCleared j s => if Nat.eqb j i then clear_slot s c else c
  | ODispatch j _ e => if Nat.eqb j i then set_event e (set_lastPos (pos e) c) else c
  | _ => c
  end.

Definition replay (i : nat) (t : list Obs) (c : Component) : Component :=
  fold_left (fun acc o => replay_obs i o acc) t c.

(** The raw events whose handlers write the [pendingMove] slot with a
    mouse position. *)
Definition is_move_class (ev : RawEvent) : bool :=
  match ev with
  | mousemove _ | mouseout _ | mouseover _ => true
  | _ => false
  end.

Definition move_closure (ev : RawEvent) : option (UpdateArgs * MoveTarget) :=
  match ev with
  | mousemove e => Some (args_of_buttons e, ToMove)
  | mouseout e => Some (args_of_buttons e, ToOut)
  | mouseover e => Some (args_of_buttons e, ToOver)
  | _ => None
  end.

Definition is_move_out_over (cls : EventClass) : bool :=
  match cls with Move | Out | Over => true | _ => false end.

(** Log entries written by raw handlers. *)
Definition is_raw_obs (o : Obs) : bool :=
  match o with
  | ORaw _ _ | ORawThrew _ _ _ | OPreventDefault _ | OFirstClick _ => true
  | _ => false
  end.

(** Log entries that stand for no assignment to a component. *)
Definition is_quiet_obs (o : Obs) : bool :=
  match o with
  | ORawThrew _ _ _ | OPreventDefault _ | OFirstClick _ => true
  | _ => false
  end.

(** [accounts w w' t]: going from [w] to [w'] wrote [t] to the log, and
    the variables of every component changed as [t] says. *)
Definition accounts (w w' : World) (t : list Obs) : Prop :=
  log w' = log w ++ t /\
  forall j, components w' !! j = replay j t <$> components w !! j.

(** The log of one [forEach] over the listeners of class [cls] of
    component [i], all called with the event [e]: calls, and what the
    raw handlers wrote while the listeners ran. *)
Definition is_call_obs (i : nat) (cls : EventClass) (e : HexMouseEvent)
    (o : Obs) : Prop :=
  is_raw_obs o = true \/ exists cb, o = OCall i cls cb e.


(** The listeners that one [forEach] over [cbs] calls when each is given
    the event [e]: all of them up to and including the first that throws. *)
Fixpoint called (e : HexMouseEvent) (cbs : list Callback) : list Callback :=
  match cbs with
  | [] => []
  | cb :: rest => cb :: (if throws (cb_run cb e) then [] else called e rest)
  end.

(** How that [forEach] ends. *)
Fixpoint outcome_of (e : HexMouseEvent) (cbs : list Callback) : Outcome :=
  match cbs with
  | [] => Normal
  | cb :: rest => if throws (cb_run cb e) then Threw (cb_id cb) else outcome_of e rest
  end.

(** The log [t] and the outcome [out] of the pending closure of slot [s]
    that captured [a] and triggers the listeners of class [cls], run on
    component [i] in state [c]. *)
Definition closure_log_of (i : nat) (s : Slot) (cls : EventClass)
    (a : UpdateArgs) (c : Component) (t : list Obs) (out : Outcome) : Prop :=
  exists t',
    t = OCleared i s :: ODispatch i cls (event (updateEvent a c)) :: t' /\
    Forall (is_call_obs i cls (event (updateEvent a c))) t' /\
    calls i t' = map (fun cb => (cls, cb_id cb))
                     (called (event (updateEvent a c)) (callbacks_of cls (storage c))) /\
    out = outcome_of (event (updateEvent a c)) (callbacks_of cls (storage c)).

(** One line of the tick, [if (pendingX) pendingX();], run on component
    [i] in state [c]: its log and outcome. *)
Definition stage_log (i : nat) (s : Slot) (c : Component) (t : list Obs)
    (o : Outcome) : Prop :=
  match s with
  | SMove =>
      match pendingMove c with
      | Some p => closure_log_of i SMove (class_of_target (snd p)) (fst p) c t o
      | None => t = [] /\ o = Normal
      end
  | SDown =>
      match pendingDown c with
      | Some a => closure_log_of i SDown Down a c t o
      | None => t = [] /\ o = Normal
      end
  | SUp =>
      match pendingUp c with
      | Some a => closure_log_of i SUp Up a c t o
      | None => t = [] /\ o = Normal
      end
  end.

(** What a slot holds: the class its closure dispatches to and the
    arguments the closure captured. *)
Definition slot_content (s : Slot) (c : Component) : option (EventClass * UpdateArgs) :=
  match s with
  | SMove => (fun p => (class_of_target (snd p), fst p)) <$> pendingMove c
  | SDown => (fun a => (Down, a)) <$> pendingDown c
  | SUp => (fun a => (Up, a)) <$> pendingUp c
  end.


(** ** Sample values *)

(** A canvas shown at its logical size (100 by 100) whose bounding
    rectangle has its top-left corner at ([l], [t]) in the viewport. *)
Definition canvas_at (l t : R) : HTMLCanvasElement :=
  mkCanvas (Fin 100) (Fin 100) (mkDOMRect (Fin l) (Fin t) (Fin 100) (Fin 100)).

Definition offset_component : Component :=
  new_component (canvas_at 5 0) identity_matrix.

Definition origin_component : Component :=
  new_component (canvas_at 0 0) identity_matrix.

(** A listener that throws, one that does nothing, and one that
    dispatches a mousemove on the canvas while it runs. *)
Definition thrower : Callback := mkCallback 1 (fun _ => mkBehaviour [] true).

Definition bystander : Callback := mkCallback 2 (fun _ => mkBehaviour [] false).

Definition plain_mouse (cx cy : R) : MouseEvent :=
  mkMouseEvent (Fin cx) (Fin cy) 0 0.

Definition rescheduler : Callback :=
  mkCallback 3 (fun _ => mkBehaviour [(0%nat, mousemove (plain_mouse 1 2))] false).

(** A touch event that carries no touch point in either list. *)
Definition empty_touch : TouchEvent := mkTouchEvent [] [].

(** One component with two move listeners, the first of which throws. *)
Definition abort_world : World :=
  run [NewComponent (canvas_at 0 0) identity_matrix;
       Subscribe 0 Move thrower;
       Subscribe 0 Move bystander] initial_world.

(** The component of [abort_world]. *)
Definition abort_component : Component :=
  set_storage (mkStorage [thrower; bystander] [] [] [] [])
              (new_component (canvas_at 0 0) identity_matrix).

(** One component with all three slots pending and a move listener that
    schedules a new move while it runs. *)
Definition busy_world : World :=
  run [NewComponent (canvas_at 0 0) identity_matrix;
       Subscribe 0 Move rescheduler;
       Subscribe 0 Down bystander;
       Raw 0 (mousemove (plain_mouse 10 10));
       Raw 0 (mouseup (plain_mouse 10 10));
       Raw 0 (mousedown (plain_mouse 10 10))] initial_world.

(** One component and two first-click handlers, before any click. *)
Definition waiting_history : list Action :=
  [NewComponent (canvas_at 0 0) identity_matrix;
   UseFirstClick (mkFirstClickHandler 11 false);
   UseFirstClick (mkFirstClickHandler 12 false)].

Definition waiting_world : World := run waiting_history initial_world.

(** The raw events on which the first-click block runs. *)
Definition is_click_start (ev : RawEvent) : bool :=
  match ev with
  | mousedown _ | touchstart _ => true
  | _ => false
  end.

(** The first-click handlers that one pass over the queue [hs] calls: all
    of them up to and including the first that throws. *)
Fixpoint handlers_called (hs : list FirstClickHandler) : list FirstClickHandler :=
  match hs with
  | [] => []
  | h :: rest => h :: (if fc_throws h then [] else handlers_called rest)
  end.

(** How that pass ends. *)
Fixpoint handlers_outcome (hs : list FirstClickHandler) : Outcome :=
  match hs with
  | [] => Normal
  | h :: rest => if fc_throws h then Threw (fc_id h) else handlers_outcome rest
  end.

(** The first-click block would run in [w] and a queued handler would
    throw. *)
Definition click_throws (w : World) : bool :=
  negb (firstClickHasHappened w) && existsb fc_throws (pendingFirstClickHandlers w).

(** What the raw handler for [ev], entered in the world [w], does to the
    variables of its own component: nothing when a first-click handler
    throws, since the first-click block comes before the assignments. *)
Definition raw_effect (w : World) (ev : RawEvent) (c : Component) : Component :=
  if is_click_start ev && click_throws w then c else handler_effect ev c.

(** One component and two first-click handlers, the first of which
    throws, before any click. *)
Definition faulty_history : list Action :=
  [NewComponent (canvas_at 0 0) identity_matrix;
   UseFirstClick (mkFirstClickHandler 11 true);
   UseFirstClick (mkFirstClickHandler 12 false)].

Definition faulty_world : World := run faulty_history initial_world.

(** [w'] differs from [w] at most by log entries that are not calls of
    first-click handlers: no variable of any component and no module-level
    variable has changed. *)
Definition same_state (w w' : World) : Prop :=
  components w' = components w /\
  firstClickHasHappened w' = firstClickHasHappened w /\
  pendingFirstClickHandlers w' = pendingFirstClickHandlers w /\
  first_click_calls (log w') = first_click_calls (log w).

(** One component, one first-click handler, no click yet. *)
Definition untouched_world : World :=
  run [NewComponent (canvas_at 0 0) identity_matrix;
       UseFirstClick (mkFirstClickHandler 7 false)] initial_world.

(** The end of a touch: no touch point is active any more, one has
    changed. *)
Definition lift_finger : TouchEvent := mkTouchEvent [] [mkTouch (Fin 3) (Fin 4)].

(** A component in the middle of a touch. *)
Definition touching_world : World :=
  run [NewComponent (canvas_at 0 0) identity_matrix;
       Raw 0 (touchstart (mkTouchEvent [mkTouch (Fin 3) (Fin 4)] [mkTouch (Fin 3) (Fin 4)]))]
      initial_world.


(** The three events of the coalescing scenario on a component whose first
    move listener throws, and on one for which a first-click handler that
    throws is queued. *)
Definition abort_coalesce_world : World :=
  deliver 0 (mousedown (plain_mouse 20 20))
    (deliver 0 (mousemove (plain_mouse 20 20))
       (deliver 0 (mousemove (plain_mouse 10 10)) abort_world)).

Definition faulty_coalesce_world : World :=
  deliver 0 (mousedown (plain_mouse 20 20))
    (deliver 0 (mousemove (plain_mouse 20 20))
       (deliver 0 (mousemove (plain_mouse 10 10)) faulty_world)).

(** [a] keeps [P]. *)
Definition preserves (P : World -> Prop) (a : Act) : Prop :=
  forall w, P w -> P (fst (a w)).

(** [P] is kept by every raw handler, by log entries other than calls of
    first-click handlers, and by assignments to a component that leave
    its isTouching alone. *)
Definition handler_stable (P : World -> Prop) : Prop :=
  (forall w i ev, P w -> P (deliver i ev w)) /\
  (forall w o, match o with OFirstClick _ => False | _ => True end ->
               P w -> P (add_log o w)) /\
  (forall w i f, (forall c, isTouching (f c) = isTouching c) ->
                 P w -> P (modify i f w)).

(** Before the first click: the handlers [r] wait in the queue, none has
    been called, and no component is touching. *)
Definition no_click_yet (r : list FirstClickHandler) (w : World) : Prop :=
  firstClickHasHappened w = false ->
  pendingFirstClickHandlers w = r /\
  first_click_calls (log w) = [] /\
  Forall (fun c => isTouching c = false) (components w).

(** After the first click: the latch is set and the first-click handlers
    called so far are [l]. *)
Definition latched (l : list nat) (w : World) : Prop :=
  firstClickHasHappened w = true /\ first_click_calls (log w) = l.


(** One fresh component on a canvas at the viewport origin. *)
Definition origin_world : World :=
  run [NewComponent (canvas_at 0 0) identity_matrix] initial_world.

(** [origin_world] after move(10,10), move(20,20), down(button 0). *)
Definition coalesce_world : World :=
  deliver 0 (mousedown (plain_mouse 20 20))
    (deliver 0 (mousemove (plain_mouse 20 20))
       (deliver 0 (mousemove (plain_mouse 10 10)) origin_world)).

(** [origin_world] after a mousemove and then a mouseout. *)
Definition leave_events : list RawEvent :=
  [mousemove (plain_mouse 1 1); mouseout (plain_mouse 2 2)].

Definition leave_world : World :=
  deliver_all (map (pair 0%nat) leave_events) origin_world.

(** ** More of Point *)

(** [a === b] on numbers: NaN equals nothing, not even itself. *)
Definition num_strict_eq (a b : num) : bool :=
  match a, b with
  | NaN, _ | _, NaN => false
  | PInf, PInf | NInf, NInf => true
  | Fin r, Fin s => if Req_dec_T r s then true else false
  | _, _ => false
  end.

(** [Math.floor], [Math.ceil], [Math.round] (halves go up). *)
Definition Math_floor (a : num) : num :=
  match a with Fin r => Fin (IZR (Int_part r)) | _ => a end.

Definition Math_ceil (a : num) : num :=
  match a with Fin r => Fin (- IZR (Int_part (- r))) | _ => a end.

Definition Math_round (a : num) : num :=
  match a with Fin r => Fin (IZR (Int_part (r + / 2))) | _ => a end.

(** [Point.from({x, y})] *)
Definition from (o : Point) : Point := mkPoint (x o) (y o).

(** [clone()] *)
Definition clone (p : Point) : Point := mkPoint (x p) (y p).

(** [opposite()] and [oppositeMutate()] *)
Definition opposite (p : Point) : Point := mkPoint (nneg (x p)) (nneg (y p)).

Definition oppositeMutate (p : Point) : Point :=
  {| x := nneg (x p); y := nneg (y p) |}.

(** [add(other)] and [addMutate(other)] *)
Definition add (other : Point + num) (p : Point) : Point :=
  match other with
  | inr n => mkPoint (nadd (x p) n) (nadd (y p) n)
  | inl o => mkPoint (nadd (x p) (x o)) (nadd (y p) (y o))
  end.

Definition addMutate (other : Point + num) (p : Point) : Point :=
  match other with
  | inr n => {| x := nadd (x p) n; y := nadd (y p) n |}
  | inl o => {| x := nadd (x p) (x o); y := nadd (y p) (y o) |}
  end.

(** [addX], [addY], [subtractX], [subtractY] *)
Definition addX (amount : num) (p : Point) : Point :=
  mkPoint (nadd (x p) amount) (y p).

Definition addY (amount : num) (p : Point) : Point :=
  mkPoint (x p) (nadd (y p) amount).

Definition subtractX (amount : num) (p : Point) : Point :=
  mkPoint (nsub (x p) amount) (y p).

Definition subtractY (amount : num) (p : Point) : Point :=
  mkPoint (x p) (nsub (y p) amount).

(** [multiply(other)] and [multiplyMutate(other)] *)
Definition multiply (other : Point + num) (p : Point) : Point :=
  match other with
  | inr n => mkPoint (nmul (x p) n) (nmul (y p) n)
  | inl o => mkPoint (nmul (x p) (x o)) (nmul (y p) (y o))
  end.

Definition multiplyMutate (other : Point + num) (p : Point) : Point :=
  match other with
  | inr n => {| x := nmul (x p) n; y := nmul (y p) n |}
  | inl o => {| x := nmul (x p) (x o); y := nmul (y p) (y o) |}
  end.

(** [divide(other)] and [divideMutate(other)] *)
Definition divide (other : Point + num) (p : Point) : Point :=
  match other with
  | inr n => mkPoint (ndiv (x p) n) (ndiv (y p) n)
  | inl o => mkPoint (ndiv (x p) (x o)) (ndiv (y p) (y o))
  end.

Definition divideMutate (other : Point + num) (p : Point) : Point :=
  match other with
  | inr n => {| x := ndiv (x p) n; y := ndiv (y p) n |}
  | inl o => {| x := ndiv (x p) (x o); y := ndiv (y p) (y o) |}
  end.

(** [equals(other)] *)
Definition equals (other : Point) (p : Point) : bool :=
  num_strict_eq (x p) (x other) && num_strict_eq (y p) (y other).

(** [distanceTo(other)]: the squares and their sum as in [magnitude]. *)
Definition distanceTo (other : Point) (p : Point) : num :=
  Math_sqrt (to_double (nadd (Math_pow (nsub (x other) (x p)) 2)
                             (Math_pow (nsub (y other) (y p)) 2))).

(** [round()], [roundDown()], [roundUp()] *)
Definition round (p : Point) : Point :=
  mkPoint (Math_round (x p)) (Math_round (y p)).

Definition roundDown (p : Point) : Point :=
  mkPoint (Math_floor (x p)) (Math_floor (y p)).

Definition roundUp (p : Point) : Point :=
  mkPoint (Math_ceil (x p)) (Math_ceil (y p)).

(** [rotate(radians)]: [nextPoint.angle += radians] on a clone. *)
Definition rotate (radians : num) (p : Point) : Point :=
  let nextPoint := clone p in
  set_angle (nadd (angle nextPoint) radians) nextPoint.


(** ** Binding the raw handlers to the canvas *)

Inductive EventType : Type :=
| Tmousemove | Tmousedown | Tmouseup | Tmouseover | Tmouseout
| Ttouchstart | Ttouchmove | Ttouchend.

Definition EventType_eqb (a b : EventType) : bool :=
  match a, b with
  | Tmousemove, Tmousemove | Tmousedown, Tmousedown | Tmouseup, Tmouseup
  | Tmouseover, Tmouseover | Tmouseout, Tmouseout
  | Ttouchstart, Ttouchstart | Ttouchmove, Ttouchmove | Ttouchend, Ttouchend => true
  | _, _ => false
  end.

Definition type_of (ev : RawEvent) : EventType :=
  match ev with
  | mousemove _ => Tmousemove
  | mousedown _ => Tmousedown
  | mouseup _ => Tmouseup
  | mouseover _ => Tmouseover
  | mouseout _ => Tmouseout
  | touchstart _ => Ttouchstart
  | touchmove _ => Ttouchmove
  | touchend _ => Ttouchend
  end.

(** The variable [bound] of a component and the event types for which
    the canvas holds that component's handler. *)
Record Wiring : Type := mkWiring {
  bound : bool;
  listeners : list EventType
}.

Definition initial_wiring : Wiring := mkWiring false [].

(** [canvas.addEventListener(type, handler)]: a handler that is already
    listed for the type is not listed again. *)
Definition addEventListener (ty : EventType) (l : list EventType) : list EventType :=
  if existsb (EventType_eqb ty) l then l else l ++ [ty].

(** [canvas.removeEventListener(type, handler)] *)
Definition removeEventListener (ty : EventType) (l : list EventType) : list EventType :=
  List.filter (fun o => negb (EventType_eqb ty o)) l.

(** [bindListeners(canvas)] *)
Definition bindListeners (wi : Wiring) : Wiring :=
  if bound wi then wi else
  let l1 := addEventListener Tmousemove (listeners wi) in
  let l2 := addEventListener Tmousedown l1 in
  let l3 := addEventListener Tmouseup l2 in
  let l4 := addEventListener Tmouseover l3 in
  let l5 := addEventListener Tmouseout l4 in
  let l6 := addEventListener Ttouchstart l5 in
  let l7 := addEventListener Ttouchmove l6 in
  let l8 := addEventListener Ttouchend l7 in
  mkWiring true l8.

(** [unbindListeners(canvas)] *)
Definition unbindListeners (wi : Wiring) : Wiring :=
  if negb (bound wi) then wi else
  let l1 := removeEventListener Tmousemove (listeners wi) in
  let l2 := removeEventListener Tmousedown l1 in
  let l3 := removeEventListener Tmouseup l2 in
  let l4 := removeEventListener Ttouchstart l3 in
  let l5 := removeEventListener Ttouchmove l4 in
  let l6 := removeEventListener Ttouchend l5 in
  mkWiring false l6.

(** The component is enabled ([true]) or disabled ([false]), one
    transition after the other. *)
Definition toggle (enable : bool) (wi : Wiring) : Wiring :=
  if enable then bindListeners wi else unbindListeners wi.

Definition toggles (ops : list bool) (wi : Wiring) : Wiring :=
  fold_left (fun acc op => toggle op acc) ops wi.

Definition is_listening (wi : Wiring) (ty : EventType) : bool :=
  existsb (EventType_eqb ty) (listeners wi).

(** The canvas fires a raw event: the handler of component [i] runs when
    it is listed for the event's type. *)
Definition canvas_dispatch (wi : Wiring) (i : nat) (ev : RawEvent) (w : World) : World :=
  if is_listening wi (type_of ev) then deliver i ev w else w.

(** ** Listeners that keep to themselves *)

(** A listener that dispatches no raw event, whatever event it is given. *)
Definition emits_nothing (cb : Callback) : Prop :=
  forall e, emits (cb_run cb e) = [].

(** A listener that never throws. *)
Definition never_throws (cb : Callback) : Prop :=
  forall e, throws (cb_run cb e) = false.

Definition all_listeners (P : Callback -> Prop) (c : Component) : Prop :=
  forall cls, Forall P (callbacks_of cls (storage c)).

Definition no_pending (c : Component) : Prop :=
  pendingMove c = None /\ pendingDown c = None /\ pendingUp c = None.

(** The first touch point of a list. *)
Definition first_touch (l : list Touch) : option Touch :=
  match l with
  | [] => None
  | t :: _ => Some t
  end.

(** ** Animation *)

(** [AnimationFrame]: [onFrame] is a callback or null. *)
Record AnimationFrame (T : Type) : Type := mkAnimationFrame {
  af_data : T;
  af_duration : num;
  af_onFrame : option nat
}.

Arguments mkAnimationFrame {T} _ _ _.
Arguments af_data {T} _.
Arguments af_duration {T} _.
Arguments af_onFrame {T} _.

(** What an animation does to its Timer component and the frame callbacks
    it calls.  The Timer is not part of these sources: the calls made to
    it are recorded, and the value of [timer.delta()] is an input of each
    update. *)
Inductive AnimObs : Type :=
| TimerDisable
| TimerEnable
| TimerSet (d : num)
| OnFrame (cb : nat).

Record AnimationState (T : Type) : Type := mkAnimationState {
  frames : list (AnimationFrame T);
  currentFrameIndex : nat;
  anim_log : list AnimObs
}.

Arguments mkAnimationState {T} _ _ _.
Arguments frames {T} _.
Arguments currentFrameIndex {T} _.
Arguments anim_log {T} _.

Inductive AnimOutcome : Type :=
| AnimOk
| AnimTypeError.  (* a property of undefined was read *)

(** [a > b] on numbers; false when either is NaN. *)
Definition num_gt (a b : num) : bool :=
  match a, b with
  | NaN, _ | _, NaN => false
  | PInf, PInf => false
  | PInf, _ => true
  | _, PInf => false
  | NInf, _ => false
  | _, NInf => true
  | Fin r, Fin s => if Rlt_dec s r then true else false
  end.

(** [Animation(props)]: the timer is made and disabled, the index is 0. *)
Definition Animation {T : Type} (props : list (AnimationFrame T)) : AnimationState T :=
  mkAnimationState props 0 [TimerDisable].

(** [getCurrentFrame()]: [frames[currentFrameIndex]], undefined when the
    index is out of range. *)
Definition getCurrentFrame {T : Type} (st : AnimationState T) : option (AnimationFrame T) :=
  frames st !! currentFrameIndex st.

Definition anim_record {T : Type} (o : AnimObs) (st : AnimationState T) : AnimationState T :=
  mkAnimationState (frames st) (currentFrameIndex st) (anim_log st ++ [o]).

Definition set_currentFrameIndex {T : Type} (i : nat) (st : AnimationState T) :
    AnimationState T :=
  mkAnimationState (frames st) i (anim_log st).

(** The callback given to [useUpdate]; [delta] is what [timer.delta()]
    returns. *)
Definition animation_update {T : Type} (delta : num) (st : AnimationState T) :
    AnimationState T * AnimOutcome :=
  if num_gt delta (Fin 0) then
    let st1 :=
      if (Z.of_nat (currentFrameIndex st) =? Z.of_nat (length (frames st)) - 1)%Z
      then set_currentFrameIndex 0 st
      else set_currentFrameIndex (S (currentFrameIndex st)) st in
    match getCurrentFrame st1 with
    | None => (st1, AnimTypeError)
    | Some currentFrame =>
        let st2 := anim_record (TimerSet (af_duration currentFrame)) st1 in
        match af_onFrame currentFrame with
        | Some cb => (anim_record (OnFrame cb) st2, AnimOk)
        | None => (st2, AnimOk)
        end
    end
  else (st, AnimOk).


(** [play()] *)
Definition animation_play {T : Type} (st : AnimationState T) :
    AnimationState T * AnimOutcome :=
  let st1 := anim_record TimerEnable st in
  match getCurrentFrame st1 with
  | None => (st1, AnimTypeError)
  | Some f => (anim_record (TimerSet (af_duration f)) st1, AnimOk)
  end.






(** ** One line of the tick, seen from the component *)

(** The variables of a component after the line of the tick for slot
    [s], when the listeners of the closure's class dispatch no raw event:
    the closure, if there is one, has emptied its slot and updated the
    event. *)
Definition after_closure (s : Slot) (c : Component) : Component :=
  match slot_content s c with
  | Some (_, a) => updateEvent a (clear_slot s c)
  | None => c
  end.

(** The listeners that the closure in slot [s] triggers, with the class
    they are called for. *)
Definition listener_calls (s : Slot) (c : Component) : list (EventClass * nat) :=
  match slot_content s c with
  | Some (cls, _) => map (fun cb => (cls, cb_id cb)) (callbacks_of cls (storage c))
  | None => []
  end.

Definition EventClass_eqb (a b : EventClass) : bool :=
  match a, b with
  | Move, Move | Down, Down | Up, Up | Out, Out | Over, Over => true
  | _, _ => false
  end.

(** The class whose listeners a raw mouse event is for. *)
Definition mouse_class (ev : RawEvent) : option EventClass :=
  match ev with
  | mousemove _ => Some Move
  | mousedown _ => Some Down
  | mouseup _ => Some Up
  | mouseout _ => Some Out
  | mouseover _ => Some Over
  | _ => None
  end.

(** One call of [onMouseMove], [onMouseDown], [onMouseUp], [onCanvasLeave]
    or [onCanvasEnter], seen from the component. *)
Definition subscribed (c : Component) (s : EventClass * Callback) : Component :=
  set_storage (add_callback (fst s) (snd s) (storage c)) c.

(** * Properties *)

(** ** Numbers *)

Lemma Rsgn_pos (r : R) : (0 < r)%R -> Rsgn r = Gt.
Proof.
  intros H. unfold Rsgn.
  destruct (total_order_T r 0) as [[Hlt | Heq] | Hgt]; try reflexivity; lra.
Qed.


Lemma Rsgn_zero (r : R) : r = 0%R -> Rsgn r = Eq.
Proof.
  intros H. unfold Rsgn.
  destruct (total_order_T r 0) as [[Hlt | Heq] | Hgt]; try reflexivity; lra.
Qed.

Lemma Rsgn_spec (r : R) :
  (Rsgn r = Lt /\ (r < 0)%R) \/ (Rsgn r = Eq /\ r = 0%R) \/ (Rsgn r = Gt /\ (0 < r)%R).
Proof.
  unfold Rsgn.
  destruct (total_order_T r 0) as [[Hlt | Heq] | Hgt]; auto.
Qed.

Lemma ndiv_fin (r s : R) : s <> 0%R -> ndiv (Fin r) (Fin s) = Fin (r / s).
Proof.
  intros Hs. simpl.
  destruct (Rsgn_spec s) as [[-> _] | [[_ H0] | [-> _]]]; try reflexivity.
  contradiction.
Qed.


Lemma ndiv_one (a : num) : ndiv a (Fin 1) = a.
Proof.
  destruct a as [ | | | r]; simpl; rewrite ?(Rsgn_pos 1) by lra; try reflexivity.
  f_equal. field.
Qed.

Lemma Math_sqrt_fin (r : R) : (0 <= r)%R -> Math_sqrt (Fin r) = Fin (sqrt r).
Proof.
  intros H. simpl.
  destruct (Rsgn_spec r) as [[_ Hlt] | [[-> _] | [-> _]]]; try reflexivity; lra.
Qed.

(** ** The range of binary64 *)


Lemma to_double_zero : to_double (Fin 0) = Fin 0.
Proof.
  unfold to_double. rewrite Rabs_R0.
  destruct (Rle_dec overflow_threshold 0) as [H | _].
  - exfalso. unfold overflow_threshold in H. lra.
  - destruct (Rle_dec 0 underflow_threshold); reflexivity.
Qed.

Lemma to_double_exact (r : R) :
  (underflow_threshold < Rabs r < overflow_threshold)%R -> to_double (Fin r) = Fin r.
Proof.
  intros [H1 H2]. unfold to_double.
  destruct (Rle_dec overflow_threshold (Rabs r)); [lra | ].
  destruct (Rle_dec (Rabs r) underflow_threshold); [lra | reflexivity].
Qed.



Lemma to_double_nonneg (r : R) :
  (0 <= r)%R ->
  to_double (Fin r) = PInf \/ exists s : R, (0 <= s)%R /\ to_double (Fin r) = Fin s.
Proof.
  intros Hr. unfold to_double.
  destruct (Rle_dec overflow_threshold (Rabs r)) as [Ho | _].
  - left. rewrite Rabs_right in Ho by lra.
    rewrite Rsgn_pos; [reflexivity | ]. unfold overflow_threshold in Ho. lra.
  - right. destruct (Rle_dec (Rabs r) underflow_threshold).
    + exists 0%R. split; [lra | reflexivity].
    + exists r. split; [exact Hr | reflexivity].
Qed.

Lemma bounded_weaken (lo hi lo' hi' r : R) :
  bounded lo hi r -> (lo' <= lo)%R -> (hi <= hi')%R -> bounded lo' hi' r.
Proof.
  intros [-> | [H1 H2]] Hl Hh; [left; reflexivity | right; lra].
Qed.

Lemma bounded_opp (lo hi r : R) : bounded lo hi r -> bounded lo hi (- r).
Proof.
  intros [-> | H]; [left; ring | right; rewrite Rabs_Ropp; exact H].
Qed.

Lemma bounded_mult (l1 h1 l2 h2 u v : R) :
  (0 <= l1)%R -> (0 <= l2)%R ->
  bounded l1 h1 u -> bounded l2 h2 v -> bounded (l1 * l2) (h1 * h2) (u * v).
Proof.
  intros Hl1 Hl2 [-> | [Hu1 Hu2]] [-> | [Hv1 Hv2]];
    try (left; ring).
  right. rewrite Rabs_mult. split.
  - apply Rmult_le_compat; assumption.
  - apply Rmult_le_compat; try assumption; apply Rabs_pos.
Qed.


Lemma moderate_square_in_range (r : R) : moderate r -> square_in_range r.
Proof.
  intros H. unfold square_in_range. apply (bounded_weaken _ _ _ _ _ H); lra.
Qed.

Lemma moderate_abs_le (r : R) : moderate r -> (Rabs r <= 2 ^ 150)%R.
Proof.
  intros [-> | [_ H]]; [rewrite Rabs_R0; lra | exact H].
Qed.

Lemma moderate_1 : moderate 1.
Proof. right. rewrite Rabs_R1. lra. Qed.

Lemma square_bounds (r : R) :
  square_in_range r ->
  (r * r = 0 \/ / 2 ^ 1074 <= r * r <= 2 ^ 1022)%R.
Proof.
  intros [-> | [H1 H2]]; [left; ring | right].
  assert (E : (r * r = Rabs r * Rabs r)%R).
  { unfold Rabs. destruct (Rcase_abs r); ring. }
  rewrite E. pose proof (Rabs_pos r) as H0.
  split.
  - replace (/ 2 ^ 1074)%R with (/ 2 ^ 537 * / 2 ^ 537)%R by lra.
    apply Rmult_le_compat; lra.
  - replace (2 ^ 1022)%R with (2 ^ 511 * 2 ^ 511)%R by lra.
    apply Rmult_le_compat; lra.
Qed.

Lemma square_to_double (r : R) :
  square_in_range r -> to_double (Fin (r * r)) = Fin (r * r).
Proof.
  intros H. destruct (square_bounds r H) as [-> | [H1 H2]].
  - apply to_double_zero.
  - apply to_double_exact. rewrite Rabs_right by lra.
    unfold underflow_threshold, overflow_threshold. lra.
Qed.

Lemma sum_of_squares_to_double (a b : R) :
  square_in_range a -> square_in_range b ->
  to_double (Fin (a * a + b * b)) = Fin (a * a + b * b).
Proof.
  intros Ha Hb.
  destruct (square_bounds a Ha) as [Ea | [A1 A2]],
           (square_bounds b Hb) as [Eb | [B1 B2]].
  - rewrite Ea, Eb. replace (0 + 0)%R with 0%R by ring. apply to_double_zero.
  - apply to_double_exact. rewrite Rabs_right by lra.
    unfold underflow_threshold, overflow_threshold. lra.
  - apply to_double_exact. rewrite Rabs_right by lra.
    unfold underflow_threshold, overflow_threshold. lra.
  - apply to_double_exact. rewrite Rabs_right by lra.
    unfold underflow_threshold, overflow_threshold. lra.
Qed.

Lemma Math_pow_2_fin (r : R) :
  Math_pow (Fin r) 2 = to_double (Fin (r * r)).
Proof.
  unfold Math_pow. cbn [exact_pow nmul]. do 2 f_equal. ring.
Qed.

Lemma Math_pow_2_nonfinite (a : num) :
  ~ is_finite a -> Math_pow a 2 = NaN \/ Math_pow a 2 = PInf.
Proof.
  destruct a as [ | | | r]; cbn [is_finite]; intros H;
    [left | right | right | exfalso; apply H; exact I];
    unfold Math_pow; cbn [exact_pow nmul nsgn sgn_mul inf_of];
    rewrite ?(Rsgn_pos 1) by lra; reflexivity.
Qed.

Lemma Math_pow_2_cases (a : num) :
  Math_pow a 2 = NaN \/ Math_pow a 2 = PInf \/
  exists s : R, (0 <= s)%R /\ Math_pow a 2 = Fin s.
Proof.
  destruct a as [ | | | r];
    try (destruct (Math_pow_2_nonfinite NaN ltac:(simpl; tauto)); tauto);
    try (destruct (Math_pow_2_nonfinite PInf ltac:(simpl; tauto)); tauto);
    try (destruct (Math_pow_2_nonfinite NInf ltac:(simpl; tauto)); tauto).
  rewrite Math_pow_2_fin.
  destruct (to_double_nonneg (r * r)) as [H | H]; [nra | tauto | tauto].
Qed.

(** The root of a sum of two squares one of which is not finite. *)
Lemma nonfinite_square_sum (A B : num) :
  (A = NaN \/ A = PInf) ->
  (B = NaN \/ B = PInf \/ exists s : R, (0 <= s)%R /\ B = Fin s) ->
  (Math_sqrt (to_double (nadd A B)) = NaN \/ Math_sqrt (to_double (nadd A B)) = PInf) /\
  (Math_sqrt (to_double (nadd B A)) = NaN \/ Math_sqrt (to_double (nadd B A)) = PInf).
Proof.
  intros [-> | ->] [-> | [-> | [s [_ ->]]]]; simpl; auto.
Qed.

Lemma magnitude_fin (a b : R) :
  square_in_range a -> square_in_range b ->
  magnitude (mkPoint (Fin a) (Fin b)) = Fin (sqrt (a * a + b * b)).
Proof.
  intros Ha Hb. unfold magnitude. cbn [x y nsub nneg nadd].
  rewrite !Math_pow_2_fin.
  replace ((0 + - a) * (0 + - a))%R with (a * a)%R by ring.
  replace ((0 + - b) * (0 + - b))%R with (b * b)%R by ring.
  rewrite !square_to_double by assumption. cbn [nadd].
  rewrite sum_of_squares_to_double by assumption.
  apply Math_sqrt_fin. nra.
Qed.

(** ** Button decoding *)

Lemma ToInt32_testbit (z k : Z) :
  (0 <= k < 32)%Z -> Z.testbit (ToInt32 z) k = Z.testbit z k.
Proof.
  intros Hk.
  rewrite <- (Z.mod_pow2_bits_low (ToInt32 z) 32 k) by lia.
  rewrite <- (Z.mod_pow2_bits_low z 32 k) by lia.
  f_equal. unfold ToInt32.
  rewrite Zminus_mod, Zmod_mod, <- Zminus_mod.
  f_equal. ring.
Qed.

Lemma ToInt32_small (z : Z) : (- 2 ^ 31 <= z < 2 ^ 31)%Z -> ToInt32 z = z.
Proof.
  intros H. unfold ToInt32. rewrite Z.mod_small; lia.
Qed.

Lemma land_pow2 (a k : Z) :
  (0 <= k)%Z -> Z.land a (2 ^ k) = if Z.testbit a k then (2 ^ k)%Z else 0%Z.
Proof.
  intros Hk. apply Z.bits_inj'. intros n Hn.
  rewrite Z.land_spec, Z.pow2_bits_eqb by lia.
  destruct (Z.eqb_spec k n) as [-> | Hne].
  - destruct (Z.testbit a n) eqn:E; simpl.
    + rewrite Z.pow2_bits_true by lia. reflexivity.
    + rewrite Z.bits_0. reflexivity.
  - rewrite andb_false_r.
    destruct (Z.testbit a k).
    + rewrite Z.pow2_bits_false by lia. reflexivity.
    + rewrite Z.bits_0. reflexivity.
Qed.

Lemma Boolean_bitand_pow2 (b k : Z) :
  (0 <= k < 31)%Z -> Boolean (bitand b (2 ^ k)) = Z.testbit b k.
Proof.
  intros Hk. unfold bitand, Boolean.
  assert (Hp : (0 < 2 ^ k < 2 ^ 31)%Z).
  { split; [apply Z.pow_pos_nonneg; lia | apply Z.pow_lt_mono_r; lia]. }
  rewrite (ToInt32_small (2 ^ k)) by lia.
  rewrite land_pow2 by lia.
  rewrite ToInt32_testbit by lia.
  destruct (Z.testbit b k).
  - destruct (Z.eqb_spec (2 ^ k) 0); [lia | reflexivity].
  - reflexivity.
Qed.

Lemma strict_eq_decide (button : option Z) (k : Z) :
  strict_eq button k = bool_decide (button = Some k).
Proof.
  destruct button as [b | ]; cbn [strict_eq].
  - destruct (Z.eqb_spec b k) as [-> | Hne].
    + symmetry. apply bool_decide_eq_true_2. reflexivity.
    + symmetry. apply bool_decide_eq_false_2. congruence.
  - symmetry. apply bool_decide_eq_false_2. congruence.
Qed.

(** C10: after [updateEvent], each named button of the event is
    (the bitmask [buttons], 0 when absent, has that button's bit) OR
    (the single [button] index is that button's index), with bits
    0 = left, 1 = right, 2 = middle, 3 = mouse4, 4 = mouse5 and indices
    0 = left, 1 = middle, 2 = right, 3 = mouse4, 4 = mouse5; the bitmask
    0b00011 alone gives left and right and nothing else. *)
Theorem updateEvent_button_decoding :
  forall (a : UpdateArgs) (c : Component),
    let mask := default 0%Z (u_buttons a) in
    let b := buttons (event (updateEvent a c)) in
    (left b = Z.testbit mask 0 || bool_decide (u_button a = Some 0%Z) /\
     right b = Z.testbit mask 1 || bool_decide (u_button a = Some 2%Z) /\
     middle b = Z.testbit mask 2 || bool_decide (u_button a = Some 1%Z) /\
     mouse4 b = Z.testbit mask 3 || bool_decide (u_button a = Some 3%Z) /\
     mouse5 b = Z.testbit mask 4 || bool_decide (u_button a = Some 4%Z)) /\
    forall cx cy : num,
      buttons (event (updateEvent (mkUpdateArgs cx cy (Some 3%Z) None) c))
      = mkButtons true true false false false.
Proof.
  intros a c mask b. split.
  - subst b. unfold updateEvent. cbn [event set_event buttons left right middle mouse4 mouse5].
    fold mask. rewrite <- !strict_eq_decide.
    pose proof (Boolean_bitand_pow2 mask 0 ltac:(lia)) as H0.
    pose proof (Boolean_bitand_pow2 mask 1 ltac:(lia)) as H1.
    pose proof (Boolean_bitand_pow2 mask 2 ltac:(lia)) as H2.
    pose proof (Boolean_bitand_pow2 mask 3 ltac:(lia)) as H3.
    pose proof (Boolean_bitand_pow2 mask 4 ltac:(lia)) as H4.
    change (2 ^ 0)%Z with 1%Z in H0. change (2 ^ 1)%Z with 2%Z in H1.
    change (2 ^ 2)%Z with 4%Z in H2. change (2 ^ 3)%Z with 8%Z in H3.
    change (2 ^ 4)%Z with 16%Z in H4.
    rewrite H0, H1, H2, H3, H4.
    repeat split; reflexivity.
  - intros cx cy. reflexivity.
Qed.

(** ** The coordinate translator *)

Lemma inverse_identity : inverse identity_matrix = identity_matrix.
Proof.
  unfold inverse, determinant, identity_matrix.
  cbn [m_a m_b m_c m_d m_e m_f nmul nsub nneg nadd].
  rewrite (Rsgn_pos (1 * 1 + - (0 * 0))) by lra.
  rewrite !ndiv_fin by lra.
  f_equal; f_equal; field.
Qed.

Lemma transformPoint_identity (a b : R) :
  transformPoint identity_matrix (mkPoint (Fin a) (Fin b)) = mkPoint (Fin a) (Fin b).
Proof.
  unfold transformPoint, identity_matrix. simpl.
  f_equal; f_equal; ring.
Qed.

Lemma translatePos_unscaled (c : Component) (cx cy l t : R) :
  rect_left (getBoundingClientRect (canvas c)) = Fin l ->
  rect_top (getBoundingClientRect (canvas c)) = Fin t ->
  ndiv (rect_width (getBoundingClientRect (canvas c))) (width (canvas c)) = Fin 1 ->
  ndiv (rect_height (getBoundingClientRect (canvas c))) (height (canvas c)) = Fin 1 ->
  matrixForWorldPosition c = identity_matrix ->
  translatePos c (Fin cx) (Fin cy) = mkPoint (Fin (cx - l)) (Fin (cy - t)).
Proof.
  intros Hl Ht Hsx Hsy Hm. unfold translatePos.
  rewrite Hl, Ht, Hsx, Hsy, Hm, inverse_identity, !ndiv_one.
  cbn [nsub nneg nadd]. apply transformPoint_identity.
Qed.

Lemma ndiv_self (r : R) : r <> 0%R -> ndiv (Fin r) (Fin r) = Fin 1.
Proof. intros H. rewrite ndiv_fin by assumption. f_equal. field. assumption. Qed.

Lemma canvas_at_unscaled (l t : R) (m : Matrix) :
  let c := new_component (canvas_at l t) m in
  ndiv (rect_width (getBoundingClientRect (canvas c))) (width (canvas c)) = Fin 1 /\
  ndiv (rect_height (getBoundingClientRect (canvas c))) (height (canvas c)) = Fin 1.
Proof. simpl. split; apply ndiv_self; lra. Qed.

(** C6 (amended): for every finite screen coordinate, when the canvas
    scale factors are 1 and the entity's world transform is the identity,
    the coordinate translator followed by the entity's forward transform
    yields the screen coordinate minus the top-left corner of the canvas's
    bounding rectangle; it is the original coordinate when that corner is
    the viewport origin. *)
Theorem translatePos_round_trip :
  forall (c : Component) (cx cy l t : R),
    rect_left (getBoundingClientRect (canvas c)) = Fin l ->
    rect_top (getBoundingClientRect (canvas c)) = Fin t ->
    ndiv (rect_width (getBoundingClientRect (canvas c))) (width (canvas c)) = Fin 1 ->
    ndiv (rect_height (getBoundingClientRect (canvas c))) (height (canvas c)) = Fin 1 ->
    matrixForWorldPosition c = identity_matrix ->
    transformPoint (matrixForWorldPosition c) (translatePos c (Fin cx) (Fin cy))
      = mkPoint (Fin (cx - l)) (Fin (cy - t)) /\
    (l = 0%R -> t = 0%R ->
     transformPoint (matrixForWorldPosition c) (translatePos c (Fin cx) (Fin cy))
       = mkPoint (Fin cx) (Fin cy)).
Proof.
  intros c cx cy l t Hl Ht Hsx Hsy Hm.
  rewrite (translatePos_unscaled c cx cy l t Hl Ht Hsx Hsy Hm).
  rewrite Hm, transformPoint_identity. split; [reflexivity | ].
  intros -> ->. f_equal; f_equal; ring.
Qed.

Lemma translatePos_round_trip_witness :
  transformPoint (matrixForWorldPosition origin_component)
                 (translatePos origin_component (Fin 10) (Fin 20))
  = mkPoint (Fin 10) (Fin 20).
Proof.
  refine (proj2 (translatePos_round_trip origin_component 10 20 0 0
                   eq_refl eq_refl _ _ eq_refl) eq_refl eq_refl).
  - exact (proj1 (canvas_at_unscaled 0 0 identity_matrix)).
  - exact (proj2 (canvas_at_unscaled 0 0 identity_matrix)).
Defined.

(** C6 as stated fails: with scale factors 1 and the identity transform,
    a canvas whose rectangle starts 5 pixels from the left of the viewport
    sends the screen coordinate (10, 10) to (5, 10), not back to (10, 10). *)
Lemma translatePos_round_trip_offset_counterexample :
  ndiv (rect_width (getBoundingClientRect (canvas offset_component)))
       (width (canvas offset_component)) = Fin 1 /\
  ndiv (rect_height (getBoundingClientRect (canvas offset_component)))
       (height (canvas offset_component)) = Fin 1 /\
  matrixForWorldPosition offset_component = identity_matrix /\
  transformPoint (matrixForWorldPosition offset_component)
                 (translatePos offset_component (Fin 10) (Fin 10))
  <> mkPoint (Fin 10) (Fin 10).
Proof.
  destruct (canvas_at_unscaled 5 0 identity_matrix) as [Hx Hy].
  split; [exact Hx | split; [exact Hy | split; [reflexivity | ]]].
  rewrite (translatePos_unscaled offset_component 10 10 5 0
             eq_refl eq_refl Hx Hy eq_refl).
  change (matrixForWorldPosition offset_component) with identity_matrix.
  rewrite transformPoint_identity.
  intros H. injection H as H _. lra.
Qed.

(** ** Polar coordinates *)

Lemma Rsgn_scale (k r : R) : (0 < k)%R -> Rsgn (k * r) = Rsgn r.
Proof.
  intros Hk.
  destruct (Rsgn_spec r) as [[-> Hr] | [[-> Hr] | [-> Hr]]];
    destruct (Rsgn_spec (k * r)) as [[-> Hp] | [[-> Hp] | [-> Hp]]];
    try reflexivity; nra.
Qed.

Lemma Ratan2_scale (k s r : R) :
  (0 < k)%R -> Ratan2 (k * s) (k * r) = Ratan2 s r.
Proof.
  intros Hk. unfold Ratan2. rewrite !Rsgn_scale by assumption.
  destruct (Rsgn_spec r) as [[-> Hr] | [[-> Hr] | [-> Hr]]]; try reflexivity.
  - replace (k * s / (k * r))%R with (s / r)%R by (field; lra). reflexivity.
  - replace (k * s / (k * r))%R with (s / r)%R by (field; lra). reflexivity.
Qed.

Lemma cos_period_Z (a : R) (k : Z) : cos (a + 2 * IZR k * PI) = cos a.
Proof.
  destruct (Z_le_gt_dec 0 k) as [Hk | Hk].
  - rewrite <- (Z2Nat.id k) by lia. rewrite <- INR_IZR_INZ. apply cos_period.
  - rewrite <- (cos_period (a + 2 * IZR k * PI) (Z.to_nat (- k))).
    f_equal. rewrite INR_IZR_INZ, Z2Nat.id by lia. rewrite opp_IZR. ring.
Qed.

Lemma same_direction (r a : R) :
  cos r = cos a -> sin r = sin a -> exists k : Z, (r = a + 2 * IZR k * PI)%R.
Proof.
  intros Hc Hs.
  assert (Hsin : sin (r - a) = 0%R).
  { rewrite sin_minus, Hc, Hs. ring. }
  assert (Hcos : cos (r - a) = 1%R).
  { rewrite cos_minus, Hc, Hs. pose proof (sin2_cos2 a) as H. unfold Rsqr in H. lra. }
  destruct (sin_eq_0_0 _ Hsin) as [k Hk].
  destruct (Z.Even_or_Odd k) as [[q Hq] | [q Hq]].
  - exists q. subst k. rewrite mult_IZR in Hk. lra.
  - exfalso. subst k.
    rewrite Hk, plus_IZR, mult_IZR in Hcos.
    replace ((2 * IZR q + 1) * PI)%R with (PI + 2 * IZR q * PI)%R in Hcos by ring.
    rewrite cos_period_Z, cos_PI in Hcos. lra.
Qed.

Lemma sqrt_inv_sq (c : R) : (0 < c)%R -> sqrt (/ (c * c)) = (/ c)%R.
Proof.
  intros Hc. apply sqrt_lem_1.
  - left. apply Rinv_0_lt_compat. nra.
  - left. apply Rinv_0_lt_compat. assumption.
  - field. lra.
Qed.


Lemma sqrt_one_plus_tan2 (a : R) :
  cos a <> 0%R -> sqrt (1 + (sin a / cos a)²) = (/ Rabs (cos a))%R.
Proof.
  intros Hc.
  pose proof (sin2_cos2 a) as H1. unfold Rsqr in H1 |- *.
  assert (Habs : (0 < Rabs (cos a))%R) by (apply Rabs_pos_lt; assumption).
  replace (1 + sin a / cos a * (sin a / cos a))%R
    with (/ (Rabs (cos a) * Rabs (cos a)))%R.
  - apply sqrt_inv_sq. assumption.
  - replace (Rabs (cos a) * Rabs (cos a))%R with (cos a * cos a)%R.
    + assert (E : (1 + sin a / cos a * (sin a / cos a)
                   = (sin a * sin a + cos a * cos a) / (cos a * cos a))%R)
        by (field; assumption).
      rewrite E, H1. field. assumption.
    + unfold Rabs. destruct (Rcase_abs (cos a)); ring.
Qed.

Lemma Ratan2_cos_sin (a : R) :
  cos (Ratan2 (sin a) (cos a)) = cos a /\ sin (Ratan2 (sin a) (cos a)) = sin a.
Proof.
  pose proof (sin2_cos2 a) as H1. unfold Rsqr in H1.
  unfold Ratan2.
  destruct (Rsgn_spec (cos a)) as [[-> Hc] | [[-> Hc] | [-> Hc]]].
  - assert (Hq : sqrt (1 + (sin a / cos a)²) = (/ - cos a)%R).
    { rewrite sqrt_one_plus_tan2 by lra. rewrite Rabs_left by assumption. reflexivity. }
    assert (Hcos : (- cos (atan (sin a / cos a)) = cos a)%R).
    { rewrite cos_atan, Hq. field. lra. }
    assert (Hsin : (- sin (atan (sin a / cos a)) = sin a)%R).
    { rewrite sin_atan, Hq. field. lra. }
    destruct (Rsgn (sin a)).
    + rewrite neg_cos, neg_sin. split; assumption.
    + replace (atan (sin a / cos a) - PI)%R
        with ((atan (sin a / cos a) + PI) + 2 * IZR (-1) * PI)%R by ring.
      rewrite cos_period_Z.
      replace (atan (sin a / cos a) + PI + 2 * IZR (-1) * PI)%R
        with (- (PI - atan (sin a / cos a)))%R by ring.
      rewrite neg_cos, sin_neg, sin_PI_x. split; assumption.
    + rewrite neg_cos, neg_sin. split; assumption.
  - rewrite Hc in H1.
    destruct (Rsgn_spec (sin a)) as [[-> Hs] | [[-> Hs] | [-> Hs]]].
    + rewrite cos_neg, sin_neg, cos_PI2, sin_PI2. split; [lra | nra].
    + nra.
    + rewrite cos_PI2, sin_PI2. split; [lra | nra].
  - assert (Hq : sqrt (1 + (sin a / cos a)²) = (/ cos a)%R).
    { rewrite sqrt_one_plus_tan2 by lra. rewrite Rabs_right by lra. reflexivity. }
    rewrite cos_atan, sin_atan, Hq. split; field; lra.
Qed.

Lemma Ratan2_polar (m a : R) :
  (0 < m)%R -> exists k : Z, Ratan2 (m * sin a) (m * cos a) = (a + 2 * IZR k * PI)%R.
Proof.
  intros Hm. rewrite Ratan2_scale by assumption.
  destruct (Ratan2_cos_sin a) as [Hc Hs].
  exact (same_direction _ _ Hc Hs).
Qed.

(** ** Magnitude, angle and normalisation *)


Lemma sqrt_sumsq_zero (a b : R) :
  sqrt (a * a + b * b) = 0%R -> a = 0%R /\ b = 0%R.
Proof.
  intros H. apply sqrt_eq_0 in H; [ | nra]. split; nra.
Qed.

Lemma sumsq_sqrt (a b : R) :
  (sqrt (a * a + b * b) * sqrt (a * a + b * b) = a * a + b * b)%R.
Proof. apply sqrt_sqrt. nra. Qed.

Lemma sqrt_sumsq_ge (a b : R) : (Rabs a <= sqrt (a * a + b * b))%R.
Proof.
  rewrite <- (sqrt_Rsqr_abs a). apply sqrt_le_1_alt. unfold Rsqr. nra.
Qed.

Lemma sqrt_sumsq_le (a b : R) : (sqrt (a * a + b * b) <= Rabs a + Rabs b)%R.
Proof.
  pose proof (Rabs_pos a) as Ha. pose proof (Rabs_pos b) as Hb.
  rewrite <- (sqrt_square (Rabs a + Rabs b)) by lra.
  apply sqrt_le_1_alt.
  assert (Ea : (Rabs a * Rabs a = a * a)%R)
    by (unfold Rabs; destruct (Rcase_abs a); ring).
  assert (Eb : (Rabs b * Rabs b = b * b)%R)
    by (unfold Rabs; destruct (Rcase_abs b); ring).
  nra.
Qed.

(** The magnitude of a nonzero Point with moderate components. *)
Lemma magnitude_bounds (a b : R) :
  moderate a -> moderate b -> sqrt (a * a + b * b) <> 0%R ->
  (/ 2 ^ 150 <= Rabs (sqrt (a * a + b * b)) <= 2 ^ 151)%R.
Proof.
  intros Ha Hb Hne.
  pose proof (sqrt_pos (a * a + b * b)) as H0.
  rewrite Rabs_right by lra.
  pose proof (sqrt_sumsq_le a b) as Hle.
  pose proof (moderate_abs_le a Ha) as Hua.
  pose proof (moderate_abs_le b Hb) as Hub.
  split; [ | lra].
  destruct Ha as [Ea | [Ha _]].
  - destruct Hb as [Eb | [Hb _]].
    + exfalso. apply Hne. subst a b.
      replace (0 * 0 + 0 * 0)%R with 0%R by ring. apply sqrt_0.
    + pose proof (sqrt_sumsq_ge b a) as Hge.
      replace (b * b + a * a)%R with (a * a + b * b)%R in Hge by ring. lra.
  - pose proof (sqrt_sumsq_ge a b) as Hge. lra.
Qed.




Lemma scaled_in_range (M c : R) :
  (/ 2 ^ 150 <= Rabs M <= 2 ^ 151)%R -> moderate c -> square_in_range (M * c).
Proof.
  intros HM Hc. unfold square_in_range.
  apply (bounded_weaken (/ 2 ^ 150 * / 2 ^ 150) (2 ^ 151 * 2 ^ 150));
    [apply bounded_mult; [lra | lra | right; exact HM | exact Hc] | lra | lra].
Qed.

Lemma moderate_mult_in_range (u v : R) :
  moderate u -> moderate v -> square_in_range (u * v).
Proof.
  intros Hu Hv. unfold square_in_range.
  apply (bounded_weaken (/ 2 ^ 150 * / 2 ^ 150) (2 ^ 150 * 2 ^ 150));
    [apply bounded_mult; [lra | lra | exact Hu | exact Hv] | lra | lra].
Qed.

Lemma moderate_point_fin (p : Point) :
  moderate_point p ->
  exists a b : R, p = mkPoint (Fin a) (Fin b) /\ moderate a /\ moderate b.
Proof.
  destruct p as [[ | | | a] [ | | | b]]; unfold moderate_point; cbn [x y];
    try tauto.
  intros [Ha Hb]. exists a, b. auto.
Qed.

Lemma magnitude_moderate (a b : R) :
  moderate a -> moderate b ->
  magnitude (mkPoint (Fin a) (Fin b)) = Fin (sqrt (a * a + b * b)).
Proof.
  intros Ha Hb. apply magnitude_fin; apply moderate_square_in_range; assumption.
Qed.

Lemma normalize_fin (a b : R) :
  square_in_range a -> square_in_range b -> sqrt (a * a + b * b) <> 0%R ->
  normalize (mkPoint (Fin a) (Fin b))
  = mkPoint (Fin (a / sqrt (a * a + b * b))) (Fin (b / sqrt (a * a + b * b))).
Proof.
  intros Ha Hb H. unfold normalize. rewrite magnitude_fin by assumption. cbn [x y].
  rewrite !ndiv_fin by assumption. reflexivity.
Qed.

Lemma normalizeMutate_normalize (p : Point) : normalizeMutate p = normalize p.
Proof. reflexivity. Qed.

Lemma angle_fin (a b : R) :
  angle (mkPoint (Fin a) (Fin b))
  = Fin (match Rsgn a, Rsgn b with
         | Lt, Eq => - PI
         | _, _ => Ratan2 (- b) a
         end).
Proof.
  unfold angle. cbn [x y nsgn nneg Math_atan2].
  destruct (Rsgn a), (Rsgn b); reflexivity.
Qed.


(** The angle getter on a Point given in polar form. *)
Lemma angle_polar (M a : R) :
  (0 < M)%R ->
  exists k : Z,
    angle (mkPoint (Fin (M * cos a)) (Fin (- (M * sin a))))
    = Fin (a + 2 * IZR k * PI).
Proof.
  intros HM. rewrite angle_fin.
  replace (- - (M * sin a))%R with (M * sin a)%R by ring.
  replace (- (M * sin a))%R with (M * - sin a)%R by ring.
  rewrite !Rsgn_scale by assumption.
  assert (G : exists k : Z, Fin (Ratan2 (M * sin a) (M * cos a))
                            = Fin (a + 2 * IZR k * PI)).
  { destruct (Ratan2_polar M a HM) as [k Hk]. exists k. f_equal. exact Hk. }
  destruct (Rsgn_spec (cos a)) as [[-> Hc] | [[-> Hc] | [-> Hc]]];
    try exact G.
  destruct (Rsgn_spec (- sin a)) as [[-> Hs] | [[-> Hs] | [-> Hs]]];
    try exact G.
  pose proof (sin2_cos2 a) as H1. unfold Rsqr in H1.
  destruct (same_direction (- PI) a) as [k Hk].
  - rewrite cos_neg, cos_PI. nra.
  - rewrite sin_neg, sin_PI. lra.
  - exists k. f_equal. exact Hk.
Qed.

(** ** Rotation through the polar form *)

Lemma sqrt_one_plus_ratio (a b : R) :
  a <> 0%R -> sqrt (1 + (b / a)²) = (sqrt (a * a + b * b) / Rabs a)%R.
Proof.
  intros Ha.
  assert (Habs : (0 < Rabs a)%R) by (apply Rabs_pos_lt; assumption).
  assert (Habs2 : (Rabs a * Rabs a = a * a)%R).
  { unfold Rabs. destruct (Rcase_abs a); ring. }
  pose proof (sqrt_pos (a * a + b * b)) as HM.
  pose proof (sumsq_sqrt a b) as Hsq.
  apply sqrt_lem_1.
  - unfold Rsqr. pose proof (Rle_0_sqr (b / a)) as H. unfold Rsqr in H. lra.
  - apply Rmult_le_pos; [exact HM | ]. left. apply Rinv_0_lt_compat. exact Habs.
  - unfold Rsqr.
    replace (sqrt (a * a + b * b) / Rabs a * (sqrt (a * a + b * b) / Rabs a))%R
      with ((sqrt (a * a + b * b) * sqrt (a * a + b * b)) / (Rabs a * Rabs a))%R
      by (field; lra).
    rewrite Hsq, Habs2. field. assumption.
Qed.

(** The polar form of a pair of reals through [Ratan2]. *)
Lemma Ratan2_unit (a b : R) :
  (sqrt (a * a + b * b) * cos (Ratan2 b a) = a)%R /\
  (sqrt (a * a + b * b) * sin (Ratan2 b a) = b)%R.
Proof.
  unfold Ratan2.
  destruct (Rsgn_spec a) as [[-> Ha] | [[-> Ha] | [-> Ha]]].
  - assert (Hne : a <> 0%R) by lra.
    pose proof (sqrt_one_plus_ratio a b Hne) as Hq.
    rewrite Rabs_left in Hq by assumption.
    assert (HM : (0 < sqrt (a * a + b * b))%R).
    { apply sqrt_lt_R0. nra. }
    assert (Hc : (sqrt (a * a + b * b) * - cos (atan (b / a)) = a)%R).
    { rewrite cos_atan, Hq. field. lra. }
    assert (Hs : (sqrt (a * a + b * b) * - sin (atan (b / a)) = b)%R).
    { rewrite sin_atan, Hq. field. lra. }
    destruct (Rsgn b).
    + rewrite neg_cos, neg_sin. auto.
    + replace (atan (b / a) - PI)%R with (- (PI - atan (b / a)))%R by ring.
      rewrite cos_neg, sin_neg, Rtrigo_facts.cos_pi_minus, sin_PI_x. auto.
    + rewrite neg_cos, neg_sin. auto.
  - subst a.
    destruct (Rsgn_spec b) as [[-> Hb] | [[-> Hb] | [-> Hb]]].
    + replace (0 * 0 + b * b)%R with ((- b) * (- b))%R by ring.
      rewrite sqrt_square by lra.
      rewrite cos_neg, sin_neg, cos_PI2, sin_PI2. split; ring.
    + subst b. replace (0 * 0 + 0 * 0)%R with 0%R by ring.
      rewrite sqrt_0. split; ring.
    + replace (0 * 0 + b * b)%R with (b * b)%R by ring.
      rewrite sqrt_square by lra.
      rewrite cos_PI2, sin_PI2. split; ring.
  - assert (Hne : a <> 0%R) by lra.
    pose proof (sqrt_one_plus_ratio a b Hne) as Hq.
    rewrite Rabs_right in Hq by lra.
    assert (HM : (0 < sqrt (a * a + b * b))%R).
    { apply sqrt_lt_R0. nra. }
    rewrite cos_atan, sin_atan, Hq. split; field; lra.
Qed.

(** The polar form of a Point through its angle getter. *)
Lemma angle_unit (a b : R) :
  exists t : R,
    angle (mkPoint (Fin a) (Fin b)) = Fin t /\
    (sqrt (a * a + b * b) * cos t = a)%R /\
    (sqrt (a * a + b * b) * sin t = - b)%R.
Proof.
  rewrite angle_fin.
  assert (G : exists t : R,
             Fin (Ratan2 (- b) a) = Fin t /\
             (sqrt (a * a + b * b) * cos t = a)%R /\
             (sqrt (a * a + b * b) * sin t = - b)%R).
  { exists (Ratan2 (- b) a). split; [reflexivity | ].
    destruct (Ratan2_unit a (- b)) as [Hc Hs].
    replace (a * a + - b * - b)%R with (a * a + b * b)%R in Hc, Hs by ring.
    auto. }
  destruct (Rsgn_spec a) as [[-> Ha] | [[-> Ha] | [-> Ha]]]; try exact G.
  destruct (Rsgn_spec b) as [[-> Hb] | [[-> Hb] | [-> Hb]]]; try exact G.
  exists (- PI)%R. split; [reflexivity | ].
  subst b. replace (a * a + 0 * 0)%R with ((- a) * (- a))%R by ring.
  rewrite sqrt_square by lra.
  rewrite cos_neg, sin_neg, cos_PI, sin_PI. split; ring.
Qed.


Lemma moderate_3 : moderate 3.
Proof. right. rewrite Rabs_right by lra. lra. Qed.

Lemma moderate_4 : moderate 4.
Proof. right. rewrite Rabs_right by lra. lra. Qed.

Lemma moderate_0 : moderate 0.
Proof. left. reflexivity. Qed.







Lemma set_angle_fin (a0 b0 a : R) :
  square_in_range a0 -> square_in_range b0 ->
  set_angle (Fin a) (mkPoint (Fin a0) (Fin b0))
  = mkPoint (Fin (sqrt (a0 * a0 + b0 * b0) * cos a))
            (Fin (- (sqrt (a0 * a0 + b0 * b0) * sin a))).
Proof.
  intros Ha Hb. unfold set_angle. rewrite magnitude_fin by assumption.
  reflexivity.
Qed.

Lemma set_magnitude_fin (a0 b0 m : R) :
  square_in_range a0 -> square_in_range b0 ->
  sqrt (a0 * a0 + b0 * b0) <> 0%R ->
  set_magnitude (Fin m) (mkPoint (Fin a0) (Fin b0))
  = mkPoint (Fin (a0 / sqrt (a0 * a0 + b0 * b0) * m))
            (Fin (b0 / sqrt (a0 * a0 + b0 * b0) * m)).
Proof.
  intros Ha Hb H. unfold set_magnitude.
  rewrite normalizeMutate_normalize, normalize_fin by assumption. reflexivity.
Qed.


Lemma moderate_2 : moderate 2.
Proof. right. rewrite Rabs_right by lra. lra. Qed.





Lemma square_in_range_1 : square_in_range 1.
Proof. apply moderate_square_in_range. exact moderate_1. Qed.


(** ** The log accounts for the state *)

Lemma replay_app (i : nat) (t1 t2 : list Obs) (c : Component) :
  replay i (t1 ++ t2) c = replay i t2 (replay i t1 c).
Proof. unfold replay. apply fold_left_app. Qed.

Lemma accounts_refl (w : World) : accounts w w [].
Proof.
  split.
  - rewrite app_nil_r. reflexivity.
  - intros j. simpl. destruct (components w !! j); reflexivity.
Qed.

Lemma accounts_trans (w w1 w2 : World) (t1 t2 : list Obs) :
  accounts w w1 t1 -> accounts w1 w2 t2 -> accounts w w2 (t1 ++ t2).
Proof.
  intros [Hl1 Hc1] [Hl2 Hc2]. split.
  - rewrite Hl2, Hl1, app_assoc. reflexivity.
  - intros j. rewrite Hc2, Hc1.
    destruct (components w !! j) as [c | ]; simpl; [ | reflexivity].
    rewrite replay_app. reflexivity.
Qed.

Lemma accounts_lookup (w w' : World) (t : list Obs) (j : nat) (c : Component) :
  accounts w w' t -> components w !! j = Some c ->
  components w' !! j = Some (replay j t c).
Proof. intros [_ H] Hc. rewrite H, Hc. reflexivity. Qed.

Lemma lookup_modify (i j : nat) (f : Component -> Component) (w : World) :
  components (modify i f w) !! j
  = (if Nat.eqb i j then f else fun c => c) <$> components w !! j.
Proof.
  unfold modify. cbn [components set_components].
  destruct (Nat.eqb_spec i j) as [-> | Hne].
  - apply list_lookup_alter_eq.
  - rewrite list_lookup_alter_ne by assumption.
    destruct (components w !! j); reflexivity.
Qed.

Lemma accounts_add_log (o : Obs) (w : World) :
  (forall j c, replay_obs j o c = c) -> accounts w (add_log o w) [o].
Proof.
  intros H. split; [reflexivity | ].
  intros j. cbn [add_log components].
  destruct (components w !! j) as [c | ]; simpl; [ | reflexivity].
  rewrite H. reflexivity.
Qed.

(** An assignment to component [i] followed by the log entry that stands
    for it. *)
Lemma accounts_modify_log (i : nat) (f : Component -> Component) (o : Obs)
    (w : World) (c : Component) :
  components w !! i = Some c ->
  replay_obs i o c = f c ->
  (forall j c', j <> i -> replay_obs j o c' = c') ->
  accounts w (add_log o (modify i f w)) [o].
Proof.
  intros Hc Hi Hj. split; [reflexivity | ].
  intros j. cbn [add_log components]. rewrite lookup_modify.
  destruct (Nat.eqb_spec i j) as [Heq | Hne].
  - subst j. rewrite Hc. simpl. rewrite <- Hi. reflexivity.
  - destruct (components w !! j) as [c' | ]; simpl; [ | reflexivity].
    rewrite Hj by congruence. reflexivity.
Qed.

(** An assignment that the log already accounts for. *)
Lemma accounts_modify_silent (i : nat) (f : Component -> Component)
    (w0 w : World) (t : list Obs) :
  accounts w0 w t ->
  (forall c, components w0 !! i = Some c -> f (replay i t c) = replay i t c) ->
  accounts w0 (modify i f w) t.
Proof.
  intros [Hl Hc] Hf. split; [exact Hl | ].
  intros j. rewrite lookup_modify, Hc.
  destruct (Nat.eqb_spec i j) as [-> | Hne].
  - destruct (components w0 !! j) as [c | ] eqn:E; simpl; [ | reflexivity].
    rewrite (Hf c eq_refl). reflexivity.
  - destruct (components w0 !! j); reflexivity.
Qed.

Lemma call_first_click_handlers_spec (hs : list FirstClickHandler) (w : World) :
  call_first_click_handlers hs w
  = (mkWorld (firstClickHasHappened w) (pendingFirstClickHandlers w) (components w)
             (log w ++ map (fun h => OFirstClick (fc_id h)) (handlers_called hs)),
     handlers_outcome hs).
Proof.
  revert w. induction hs as [ | h hs IH]; intros w.
  - cbn. rewrite app_nil_r. destruct w; reflexivity.
  - cbn [call_first_click_handlers handlers_called handlers_outcome].
    unfold andThen, call_first_click_handler. destruct (fc_throws h).
    + reflexivity.
    + rewrite IH. cbn [add_log firstClickHasHappened pendingFirstClickHandlers
                       components log map].
      rewrite <- app_assoc. reflexivity.
Qed.

Lemma handlers_outcome_existsb (hs : list FirstClickHandler) :
  match handlers_outcome hs with
  | Normal => existsb fc_throws hs = false
  | Threw _ => existsb fc_throws hs = true
  end.
Proof.
  induction hs as [ | h hs IH]; [reflexivity | ].
  cbn [handlers_outcome existsb]. destruct (fc_throws h); [reflexivity | exact IH].
Qed.

Lemma handlers_called_all (hs : list FirstClickHandler) :
  existsb fc_throws hs = false -> handlers_called hs = hs.
Proof.
  induction hs as [ | h hs IH]; [reflexivity | ].
  cbn [existsb handlers_called]. destruct (fc_throws h); [discriminate | ].
  intros H. rewrite IH by exact H. reflexivity.
Qed.

Lemma first_click_spec (w : World) :
  first_click w
  = if firstClickHasHappened w then (w, Normal)
    else (mkWorld true
            (if existsb fc_throws (pendingFirstClickHandlers w)
             then pendingFirstClickHandlers w else [])
            (components w)
            (log w ++ map (fun h => OFirstClick (fc_id h))
                          (handlers_called (pendingFirstClickHandlers w))),
          handlers_outcome (pendingFirstClickHandlers w)).
Proof.
  unfold first_click. destruct (firstClickHasHappened w); [reflexivity | ].
  cbn [negb]. unfold andThen, lift.
  cbn [set_firstClickHasHappened pendingFirstClickHandlers].
  rewrite call_first_click_handlers_spec.
  pose proof (handlers_outcome_existsb (pendingFirstClickHandlers w)) as H.
  destruct (handlers_outcome (pendingFirstClickHandlers w)); rewrite H; reflexivity.
Qed.

(** The first-click block throws exactly when [click_throws] says so. *)
Lemma first_click_outcome (w : World) :
  match snd (first_click w) with
  | Normal => click_throws w = false
  | Threw _ => click_throws w = true
  end.
Proof.
  rewrite first_click_spec. unfold click_throws.
  destruct (firstClickHasHappened w); [reflexivity | ].
  cbn [snd negb andb]. apply handlers_outcome_existsb.
Qed.

Lemma replay_raw_only_first_clicks (j : nat) (hs : list FirstClickHandler)
    (c : Component) :
  replay j (map (fun h => OFirstClick (fc_id h)) hs) c = c.
Proof. induction hs as [ | h hs IH]; simpl; [reflexivity | exact IH]. Qed.

Lemma replay_quiet (j : nat) (t : list Obs) (c : Component) :
  Forall (fun o => is_quiet_obs o = true) t -> replay j t c = c.
Proof.
  intros H. revert c. induction H as [ | o t Ho _ IH]; intros c.
  - reflexivity.
  - simpl. destruct o; try discriminate; simpl; apply IH.
Qed.

Lemma quiet_is_raw (t : list Obs) :
  Forall (fun o => is_quiet_obs o = true) t ->
  Forall (fun o => is_raw_obs o = true) t.
Proof.
  apply List.Forall_impl. intros o. destruct o; simpl; congruence.
Qed.

Lemma first_click_quiet (w : World) :
  components (fst (first_click w)) = components w /\
  exists t, log (fst (first_click w)) = log w ++ t /\
            Forall (fun o => is_quiet_obs o = true) t.
Proof.
  rewrite first_click_spec. destruct (firstClickHasHappened w).
  - split; [reflexivity | ]. exists []. rewrite app_nil_r. split; constructor.
  - split; [reflexivity | ].
    exists (map (fun h => OFirstClick (fc_id h))
                (handlers_called (pendingFirstClickHandlers w))).
    split; [reflexivity | ].
    induction (handlers_called (pendingFirstClickHandlers w)) as [ | h hs IH]; simpl;
      constructor; [reflexivity | exact IH].
Qed.

Lemma first_click_accounts (w : World) :
  exists t, accounts w (fst (first_click w)) t /\
            Forall (fun o => is_raw_obs o = true) t /\
            (forall j c, replay j t c = c).
Proof.
  destruct (first_click_quiet w) as (Hc & t & Hl & Hq).
  exists t. split; [split | split].
  - exact Hl.
  - intros j. rewrite Hc. destruct (components w !! j); simpl; [ | reflexivity].
    rewrite replay_quiet by exact Hq. reflexivity.
  - apply quiet_is_raw. exact Hq.
  - intros j c. apply replay_quiet. exact Hq.
Qed.

Lemma andThen_lift (a : Act) (g : World -> World) (w : World) :
  (a ;> lift g) w
  = match snd (a w) with
    | Normal => (g (fst (a w)), Normal)
    | Threw h => (fst (a w), Threw h)
    end.
Proof. unfold andThen, lift. destruct (a w) as [w1 [ | h]]; reflexivity. Qed.

Lemma handleTouchStart_eq (i : nat) (c : Component) (ev : TouchEvent) (w : World) :
  handleTouchStart i c ev w
  = if isTouching c then (add_log (OPreventDefault i) w, Normal)
    else (first_click ;>
          lift (fun w1 =>
                  match touches ev with
                  | [] => w1
                  | t :: _ =>
                      modify i (set_isTouching true)
                        (modify i (set_pendingDown (Some (args_of_touch t))) w1)
                  end)) (add_log (OPreventDefault i) w).
Proof. unfold handleTouchStart. destruct (isTouching c); reflexivity. Qed.

(** What a raw handler makes of the world it is entered in: the variables
    of the components, the log, and how it ends. *)
Lemma raw_handler_spec (i : nat) (c : Component) (ev : RawEvent) (w : World) :
  components w !! i = Some c ->
  components (fst (raw_handler i c ev w)) !! i = Some (raw_effect w ev c) /\
  (forall j, j <> i ->
             components (fst (raw_handler i c ev w)) !! j = components w !! j) /\
  (exists t, log (fst (raw_handler i c ev w)) = log w ++ t /\
             Forall (fun o => is_quiet_obs o = true) t) /\
  match snd (raw_handler i c ev w) with
  | Normal => raw_effect w ev c = handler_effect ev c
  | Threw _ => raw_effect w ev c = c
  end.
Proof.
  intros Hc.
  assert (Hid : forall o : option Component, (fun c0 : Component => c0) <$> o = o)
    by (intros [o | ]; reflexivity).
  assert (Hne : forall j, j <> i -> Nat.eqb i j = false).
  { intros j H. apply Nat.eqb_neq. congruence. }
  assert (Hnil : log w = log w ++ []) by (rewrite app_nil_r; reflexivity).
  assert (Hpd : Forall (fun o => is_quiet_obs o = true) [OPreventDefault i])
    by (repeat constructor).
  pose proof (first_click_outcome w) as Hout.
  destruct (first_click_quiet w) as (Hfc & tf & Hlf & Hqf).
  pose proof (first_click_outcome (add_log (OPreventDefault i) w)) as Hout0.
  change (click_throws (add_log (OPreventDefault i) w)) with (click_throws w) in Hout0.
  assert (H0 : components (fst (first_click (add_log (OPreventDefault i) w)))
               = components w /\
               exists tf0,
                 log (fst (first_click (add_log (OPreventDefault i) w)))
                 = log w ++ [OPreventDefault i] ++ tf0 /\
                 Forall (fun o => is_quiet_obs o = true) tf0).
  { destruct (first_click_quiet (add_log (OPreventDefault i) w)) as (A & t0 & B & C).
    split; [exact A | ]. exists t0. split; [ | exact C].
    rewrite B. cbn [add_log log]. rewrite <- app_assoc. reflexivity. }
  destruct H0 as (Hfc0 & tf0 & Hlf0 & Hqf0).
  assert (Hq0 : Forall (fun o => is_quiet_obs o = true) ([OPreventDefault i] ++ tf0))
    by (apply Forall_app; split; assumption).
  destruct ev as [e | e | e | e | e | e | e | e];
    cbn [raw_handler]; unfold raw_effect; cbn [is_click_start andb handler_effect].
  - (* mousemove *)
    unfold lift, handleMouseMove. cbn [fst snd].
    split; [rewrite lookup_modify, Nat.eqb_refl, Hc; reflexivity | ].
    split; [intros j Hj; rewrite lookup_modify, (Hne j Hj); apply Hid | ].
    split; [exists []; split; [exact Hnil | constructor] | reflexivity].
  - (* mousedown *)
    unfold handleMouseDown. rewrite andThen_lift.
    destruct (snd (first_click w)) as [ | h]; rewrite Hout; cbn [fst snd].
    + split; [rewrite lookup_modify, Nat.eqb_refl, Hfc, Hc; reflexivity | ].
      split; [intros j Hj; rewrite lookup_modify, (Hne j Hj), Hfc; apply Hid | ].
      split; [exists tf; split; assumption | reflexivity].
    + split; [rewrite Hfc; exact Hc | ].
      split; [intros j Hj; rewrite Hfc; reflexivity | ].
      split; [exists tf; split; assumption | reflexivity].
  - (* mouseup *)
    unfold lift, handleMouseUp. cbn [fst snd].
    split; [rewrite lookup_modify, Nat.eqb_refl, Hc; reflexivity | ].
    split; [intros j Hj; rewrite lookup_modify, (Hne j Hj); apply Hid | ].
    split; [exists []; split; [exact Hnil | constructor] | reflexivity].
  - (* mouseover *)
    unfold lift, handleMouseOver. cbn [fst snd].
    split; [rewrite lookup_modify, Nat.eqb_refl, Hc; reflexivity | ].
    split; [intros j Hj; rewrite lookup_modify, (Hne j Hj); apply Hid | ].
    split; [exists []; split; [exact Hnil | constructor] | reflexivity].
  - (* mouseout *)
    unfold lift, handleMouseOut. cbn [fst snd].
    split; [rewrite lookup_modify, Nat.eqb_refl, Hc; reflexivity | ].
    split; [intros j Hj; rewrite lookup_modify, (Hne j Hj); apply Hid | ].
    split; [exists []; split; [exact Hnil | constructor] | reflexivity].
  - (* touchstart *)
    rewrite handleTouchStart_eq.
    destruct (isTouching c) eqn:Et.
    + cbn [fst snd add_log components log].
      split; [rewrite Hc; destruct (click_throws w); reflexivity | ].
      split; [reflexivity | ].
      split; [exists [OPreventDefault i]; split; [reflexivity | exact Hpd] | ].
      destruct (click_throws w); reflexivity.
    + rewrite andThen_lift.
      destruct (snd (first_click (add_log (OPreventDefault i) w))) as [ | h];
        rewrite Hout0; cbn [fst snd].
      * destruct (touches e) as [ | t ts]; cbn beta iota.
        -- split; [rewrite Hfc0; exact Hc | ].
           split; [intros j Hj; rewrite Hfc0; reflexivity | ].
           split; [eexists; split; [exact Hlf0 | exact Hq0] | reflexivity].
        -- split; [rewrite !lookup_modify, Nat.eqb_refl, Hfc0, Hc; reflexivity | ].
           split; [intros j Hj; rewrite !lookup_modify, (Hne j Hj), Hfc0, !Hid;
                   reflexivity | ].
           split; [ | reflexivity].
           eexists. split; [exact Hlf0 | exact Hq0].
      * split; [rewrite Hfc0; exact Hc | ].
        split; [intros j Hj; rewrite Hfc0; reflexivity | ].
        split; [eexists; split; [exact Hlf0 | exact Hq0] | reflexivity].
  - (* touchmove *)
    unfold lift, handleTouchMove. cbn [fst snd].
    destruct (touches e) as [ | t ts].
    + split; [exact Hc | split; [reflexivity | ]].
      split; [exists [OPreventDefault i]; split; [reflexivity | exact Hpd] | reflexivity].
    + split; [rewrite lookup_modify, Nat.eqb_refl; cbn [add_log components];
              rewrite Hc; reflexivity | ].
      split; [intros j Hj; rewrite lookup_modify, (Hne j Hj); apply Hid | ].
      split; [exists [OPreventDefault i]; split; [reflexivity | exact Hpd] | reflexivity].
  - (* touchend *)
    unfold lift, handleTouchEnd. cbn [fst snd].
    destruct (isTouching c) eqn:Et; cbn [negb].
    + destruct (changedTouches e) as [ | t ts].
      * split; [exact Hc | split; [reflexivity | ]].
        split; [exists [OPreventDefault i]; split; [reflexivity | exact Hpd] | reflexivity].
      * split; [rewrite !lookup_modify, Nat.eqb_refl; cbn [add_log components];
                rewrite Hc; reflexivity | ].
        split; [intros j Hj; rewrite !lookup_modify, (Hne j Hj), !Hid; reflexivity | ].
        split; [exists [OPreventDefault i]; split; [reflexivity | exact Hpd] | reflexivity].
    + split; [exact Hc | split; [reflexivity | ]].
      split; [exists [OPreventDefault i]; split; [reflexivity | exact Hpd] | reflexivity].
Qed.

(** A raw handler assigns to its own component only, as [raw_effect]
    says. *)
Lemma deliver_lookup (i j : nat) (ev : RawEvent) (w : World) :
  components (deliver i ev w) !! j
  = (if Nat.eqb i j then raw_effect w ev else fun c => c) <$> components w !! j.
Proof.
  unfold deliver. destruct (components w !! i) as [c | ] eqn:E.
  - cbn zeta.
    match goal with
    | |- context [add_log ?o w] => set (w0 := add_log o w)
    end.
    destruct (raw_handler_spec i c ev w0 E) as (Hi & Hj & _).
    destruct (Nat.eqb_spec i j) as [Heq | Hne].
    + subst j. rewrite Hi, E. reflexivity.
    + rewrite Hj by congruence. cbn [w0 add_log components].
      destruct (components w !! j); reflexivity.
  - destruct (Nat.eqb_spec i j) as [Heq | Hne].
    + subst j. rewrite E. reflexivity.
    + destruct (components w !! j); reflexivity.
Qed.

(** The log of a raw handler: the entry for the handler itself, which
    stands for what the handler assigns, and entries that stand for no
    assignment. *)
Lemma deliver_log (i : nat) (ev : RawEvent) (w : World) (c : Component) :
  components w !! i = Some c ->
  exists o t,
    log (deliver i ev w) = log w ++ o :: t /\
    Forall (fun o' => is_quiet_obs o' = true) t /\
    is_raw_obs o = true /\
    (o = ORaw i ev \/ exists h, o = ORawThrew i ev h) /\
    replay_obs i o c = raw_effect w ev c /\
    (forall j c', j <> i -> replay_obs j o c' = c').
Proof.
  intros Hc. unfold deliver. rewrite Hc. cbn zeta.
  destruct (raw_handler_spec i c ev w Hc) as (_ & _ & _ & Hout).
  destruct (snd (raw_handler i c ev w)) as [ | h].
  - destruct (raw_handler_spec i c ev (add_log (ORaw i ev) w) Hc)
      as (_ & _ & (t & Ht & Hq) & _).
    exists (ORaw i ev), t.
    split; [rewrite Ht; cbn [add_log log]; rewrite <- app_assoc; reflexivity | ].
    split; [exact Hq | split; [reflexivity | split; [left; reflexivity | ]]].
    split.
    + cbn [replay_obs]. rewrite Nat.eqb_refl. symmetry. exact Hout.
    + intros j c' Hne. cbn [replay_obs].
      destruct (Nat.eqb_spec i j) as [Heq | _]; [congruence | reflexivity].
  - destruct (raw_handler_spec i c ev (add_log (ORawThrew i ev h) w) Hc)
      as (_ & _ & (t & Ht & Hq) & _).
    exists (ORawThrew i ev h), t.
    split; [rewrite Ht; cbn [add_log log]; rewrite <- app_assoc; reflexivity | ].
    split; [exact Hq | split; [reflexivity | split; [right; exists h; reflexivity | ]]].
    split; [symmetry; exact Hout | reflexivity].
Qed.

Lemma deliver_accounts (i : nat) (ev : RawEvent) (w : World) :
  exists t, accounts w (deliver i ev w) t /\ Forall (fun o => is_raw_obs o = true) t.
Proof.
  destruct (components w !! i) as [c | ] eqn:E.
  - destruct (deliver_log i ev w c E) as (o & t & Hl & Hq & Hr & _ & Hi & Hj).
    exists (o :: t). split; [split | ].
    + exact Hl.
    + intros j. rewrite deliver_lookup.
      destruct (components w !! j) as [cj | ] eqn:Ej; [ | reflexivity].
      cbn [fmap option_fmap option_map]. f_equal.
      change (replay j (o :: t) cj) with (replay j t (replay_obs j o cj)).
      rewrite replay_quiet by assumption.
      destruct (Nat.eqb_spec i j) as [Heq | Hne].
      * subst j. assert (cj = c) by congruence. subst cj. symmetry. exact Hi.
      * symmetry. apply Hj. congruence.
    + constructor; [exact Hr | apply quiet_is_raw; assumption].
  - exists []. split; [split | constructor].
    + unfold deliver. rewrite E, app_nil_r. reflexivity.
    + intros j. rewrite deliver_lookup.
      destruct (Nat.eqb_spec i j) as [<- | Hne].
      * rewrite E. reflexivity.
      * destruct (components w !! j); reflexivity.
Qed.

(** Handlers other than those of mousedown and touchstart leave the
    first-click latch and its queue alone. *)
Lemma deliver_keeps_click (i : nat) (ev : RawEvent) (w : World) :
  is_click_start ev = false ->
  firstClickHasHappened (deliver i ev w) = firstClickHasHappened w /\
  pendingFirstClickHandlers (deliver i ev w) = pendingFirstClickHandlers w /\
  click_throws (deliver i ev w) = click_throws w.
Proof.
  intros Hev.
  assert (H : firstClickHasHappened (deliver i ev w) = firstClickHasHappened w /\
              pendingFirstClickHandlers (deliver i ev w) = pendingFirstClickHandlers w).
  { unfold deliver. destruct (components w !! i) as [c | ]; [ | auto].
    destruct ev as [e | e | e | e | e | e | e | e]; try discriminate;
      cbn [raw_handler lift fst snd];
      unfold handleMouseMove, handleMouseUp, handleMouseOver, handleMouseOut,
             handleTouchMove, handleTouchEnd;
      try (destruct (negb (isTouching c)));
      try (destruct (touches e)); try (destruct (changedTouches e));
      unfold modify; cbn [set_components add_log firstClickHasHappened
                          pendingFirstClickHandlers]; auto. }
  destruct H as [H1 H2]. unfold click_throws. rewrite H1, H2. auto.
Qed.

Lemma deliver_all_accounts (evs : list (nat * RawEvent)) (w : World) :
  exists t, accounts w (deliver_all evs w) t /\
            Forall (fun o => is_raw_obs o = true) t.
Proof.
  revert w. induction evs as [ | [i ev] evs IH]; intros w.
  - exists []. split; [apply accounts_refl | constructor].
  - simpl. destruct (deliver_accounts i ev w) as [t1 [H1 R1]].
    destruct (IH (deliver i ev w)) as [t2 [H2 R2]].
    exists (t1 ++ t2). split.
    + exact (accounts_trans _ _ _ _ _ H1 H2).
    + apply Forall_app. split; assumption.
Qed.

(** ** Dispatch *)

Lemma handler_effect_frame (ev : RawEvent) (c : Component) :
  storage (handler_effect ev c) = storage c /\
  canvas (handler_effect ev c) = canvas c /\
  matrixForWorldPosition (handler_effect ev c) = matrixForWorldPosition c /\
  lastPos (handler_effect ev c) = lastPos c /\
  event (handler_effect ev c) = event c.
Proof.
  destruct ev as [e | e | e | e | e | e | e | e]; cbn [handler_effect];
    try (destruct (isTouching c)); cbn [negb];
    try (destruct (touches e)); try (destruct (changedTouches e));
    repeat split; reflexivity.
Qed.

Lemma raw_effect_frame (w : World) (ev : RawEvent) (c : Component) :
  storage (raw_effect w ev c) = storage c /\
  canvas (raw_effect w ev c) = canvas c /\
  matrixForWorldPosition (raw_effect w ev c) = matrixForWorldPosition c /\
  lastPos (raw_effect w ev c) = lastPos c /\
  event (raw_effect w ev c) = event c.
Proof.
  unfold raw_effect. destruct (is_click_start ev && click_throws w).
  - repeat split.
  - apply handler_effect_frame.
Qed.

Lemma replay_cons (i : nat) (o : Obs) (t : list Obs) (c : Component) :
  replay i (o :: t) c = replay i t (replay_obs i o c).
Proof. reflexivity. Qed.

(** Nothing in a log touches the listeners, the canvas or the transform. *)
Lemma replay_frame (i : nat) (t : list Obs) (c : Component) :
  storage (replay i t c) = storage c /\
  canvas (replay i t c) = canvas c /\
  matrixForWorldPosition (replay i t c) = matrixForWorldPosition c.
Proof.
  revert c. induction t as [ | o t IH]; intros c; [auto | ].
  rewrite replay_cons.
  destruct (IH (replay_obs i o c)) as (H1 & H2 & H3). rewrite H1, H2, H3.
  destruct o as [j ev | j ev h0 | j | h | j s | j cls e | j cls cb e]; cbn [replay_obs];
    try (destruct (Nat.eqb j i)); try (repeat split; reflexivity).
  - destruct (handler_effect_frame ev c) as (F1 & F2 & F3 & _). auto.
  - destruct s; repeat split; reflexivity.
Qed.

(** Raw handlers leave the event and the last position alone. *)
Lemma replay_raw_frame (i : nat) (t : list Obs) (c : Component) :
  Forall (fun o => is_raw_obs o = true) t ->
  lastPos (replay i t c) = lastPos c /\ event (replay i t c) = event c.
Proof.
  intros H. revert c. induction H as [ | o t Ho _ IH]; intros c; [auto | ].
  rewrite replay_cons. destruct (IH (replay_obs i o c)) as [H1 H2].
  rewrite H1, H2.
  destruct o as [j ev | j ev h0 | j | h | j s | j cls e | j cls cb e];
    try discriminate; cbn [replay_obs]; try (split; reflexivity).
  destruct (Nat.eqb j i); [ | split; reflexivity].
  destruct (handler_effect_frame ev c) as (_ & _ & _ & F4 & F5). auto.
Qed.

Lemma raw_only_views (i : nat) (t : list Obs) :
  Forall (fun o => is_raw_obs o = true) t ->
  calls i t = [] /\ dispatches i t = [] /\ fired_slots i t = [] /\
  flush_view i t = [].
Proof.
  induction 1 as [ | o t Ho _ (H1 & H2 & H3 & H4)]; [auto | ].
  destruct o; try discriminate; simpl; auto.
Qed.

Lemma calls_app (i : nat) (t1 t2 : list Obs) :
  calls i (t1 ++ t2) = calls i t1 ++ calls i t2.
Proof. apply flat_map_app. Qed.

Lemma dispatches_app (i : nat) (t1 t2 : list Obs) :
  dispatches i (t1 ++ t2) = dispatches i t1 ++ dispatches i t2.
Proof. apply flat_map_app. Qed.

Lemma fired_slots_app (i : nat) (t1 t2 : list Obs) :
  fired_slots i (t1 ++ t2) = fired_slots i t1 ++ fired_slots i t2.
Proof. apply flat_map_app. Qed.


Lemma first_click_calls_app (t1 t2 : list Obs) :
  first_click_calls (t1 ++ t2) = first_click_calls t1 ++ first_click_calls t2.
Proof. apply flat_map_app. Qed.

(** The log of a [forEach] holds no dispatch and clears no slot; what the
    tick sees of it are the calls. *)
Lemma call_obs_views (i : nat) (cls : EventClass) (e : HexMouseEvent)
    (t : list Obs) :
  Forall (is_call_obs i cls e) t ->
  (forall j, dispatches j t = []) /\ (forall j, fired_slots j t = []) /\
  flush_view i t = map (fun cb => OCall i cls cb e) (map snd (calls i t)) /\
  (forall c, lastPos (replay i t c) = lastPos c /\ event (replay i t c) = event c).
Proof.
  induction 1 as [ | o t Ho _ (H1 & H2 & H3 & H4)].
  - split; [reflexivity | split; [reflexivity | split; [reflexivity | ]]].
    intros c. split; reflexivity.
  - destruct Ho as [Hraw | [cb ->]].
    + assert (Hframe : forall c, lastPos (replay_obs i o c) = lastPos c /\
                                 event (replay_obs i o c) = event c).
      { intros c. apply (replay_raw_frame i [o] c). constructor; [exact Hraw | constructor]. }
      destruct o as [j ev | j ev h0 | j | h | j s | j cl e0 | j cl cb e0]; try discriminate;
        (split; [exact H1 | split; [exact H2 | split; [exact H3 | ]]]);
        intros c; rewrite replay_cons;
        match goal with
        | |- context [replay i t ?c'] => destruct (H4 c') as [A B]
        end; rewrite A, B; apply Hframe.
    + split; [exact H1 | split; [exact H2 | split]].
      * simpl. rewrite Nat.eqb_refl. simpl. rewrite H3. reflexivity.
      * intros c. rewrite replay_cons. apply H4.
Qed.

Lemma invoke_accounts (i : nat) (cls : EventClass) (cb : Callback)
    (w w' : World) (out : Outcome) (c : Component) :
  components w !! i = Some c ->
  invoke i cls cb w = (w', out) ->
  exists t,
    accounts w w' (OCall i cls (cb_id cb) (event c) :: t) /\
    Forall (fun o => is_raw_obs o = true) t /\
    out = (if throws (cb_run cb (event c)) then Threw (cb_id cb) else Normal).
Proof.
  intros Hc H. unfold invoke in H. rewrite Hc in H. injection H as <- <-.
  destruct (deliver_all_accounts (emits (cb_run cb (event c)))
              (add_log (OCall i cls (cb_id cb) (event c)) w)) as [t [Ha Hr]].
  exists t. split; [ | split; [exact Hr | reflexivity]].
  apply (accounts_trans w (add_log (OCall i cls (cb_id cb) (event c)) w) _
           [OCall i cls (cb_id cb) (event c)] t); [ | exact Ha].
  apply accounts_add_log. reflexivity.
Qed.

Lemma forEach_accounts (i : nat) (cls : EventClass) (cbs : list Callback) :
  forall (w w' : World) (out : Outcome) (c : Component),
    components w !! i = Some c ->
    forEach i cls cbs w = (w', out) ->
    exists t,
      accounts w w' t /\
      Forall (is_call_obs i cls (event c)) t /\
      calls i t = map (fun cb => (cls, cb_id cb)) (called (event c) cbs) /\
      out = outcome_of (event c) cbs.
Proof.
  induction cbs as [ | cb rest IH]; intros w w' out c Hc H.
  - injection H as <- <-. exists []. split; [apply accounts_refl | ].
    split; [constructor | split; reflexivity].
  - cbn [forEach] in H. unfold andThen in H.
    destruct (invoke i cls cb w) as [w1 o1] eqn:E1.
    destruct (invoke_accounts i cls cb w w1 o1 c Hc E1) as [t1 [Ha1 [Hr1 Ho1]]].
    destruct (raw_only_views i t1 Hr1) as (Hcalls1 & _).
    assert (Hcall1 : Forall (is_call_obs i cls (event c))
                            (OCall i cls (cb_id cb) (event c) :: t1)).
    { constructor; [right; eauto | ].
      eapply List.Forall_impl; [ | exact Hr1]. intros o Ho. left. exact Ho. }
    cbn [called outcome_of].
    destruct (throws (cb_run cb (event c))) eqn:Et; subst o1.
    + injection H as <- <-.
      exists (OCall i cls (cb_id cb) (event c) :: t1).
      split; [exact Ha1 | split; [exact Hcall1 | split; [ | reflexivity]]].
      simpl. rewrite Nat.eqb_refl. simpl. rewrite Hcalls1. reflexivity.
    + pose proof (accounts_lookup _ _ _ i c Ha1 Hc) as Hc1.
      destruct (call_obs_views i cls (event c) _ Hcall1) as (_ & _ & _ & Hev).
      destruct (Hev c) as [_ Hev1].
      destruct (IH w1 w' out _ Hc1 H) as [t2 [Ha2 [Hr2 [Hcalls2 Ho2]]]].
      rewrite Hev1 in Hr2, Hcalls2, Ho2.
      exists ((OCall i cls (cb_id cb) (event c) :: t1) ++ t2).
      split; [exact (accounts_trans _ _ _ _ _ Ha1 Ha2) | ].
      split; [apply Forall_app; split; assumption | ].
      split; [ | exact Ho2].
      rewrite calls_app, Hcalls2. simpl. rewrite Nat.eqb_refl. simpl.
      rewrite Hcalls1. reflexivity.
Qed.

Lemma updateEvent_as_replay (a : UpdateArgs) (c : Component) :
  updateEvent a c
  = set_event (event (updateEvent a c))
              (set_lastPos (pos (event (updateEvent a c))) c).
Proof. reflexivity. Qed.

Lemma updateEvent_clear (s : Slot) (a : UpdateArgs) (c : Component) :
  event (updateEvent a (clear_slot s c)) = event (updateEvent a c).
Proof. destruct s; reflexivity. Qed.

(** The shape shared by the three pending closures. *)
Lemma closure_accounts (i : nat) (s : Slot) (a : UpdateArgs) (cls : EventClass)
    (w w' : World) (out : Outcome) (c : Component) :
  components w !! i = Some c ->
  (lift (fun w0 => add_log (OCleared i s) (modify i (clear_slot s) w0)) ;>
   lift (modify i (updateEvent a)) ;>
   triggerCallbacks i cls) w = (w', out) ->
  exists t, accounts w w' t /\ closure_log_of i s cls a c t out.
Proof.
  intros Hc H. unfold andThen, lift in H.
  set (w1 := add_log (OCleared i s) (modify i (clear_slot s) w)) in *.
  set (w2 := modify i (updateEvent a) w1) in *.
  assert (Ha1 : accounts w w1 [OCleared i s]).
  { apply (accounts_modify_log i (clear_slot s) (OCleared i s) w c Hc).
    - simpl. rewrite Nat.eqb_refl. reflexivity.
    - intros j c' Hne. simpl.
      destruct (Nat.eqb_spec i j); [congruence | reflexivity]. }
  pose proof (accounts_lookup _ _ _ i c Ha1 Hc) as Hc1.
  change (replay i [OCleared i s] c) with (replay_obs i (OCleared i s) c) in Hc1.
  cbn [replay_obs] in Hc1. rewrite Nat.eqb_refl in Hc1.
  assert (Hc2 : components w2 !! i = Some (updateEvent a (clear_slot s c))).
  { unfold w2. rewrite lookup_modify, Nat.eqb_refl, Hc1. reflexivity. }
  unfold triggerCallbacks in H. rewrite Hc2 in H.
  set (e := event (updateEvent a (clear_slot s c))) in *.
  assert (Ha2 : accounts w1 (add_log (ODispatch i cls e) w2) [ODispatch i cls e]).
  { apply (accounts_modify_log i (updateEvent a) (ODispatch i cls e) w1 _ Hc1).
    - simpl. rewrite Nat.eqb_refl. unfold e.
      symmetry. apply updateEvent_as_replay.
    - intros j c' Hne. simpl.
      destruct (Nat.eqb_spec i j); [congruence | reflexivity]. }
  assert (Hc3 : components (add_log (ODispatch i cls e) w2) !! i
                = Some (updateEvent a (clear_slot s c))) by exact Hc2.
  destruct (forEach_accounts i cls _ _ _ _ _ Hc3 H) as [t3 [Ha3 [Hr3 [Hcalls3 Ho3]]]].
  fold e in Hr3, Hcalls3, Ho3.
  assert (Hst : storage (updateEvent a (clear_slot s c)) = storage c)
    by (destruct s; reflexivity).
  rewrite Hst in *.
  assert (He : e = event (updateEvent a c)) by apply updateEvent_clear.
  exists ([OCleared i s] ++ [ODispatch i cls e] ++ t3). split.
  - exact (accounts_trans _ _ _ _ _ Ha1 (accounts_trans _ _ _ _ _ Ha2 Ha3)).
  - exists t3. rewrite <- He. repeat split; assumption.
Qed.

Lemma flushMove_accounts (i : nat) (w w' : World) (out : Outcome) (c : Component) :
  components w !! i = Some c ->
  flushMove i w = (w', out) ->
  exists t, accounts w w' t /\
    match pendingMove c with
    | Some p => closure_log_of i SMove (class_of_target (snd p)) (fst p) c t out
    | None => t = [] /\ out = Normal
    end.
Proof.
  intros Hc H. unfold flushMove in H. rewrite Hc in H.
  destruct (pendingMove c) as [p | ].
  - exact (closure_accounts i SMove (fst p) _ w w' out c Hc H).
  - injection H as <- <-. exists []. split; [apply accounts_refl | auto].
Qed.

Lemma flushDown_accounts (i : nat) (w w' : World) (out : Outcome) (c : Component) :
  components w !! i = Some c ->
  flushDown i w = (w', out) ->
  exists t, accounts w w' t /\
    match pendingDown c with
    | Some a => closure_log_of i SDown Down a c t out
    | None => t = [] /\ out = Normal
    end.
Proof.
  intros Hc H. unfold flushDown in H. rewrite Hc in H.
  destruct (pendingDown c) as [a | ].
  - exact (closure_accounts i SDown a Down w w' out c Hc H).
  - injection H as <- <-. exists []. split; [apply accounts_refl | auto].
Qed.

Lemma flushUp_accounts (i : nat) (w w' : World) (out : Outcome) (c : Component) :
  components w !! i = Some c ->
  flushUp i w = (w', out) ->
  exists t, accounts w w' t /\
    match pendingUp c with
    | Some a => closure_log_of i SUp Up a c t out
    | None => t = [] /\ out = Normal
    end.
Proof.
  intros Hc H. unfold flushUp in H. rewrite Hc in H.
  destruct (pendingUp c) as [a | ].
  - exact (closure_accounts i SUp a Up w w' out c Hc H).
  - injection H as <- <-. exists []. split; [apply accounts_refl | auto].
Qed.

(** What the tick sees of one pending closure's log. *)
Lemma closure_log_views (i : nat) (s : Slot) (cls : EventClass) (a : UpdateArgs)
    (c : Component) (t : list Obs) (out : Outcome) :
  closure_log_of i s cls a c t out ->
  slot_of_class cls = s ->
  fired_slots i t = [s] /\
  dispatches i t = [(cls, event (updateEvent a c))] /\
  is_block i s (flush_view i t) /\
  flush_view i t <> [] /\
  lastPos (replay i t c) = pos (event (updateEvent a c)) /\
  event (replay i t c) = event (updateEvent a c).
Proof.
  intros [t' [-> [Hr [Hcalls Ho]]]] Hs.
  destruct (call_obs_views i cls _ t' Hr) as (Hd & Hf & Hv & Hfr).
  assert (Hview : flush_view i (OCleared i s :: ODispatch i cls (event (updateEvent a c)) :: t')
                  = OCleared i s :: ODispatch i cls (event (updateEvent a c))
                      :: map (fun cb => OCall i cls cb (event (updateEvent a c)))
                             (map snd (calls i t'))).
  { simpl. rewrite Nat.eqb_refl. simpl. rewrite Hv. reflexivity. }
  split; [ | split; [ | split; [ | split; [ | ]]]].
  - simpl. rewrite Nat.eqb_refl. simpl. rewrite Hf. reflexivity.
  - simpl. rewrite Nat.eqb_refl. simpl. rewrite Hd. reflexivity.
  - rewrite Hview. right.
    exists cls, (event (updateEvent a c)), (map snd (calls i t')).
    split; [exact Hs | reflexivity].
  - rewrite Hview. discriminate.
  - rewrite !replay_cons. cbn [replay_obs]. rewrite Nat.eqb_refl.
    match goal with
    | |- context [replay i t' ?c'] => destruct (Hfr c') as [A B]
    end.
    rewrite A, B. split; reflexivity.
Qed.

Lemma handler_effect_keeps_pending (ev : RawEvent) (s : Slot) (c : Component) :
  slot_pending s c = true -> slot_pending s (handler_effect ev c) = true.
Proof.
  intros H.
  destruct ev as [e | e | e | e | e | e | e | e]; cbn [handler_effect];
    try (destruct (isTouching c)); cbn [negb];
    try (destruct (touches e)); try (destruct (changedTouches e));
    destruct s; simpl in *; auto.
Qed.

(** Only a clear empties a slot. *)
Lemma replay_keeps_pending (i : nat) (s : Slot) (t : list Obs) (c : Component) :
  slot_pending s c = true -> ~ In s (fired_slots i t) ->
  slot_pending s (replay i t c) = true.
Proof.
  revert c. induction t as [ | o t IH]; intros c Hp Hn; [exact Hp | ].
  rewrite replay_cons. apply IH.
  - destruct o as [j ev | j ev h0 | j | h | j s' | j cls e | j cls cb e]; cbn [replay_obs];
      try exact Hp; destruct (Nat.eqb j i) eqn:E; try exact Hp.
    + apply handler_effect_keeps_pending. exact Hp.
    + assert (s' <> s).
      { intros ->. apply Hn. simpl. rewrite E. simpl. auto. }
      destruct s, s'; simpl in *; congruence.
  - intros Hin. apply Hn.
    change (o :: t) with ([o] ++ t). rewrite fired_slots_app.
    apply in_or_app. right. exact Hin.
Qed.

(** One tick, line by line. *)
Lemma update_stages (i : nat) (w w' : World) (out : Outcome) (c : Component) :
  components w !! i = Some c ->
  update i w = (w', out) ->
  exists t1 t2 t3 o1 o2,
    accounts w w' (t1 ++ t2 ++ t3) /\
    stage_log i SMove c t1 o1 /\
    match o1 with
    | Normal => stage_log i SDown (replay i t1 c) t2 o2
    | Threw _ => t2 = [] /\ o2 = o1
    end /\
    match o2 with
    | Normal => stage_log i SUp (replay i (t1 ++ t2) c) t3 out
    | Threw _ => t3 = [] /\ out = o2
    end.
Proof.
  intros Hc H. unfold update, andThen in H.
  destruct (flushMove i w) as [w1 o1] eqn:E1.
  destruct (flushMove_accounts i w w1 o1 c Hc E1) as [t1 [Ha1 Hs1]].
  pose proof (accounts_lookup _ _ _ i c Ha1 Hc) as Hc1.
  destruct o1 as [ | cb1].
  - destruct (flushDown i w1) as [w2 o2] eqn:E2.
    destruct (flushDown_accounts i w1 w2 o2 _ Hc1 E2) as [t2 [Ha2 Hs2]].
    pose proof (accounts_trans _ _ _ _ _ Ha1 Ha2) as Ha12.
    pose proof (accounts_lookup _ _ _ i c Ha12 Hc) as Hc2.
    destruct o2 as [ | cb2].
    + destruct (flushUp_accounts i w2 w' out _ Hc2 H) as [t3 [Ha3 Hs3]].
      exists t1, t2, t3, Normal, Normal.
      split; [ | split; [exact Hs1 | split; [exact Hs2 | exact Hs3]]].
      rewrite app_assoc. exact (accounts_trans _ _ _ _ _ Ha12 Ha3).
    + injection H as <- <-.
      exists t1, t2, [], Normal, (Threw cb2).
      split; [ | split; [exact Hs1 | split; [exact Hs2 | auto]]].
      rewrite app_nil_r. exact Ha12.
  - injection H as <- <-.
    exists t1, [], [], (Threw cb1), (Threw cb1).
    split; [ | split; [exact Hs1 | auto]].
    rewrite !app_nil_r. exact Ha1.
Qed.

Lemma stage_log_views (i : nat) (s : Slot) (c : Component) (t : list Obs)
    (o : Outcome) :
  stage_log i s c t o ->
  is_block i s (flush_view i t) /\
  fired_slots i t = (if slot_pending s c then [s] else []) /\
  (slot_pending s c = false -> t = [] /\ o = Normal).
Proof.
  intros H.
  destruct s; unfold stage_log in H; cbn [slot_pending].
  - destruct (pendingMove c) as [[a k] | ].
    + destruct (closure_log_views i SMove _ a c t o H) as (Hf & _ & Hb & _).
      { destruct k; reflexivity. }
      split; [exact Hb | split; [exact Hf | discriminate]].
    + destruct H as [-> ->]. split; [left; reflexivity | auto].
  - destruct (pendingDown c) as [a | ].
    + destruct (closure_log_views i SDown _ a c t o H eq_refl) as (Hf & _ & Hb & _).
      split; [exact Hb | split; [exact Hf | discriminate]].
    + destruct H as [-> ->]. split; [left; reflexivity | auto].
  - destruct (pendingUp c) as [a | ].
    + destruct (closure_log_views i SUp _ a c t o H eq_refl) as (Hf & _ & Hb & _).
      split; [exact Hb | split; [exact Hf | discriminate]].
    + destruct H as [-> ->]. split; [left; reflexivity | auto].
Qed.


Lemma stage_log_content (i : nat) (s : Slot) (c : Component) (t : list Obs)
    (o : Outcome) :
  stage_log i s c t o ->
  match slot_content s c with
  | Some (cls, a) => slot_of_class cls = s /\ closure_log_of i s cls a c t o
  | None => t = [] /\ o = Normal
  end.
Proof.
  destruct s; unfold stage_log, slot_content.
  - destruct (pendingMove c) as [[a k] | ]; simpl; [ | auto].
    intros H. split; [destruct k; reflexivity | exact H].
  - destruct (pendingDown c) as [a | ]; simpl; auto.
  - destruct (pendingUp c) as [a | ]; simpl; auto.
Qed.

(** After a line of the tick either nothing was dispatched, or the one
    dispatch left its event and position in the component. *)
Lemma stage_log_dispatch (i : nat) (s : Slot) (c : Component) (t : list Obs)
    (o : Outcome) :
  stage_log i s c t o ->
  (t = [] /\ o = Normal /\ slot_content s c = None) \/
  (exists cls a,
     slot_content s c = Some (cls, a) /\ slot_of_class cls = s /\
     dispatches i t = [(cls, event (updateEvent a c))] /\
     event (replay i t c) = event (updateEvent a c) /\
     lastPos (replay i t c) = pos (event (updateEvent a c)) /\
     o = outcome_of (event (updateEvent a c)) (callbacks_of cls (storage c))).
Proof.
  intros H. apply stage_log_content in H.
  destruct (slot_content s c) as [[cls a] | ].
  - right. destruct H as [Hs H]. exists cls, a.
    destruct (closure_log_views i s cls a c t o H Hs) as (_ & Hd & _ & _ & Hl & He).
    destruct H as [t' [_ [_ [_ Ho]]]].
    repeat split; assumption.
  - left. destruct H as [-> ->]. auto.
Qed.

(** ** Coalescing *)

Lemma slot_content_Down (c : Component) (cls : EventClass) (a : UpdateArgs) :
  slot_content SDown c = Some (cls, a) -> cls = Down /\ pendingDown c = Some a.
Proof.
  unfold slot_content. destruct (pendingDown c); simpl; intros H;
    [injection H as <- <-; auto | discriminate].
Qed.

Lemma slot_content_Up (c : Component) (cls : EventClass) (a : UpdateArgs) :
  slot_content SUp c = Some (cls, a) -> cls = Up /\ pendingUp c = Some a.
Proof.
  unfold slot_content. destruct (pendingUp c); simpl; intros H;
    [injection H as <- <-; auto | discriminate].
Qed.

Lemma slot_content_pending (s : Slot) (c : Component) :
  slot_content s c = None -> slot_pending s c = false.
Proof.
  destruct s; unfold slot_content, slot_pending;
    [destruct (pendingMove c) | destruct (pendingDown c) | destruct (pendingUp c)];
    simpl; congruence.
Qed.

(** The position of the event after [updateEvent] is the translated
    pointer position, its delta is that position minus the last position,
    and the last position becomes that position. *)
Lemma updateEvent_pos_delta (a : UpdateArgs) (c : Component) :
  pos (event (updateEvent a c)) = translatePos c (clientX a) (clientY a) /\
  delta (event (updateEvent a c))
  = subtract (inl (lastPos c)) (translatePos c (clientX a) (clientY a)) /\
  lastPos (updateEvent a c) = translatePos c (clientX a) (clientY a).
Proof. repeat split; reflexivity. Qed.

Lemma translatePos_frame (c c' : Component) (cx cy : num) :
  canvas c' = canvas c -> matrixForWorldPosition c' = matrixForWorldPosition c ->
  translatePos c' cx cy = translatePos c cx cy.
Proof. intros H1 H2. unfold translatePos. rewrite H1, H2. reflexivity. Qed.

(** C2 (amended): take a component in any state and let move(10,10),
    move(20,20) and down(button 0) reach its handlers, in this order,
    before the next tick, at a time when the first-click block does not
    throw (the latch is set, or no queued first-click handler throws).
    Then the move slot holds the closure of move(20,20) alone and the down
    slot that of the down event, and the next tick dispatches the move
    class exactly once, with the position translated from (20,20) and the
    delta equal to that position minus the last position from before the
    tick.  When the move listeners return normally it then dispatches the
    down class exactly once, whose delta is taken from the move's position
    (the last position was updated by the move dispatch), and at most an
    up dispatch follows; when a move listener throws, the tick ends with
    that exception and dispatches nothing more.  At the end the last
    position is the position of the last event dispatched. *)
Theorem coalesced_move_then_down :
  forall (i : nat) (w w' : World) (out : Outcome) (c : Component)
         (b1 k1 b2 k2 b3 : Z) (dx dy : num),
    components w !! i = Some c ->
    click_throws w = false ->
    update i (deliver i (mousedown (mkMouseEvent dx dy b3 0))
               (deliver i (mousemove (mkMouseEvent (Fin 20) (Fin 20) b2 k2))
                  (deliver i (mousemove (mkMouseEvent (Fin 10) (Fin 10) b1 k1)) w)))
    = (w', out) ->
    (pendingMove <$>
       components
         (deliver i (mousedown (mkMouseEvent dx dy b3 0))
            (deliver i (mousemove (mkMouseEvent (Fin 20) (Fin 20) b2 k2))
               (deliver i (mousemove (mkMouseEvent (Fin 10) (Fin 10) b1 k1)) w))) !! i
     = Some (Some (mkUpdateArgs (Fin 20) (Fin 20) (Some b2) None, ToMove))) /\
    (pendingDown <$>
       components
         (deliver i (mousedown (mkMouseEvent dx dy b3 0))
            (deliver i (mousemove (mkMouseEvent (Fin 20) (Fin 20) b2 k2))
               (deliver i (mousemove (mkMouseEvent (Fin 10) (Fin 10) b1 k1)) w))) !! i
     = Some (Some (mkUpdateArgs dx dy None (Some 0%Z)))) /\
    exists t e1 rest c',
      log w' = log (deliver i (mousedown (mkMouseEvent dx dy b3 0))
                     (deliver i (mousemove (mkMouseEvent (Fin 20) (Fin 20) b2 k2))
                        (deliver i (mousemove (mkMouseEvent (Fin 10) (Fin 10) b1 k1)) w)))
               ++ t /\
      dispatches i t = (Move, e1) :: rest /\
      pos e1 = translatePos c (Fin 20) (Fin 20) /\
      delta e1 = subtract (inl (lastPos c)) (translatePos c (Fin 20) (Fin 20)) /\
      Forall (fun x => fst x <> Move) rest /\
      (outcome_of e1 (moveCallbacks (storage c)) = Normal ->
       exists e2 rest',
         rest = (Down, e2) :: rest' /\
         delta e2 = subtract (inl (pos e1)) (pos e2) /\
         (rest' = [] \/ exists e3, rest' = [(Up, e3)])) /\
      (forall cb, outcome_of e1 (moveCallbacks (storage c)) = Threw cb ->
                  rest = [] /\ out = Threw cb) /\
      components w' !! i = Some c' /\
      lastPos c' = pos (event c') /\
      exists cls, last (dispatches i t) = Some (cls, event c').
Proof.
  intros i w w' out c b1 k1 b2 k2 b3 dx dy Hc Hct H.
  set (m1 := mkMouseEvent (Fin 10) (Fin 10) b1 k1) in *.
  set (m2 := mkMouseEvent (Fin 20) (Fin 20) b2 k2) in *.
  set (d := mkMouseEvent dx dy b3 0) in *.
  set (w3 := deliver i (mousedown d)
               (deliver i (mousemove m2) (deliver i (mousemove m1) w))) in *.
  set (c3 := handler_effect (mousedown d)
               (handler_effect (mousemove m2) (handler_effect (mousemove m1) c))).
  assert (Hct2 : click_throws (deliver i (mousemove m2) (deliver i (mousemove m1) w))
                 = false).
  { destruct (deliver_keeps_click i (mousemove m2) (deliver i (mousemove m1) w) eq_refl)
      as (_ & _ & ->).
    destruct (deliver_keeps_click i (mousemove m1) w eq_refl) as (_ & _ & ->).
    exact Hct. }
  assert (Hc3 : components w3 !! i = Some c3).
  { unfold w3. rewrite !deliver_lookup, Nat.eqb_refl, Hc.
    cbn [fmap option_fmap option_map]. unfold raw_effect at 1. rewrite Hct2.
    reflexivity. }
  split; [rewrite Hc3; reflexivity | split; [rewrite Hc3; reflexivity | ]].
  destruct (update_stages i w3 w' out c3 Hc3 H)
    as (t1 & t2 & t3 & o1 & o2 & Ha & Hs1 & Hs2 & Hs3).
  destruct (stage_log_dispatch i SMove c3 t1 o1 Hs1)
    as [(_ & _ & Hnone) | (cls1 & a1 & Hsc1 & _ & Hd1 & He1 & Hl1 & Ho1)];
    [discriminate | ].
  injection Hsc1 as <- <-.
  set (e1 := event (updateEvent (args_of_buttons m2) c3)) in *.
  assert (Hpos1 : pos e1 = translatePos c (Fin 20) (Fin 20)) by reflexivity.
  assert (Hdelta1 : delta e1
                    = subtract (inl (lastPos c)) (translatePos c (Fin 20) (Fin 20)))
    by reflexivity.
  assert (Hpd : slot_pending SDown (replay i t1 c3) = true).
  { apply replay_keeps_pending; [reflexivity | ].
    destruct (stage_log_views i SMove c3 t1 o1 Hs1) as (_ & Hf & _).
    rewrite Hf. simpl. intuition discriminate. }
  (* the down line *)
  assert (H2 : (o1 <> Normal /\ t2 = [] /\ o2 = o1) \/
               (o1 = Normal /\ exists a2,
                  dispatches i t2 = [(Down, event (updateEvent a2 (replay i t1 c3)))] /\
                  event (replay i (t1 ++ t2) c3) = event (updateEvent a2 (replay i t1 c3)) /\
                  lastPos (replay i (t1 ++ t2) c3)
                  = pos (event (updateEvent a2 (replay i t1 c3))))).
  { destruct o1 as [ | cb1].
    - right. split; [reflexivity | ].
      destruct (stage_log_dispatch i SDown _ t2 o2 Hs2)
        as [(_ & _ & Hnone) | (cls2 & a2 & Hsc2 & _ & Hd2 & He2 & Hl2 & _)].
      + apply slot_content_pending in Hnone. congruence.
      + destruct (slot_content_Down _ _ _ Hsc2) as [-> _].
        exists a2. rewrite replay_app. repeat split; assumption.
    - left. destruct Hs2 as [-> ->]. split; [discriminate | auto]. }
  (* the up line *)
  assert (H3 : (t3 = [] /\ (o2 <> Normal -> out = o2)) \/
               (exists a3,
                  dispatches i t3
                  = [(Up, event (updateEvent a3 (replay i (t1 ++ t2) c3)))] /\
                  event (replay i (t1 ++ t2 ++ t3) c3)
                  = event (updateEvent a3 (replay i (t1 ++ t2) c3)) /\
                  lastPos (replay i (t1 ++ t2 ++ t3) c3)
                  = pos (event (updateEvent a3 (replay i (t1 ++ t2) c3))) /\
                  o2 = Normal)).
  { destruct o2 as [ | cb2].
    - destruct (stage_log_dispatch i SUp _ t3 out Hs3)
        as [(-> & _ & _) | (cls3 & a3 & Hsc3 & _ & Hd3 & He3 & Hl3 & _)].
      + left. split; [reflexivity | congruence].
      + destruct (slot_content_Up _ _ _ Hsc3) as [-> _].
        right. exists a3.
        replace (t1 ++ t2 ++ t3) with ((t1 ++ t2) ++ t3)
          by (rewrite <- app_assoc; reflexivity).
        rewrite (replay_app i (t1 ++ t2) t3). repeat split; assumption.
    - left. destruct Hs3 as [-> ->]. split; [reflexivity | reflexivity]. }
  exists (t1 ++ t2 ++ t3), e1, (dispatches i t2 ++ dispatches i t3),
         (replay i (t1 ++ t2 ++ t3) c3).
  split; [apply Ha | ].
  split; [rewrite !dispatches_app, Hd1; reflexivity | ].
  split; [exact Hpos1 | split; [exact Hdelta1 | ]].
  split; [ | split; [ | split; [ | split; [exact (accounts_lookup _ _ _ i c3 Ha Hc3) | ]]]].
  - apply Forall_app. split.
    + destruct H2 as [(_ & -> & _) | (_ & a2 & -> & _)];
        repeat constructor; discriminate.
    + destruct H3 as [[-> _] | (a3 & -> & _)]; repeat constructor; discriminate.
  - intros Hnorm.
    destruct H2 as [(Hne & _ & _) | (_ & a2 & Hd2 & _ & _)].
    + exfalso. apply Hne. rewrite Ho1. exact Hnorm.
    + exists (event (updateEvent a2 (replay i t1 c3))), (dispatches i t3).
      split; [rewrite Hd2; reflexivity | split].
      * destruct (updateEvent_pos_delta a2 (replay i t1 c3)) as (Hp & Hdl & _).
        rewrite Hdl, Hp, Hl1. reflexivity.
      * destruct H3 as [[-> _] | (a3 & -> & _)]; [left; reflexivity | right; eauto].
  - intros cb Hthrow.
    assert (Eo1 : o1 = Threw cb) by (rewrite Ho1; exact Hthrow).
    destruct H2 as [(_ & -> & Eo2) | (Hn & _)]; [ | congruence].
    destruct H3 as [[-> Hout] | (a3 & _ & _ & _ & Hn)]; [ | congruence].
    split; [reflexivity | ]. rewrite Hout; congruence.
  - rewrite !dispatches_app, Hd1.
    destruct H3 as [[-> _] | (a3 & Hd3 & He3 & Hl3 & _)].
    + rewrite !app_nil_r.
      destruct H2 as [(_ & -> & _) | (_ & a2 & Hd2 & He2 & Hl2)].
      * rewrite app_nil_r. rewrite He1, Hl1. split; [reflexivity | ].
        exists Move. reflexivity.
      * rewrite He2, Hl2, Hd2. split; [reflexivity | ].
        exists Down. reflexivity.
    + rewrite He3, Hl3, Hd3. split; [reflexivity | ].
      exists Up. rewrite !app_assoc. apply last_snoc.
Qed.

Lemma raw_effect_no_click (w : World) (ev : RawEvent) (c : Component) :
  is_click_start ev = false -> raw_effect w ev c = handler_effect ev c.
Proof. intros H. unfold raw_effect. rewrite H. reflexivity. Qed.

Lemma raw_effect_returns (w : World) (ev : RawEvent) (c : Component) :
  click_throws w = false -> raw_effect w ev c = handler_effect ev c.
Proof. intros H. unfold raw_effect. rewrite H, andb_false_r. reflexivity. Qed.

Lemma move_class_no_click (ev : RawEvent) :
  is_move_class ev = true -> is_click_start ev = false.
Proof. destruct ev; simpl; congruence. Qed.

Lemma deliver_all_lookup (i : nat) (evs : list RawEvent) (w : World) (c : Component) :
  components w !! i = Some c ->
  Forall (fun ev => is_move_class ev = true) evs ->
  components (deliver_all (map (pair i) evs) w) !! i
  = Some (fold_left (fun acc ev => handler_effect ev acc) evs c).
Proof.
  intros Hc Hall. revert w c Hc.
  induction Hall as [ | ev evs Hev _ IH]; intros w c Hc; [exact Hc | ].
  simpl. apply IH. rewrite deliver_lookup, Nat.eqb_refl, Hc.
  cbn [fmap option_fmap option_map].
  rewrite raw_effect_no_click by (apply move_class_no_click; exact Hev).
  reflexivity.
Qed.

Lemma handler_effects_frame (evs : list RawEvent) (c : Component) :
  canvas (fold_left (fun acc ev => handler_effect ev acc) evs c) = canvas c /\
  matrixForWorldPosition (fold_left (fun acc ev => handler_effect ev acc) evs c)
  = matrixForWorldPosition c /\
  lastPos (fold_left (fun acc ev => handler_effect ev acc) evs c) = lastPos c.
Proof.
  revert c. induction evs as [ | ev evs IH]; intros c; [auto | ].
  simpl. destruct (IH (handler_effect ev c)) as (H1 & H2 & H3).
  destruct (handler_effect_frame ev c) as (_ & F2 & F3 & F4 & _).
  rewrite H1, H2, H3. auto.
Qed.

Lemma move_class_overwrites (ev : RawEvent) (c : Component) :
  is_move_class ev = true ->
  exists p, move_closure ev = Some p /\ pendingMove (handler_effect ev c) = Some p.
Proof.
  destruct ev as [e | e | e | e | e | e | e | e]; try discriminate; intros _;
    eexists; split; reflexivity.
Qed.

Lemma slot_content_Move (c : Component) (cls : EventClass) (a : UpdateArgs) :
  slot_content SMove c = Some (cls, a) ->
  is_move_out_over cls = true /\
  exists k, cls = class_of_target k /\ pendingMove c = Some (a, k).
Proof.
  unfold slot_content. destruct (pendingMove c) as [[a' k] | ]; simpl; intros H;
    [ | discriminate].
  injection H as <- <-. split; [destruct k; reflexivity | eauto].
Qed.

(** C5: the handlers of mouseout and mouseover write the slot that
    mousemove writes.  After any run of mousemove, mouseout and mouseover
    events on a component, the slot holds the closure of the last of them
    (its class and its data; the earlier ones are gone), and the next tick
    dispatches at most once among the classes move, out and over: exactly
    once, to the class of that last event with the position translated
    from its coordinates. *)
Theorem move_out_over_share_one_slot :
  forall (i : nat) (w w' : World) (out : Outcome) (c : Component)
         (evs : list RawEvent),
    components w !! i = Some c ->
    Forall (fun ev => is_move_class ev = true) evs ->
    update i (deliver_all (map (pair i) evs) w) = (w', out) ->
    exists t,
      log w' = log (deliver_all (map (pair i) evs) w) ++ t /\
      length (List.filter (fun x => is_move_out_over (fst x)) (dispatches i t)) <= 1 /\
      forall ev, last evs = Some ev ->
        exists a k e,
          move_closure ev = Some (a, k) /\
          pendingMove <$> components (deliver_all (map (pair i) evs) w) !! i
          = Some (Some (a, k)) /\
          List.filter (fun x => is_move_out_over (fst x)) (dispatches i t)
          = [(class_of_target k, e)] /\
          pos e = translatePos c (clientX a) (clientY a).
Proof.
  intros i w w' out c evs Hc Hall H.
  set (w1 := deliver_all (map (pair i) evs) w) in *.
  set (c1 := fold_left (fun acc ev => handler_effect ev acc) evs c).
  assert (Hc1 : components w1 !! i = Some c1)
    by (apply deliver_all_lookup; [exact Hc | exact Hall]).
  destruct (update_stages i w1 w' out c1 Hc1 H)
    as (t1 & t2 & t3 & o1 & o2 & Ha & Hs1 & Hs2 & Hs3).
  assert (H2 : List.filter (fun x => is_move_out_over (fst x)) (dispatches i t2) = []).
  { destruct o1 as [ | cb1].
    - destruct (stage_log_dispatch i SDown _ t2 o2 Hs2)
        as [(-> & _ & _) | (cls2 & a2 & Hsc2 & _ & Hd2 & _)]; [reflexivity | ].
      destruct (slot_content_Down _ _ _ Hsc2) as [-> _]. rewrite Hd2. reflexivity.
    - destruct Hs2 as [-> _]. reflexivity. }
  assert (H3 : List.filter (fun x => is_move_out_over (fst x)) (dispatches i t3) = []).
  { destruct o2 as [ | cb2].
    - destruct (stage_log_dispatch i SUp _ t3 out Hs3)
        as [(-> & _ & _) | (cls3 & a3 & Hsc3 & _ & Hd3 & _)]; [reflexivity | ].
      destruct (slot_content_Up _ _ _ Hsc3) as [-> _]. rewrite Hd3. reflexivity.
    - destruct Hs3 as [-> _]. reflexivity. }
  exists (t1 ++ t2 ++ t3). split; [apply Ha | ].
  rewrite !dispatches_app, !List.filter_app, H2, H3, !app_nil_r.
  destruct (stage_log_dispatch i SMove c1 t1 o1 Hs1)
    as [(-> & _ & Hnone) | (cls1 & a1 & Hsc1 & _ & Hd1 & _)].
  - split; [simpl; lia | ].
    intros ev Hlast. exfalso.
    apply last_Some in Hlast. destruct Hlast as [evs' ->].
    apply Forall_app in Hall. destruct Hall as [_ Hev].
    apply Forall_inv in Hev.
    unfold c1 in Hnone. rewrite fold_left_app in Hnone. simpl in Hnone.
    destruct (move_class_overwrites ev
                (fold_left (fun acc ev0 => handler_effect ev0 acc) evs' c) Hev)
      as [p [_ Hp]].
    unfold slot_content in Hnone. rewrite Hp in Hnone. discriminate.
  - destruct (slot_content_Move _ _ _ Hsc1) as [Hmoo [k1 [-> Hpm]]].
    rewrite Hd1. cbn [List.filter fst]. rewrite Hmoo.
    split; [simpl; lia | ].
    intros ev Hlast.
    apply last_Some in Hlast. destruct Hlast as [evs' ->].
    apply Forall_app in Hall. destruct Hall as [_ Hev].
    apply Forall_inv in Hev.
    destruct (handler_effects_frame (evs' ++ [ev]) c) as (F1 & F2 & _).
    fold c1 in F1, F2.
    unfold c1 in Hpm. rewrite fold_left_app in Hpm. simpl in Hpm.
    destruct (move_class_overwrites ev
                (fold_left (fun acc ev0 => handler_effect ev0 acc) evs' c) Hev)
      as [[a k] [Hmc Hp]].
    rewrite Hp in Hpm. injection Hpm as <- <-.
    exists a, k, (event (updateEvent a c1)).
    split; [exact Hmc | split; [ | split; [reflexivity | ]]].
    + rewrite Hc1. simpl. f_equal.
      unfold c1. rewrite fold_left_app. simpl. exact Hp.
    + destruct (updateEvent_pos_delta a c1) as [-> _].
      apply translatePos_frame; assumption.
Qed.

(** ** Listeners that throw *)

Lemma called_until_thrower (e : HexMouseEvent) (pre post : list Callback)
    (cb : Callback) :
  Forall (fun l => throws (cb_run l e) = false) pre ->
  throws (cb_run cb e) = true ->
  called e (pre ++ cb :: post) = pre ++ [cb] /\
  outcome_of e (pre ++ cb :: post) = Threw (cb_id cb).
Proof.
  intros Hpre Hcb. induction Hpre as [ | l pre Hl _ [IH1 IH2]]; simpl.
  - rewrite Hcb. auto.
  - rewrite Hl, IH1, IH2. auto.
Qed.

Lemma triggerCallbacks_calls (i : nat) (cls : EventClass) (w w' : World)
    (out : Outcome) (c : Component) :
  components w !! i = Some c ->
  triggerCallbacks i cls w = (w', out) ->
  out = outcome_of (event c) (callbacks_of cls (storage c)) /\
  exists t,
    log w' = log w ++ t /\
    calls i t = map (fun l => (cls, cb_id l))
                    (called (event c) (callbacks_of cls (storage c))).
Proof.
  intros Hc H. unfold triggerCallbacks in H. rewrite Hc in H.
  assert (Hc' : components (add_log (ODispatch i cls (event c)) w) !! i = Some c)
    by exact Hc.
  destruct (forEach_accounts i cls _ _ _ _ _ Hc' H) as [t [[Hl _] [_ [Hcalls Ho]]]].
  split; [exact Ho | ].
  exists (ODispatch i cls (event c) :: t). split.
  - rewrite Hl. cbn [add_log log]. rewrite <- app_assoc. reflexivity.
  - exact Hcalls.
Qed.

(** C3 (amended): in a dispatch pass over the listeners of one class, the
    listeners registered before the first one that throws are called, that
    one is called, and no listener after it is called in that pass; the
    exception leaves the dispatch loop. *)
Theorem listener_exception_ends_dispatch :
  forall (i : nat) (cls : EventClass) (w w' : World) (out : Outcome)
         (c : Component) (pre post : list Callback) (cb : Callback),
    components w !! i = Some c ->
    callbacks_of cls (storage c) = pre ++ cb :: post ->
    Forall (fun l => throws (cb_run l (event c)) = false) pre ->
    throws (cb_run cb (event c)) = true ->
    triggerCallbacks i cls w = (w', out) ->
    out = Threw (cb_id cb) /\
    exists t,
      log w' = log w ++ t /\
      calls i t = map (fun l => (cls, cb_id l)) (pre ++ [cb]).
Proof.
  intros i cls w w' out c pre post cb Hc Hcbs Hpre Hcb H.
  destruct (triggerCallbacks_calls i cls w w' out c Hc H) as [Ho [t [Hl Hcalls]]].
  rewrite Hcbs in Ho, Hcalls.
  destruct (called_until_thrower (event c) pre post cb Hpre Hcb) as [E1 E2].
  rewrite E1 in Hcalls. rewrite E2 in Ho. eauto.
Qed.

Lemma listener_exception_ends_dispatch_witness :
  snd (triggerCallbacks 0 Move abort_world) = Threw 1 /\
  exists t,
    log (fst (triggerCallbacks 0 Move abort_world)) = log abort_world ++ t /\
    calls 0 t = [(Move, 1)].
Proof.
  apply (listener_exception_ends_dispatch 0 Move abort_world
           (fst (triggerCallbacks 0 Move abort_world))
           (snd (triggerCallbacks 0 Move abort_world))
           abort_component [] [bystander] thrower).
  - reflexivity.
  - reflexivity.
  - constructor.
  - reflexivity.
  - apply surjective_pairing.
Defined.

(** C3 as stated fails: with a throwing listener registered before a
    second listener of the same class, the dispatch pass calls the first
    only and ends with the exception; the second is never called. *)
Lemma listener_exception_counterexample :
  components abort_world !! 0%nat = Some abort_component /\
  callbacks_of Move (storage abort_component) = [thrower; bystander] /\
  snd (triggerCallbacks 0 Move abort_world) = Threw (cb_id thrower) /\
  calls 0 (log (fst (triggerCallbacks 0 Move abort_world))) = [(Move, cb_id thrower)] /\
  ~ In (Move, cb_id bystander)
       (calls 0 (log (fst (triggerCallbacks 0 Move abort_world)))).
Proof.
  split; [reflexivity | ].
  split; [reflexivity | split; [reflexivity | split; [reflexivity | ]]].
  intros [H | []]. discriminate.
Qed.

(** The exception also leaves the tick: when a listener of the move
    dispatch throws, [update] ends with that exception and the down and up
    slots are not fired in that tick. *)
Lemma thrown_move_listener_ends_tick (i : nat) (w w' : World) (out : Outcome)
    (c : Component) (a : UpdateArgs) (k : MoveTarget) (cb : nat) :
  components w !! i = Some c ->
  pendingMove c = Some (a, k) ->
  outcome_of (event (updateEvent a c))
             (callbacks_of (class_of_target k) (storage c)) = Threw cb ->
  update i w = (w', out) ->
  out = Threw cb /\
  exists t, log w' = log w ++ t /\ fired_slots i t = [SMove].
Proof.
  intros Hc Hp Hthrow H.
  destruct (update_stages i w w' out c Hc H)
    as (t1 & t2 & t3 & o1 & o2 & Ha & Hs1 & Hs2 & Hs3).
  destruct (stage_log_views i SMove c t1 o1 Hs1) as (_ & Hf1 & _).
  cbn [slot_pending] in Hf1. rewrite Hp in Hf1.
  unfold stage_log in Hs1. rewrite Hp in Hs1.
  destruct Hs1 as [t' [_ [_ [_ Ho1]]]]. cbn [fst snd] in Ho1.
  rewrite Hthrow in Ho1. subst o1.
  destruct Hs2 as [-> ->]. destruct Hs3 as [-> ->].
  split; [reflexivity | ].
  exists (t1 ++ [] ++ []). split; [apply Ha | ].
  rewrite !app_nil_r. exact Hf1.
Qed.

(** ** Raw handlers and the module-level state *)

Lemma first_click_calls_snoc (t : list Obs) (o : Obs) :
  match o with OFirstClick _ => False | _ => True end ->
  first_click_calls (t ++ [o]) = first_click_calls t.
Proof.
  intros H. rewrite first_click_calls_app.
  destruct o; try contradiction; simpl; apply app_nil_r.
Qed.

Lemma first_click_calls_map (hs : list FirstClickHandler) :
  first_click_calls (map (fun h => OFirstClick (fc_id h)) hs) = map fc_id hs.
Proof. induction hs as [ | h hs IH]; simpl; [ | rewrite IH]; reflexivity. Qed.

Lemma components_eq (w w' : World) :
  (forall j, components w' !! j = components w !! j) -> components w' = components w.
Proof. intros H. apply list_eq. exact H. Qed.

Lemma deliver_components_unchanged (i : nat) (ev : RawEvent) (w : World) (c : Component) :
  components w !! i = Some c ->
  handler_effect ev c = c ->
  components (deliver i ev w) = components w.
Proof.
  intros Hc He. apply components_eq. intros j. rewrite deliver_lookup.
  destruct (Nat.eqb_spec i j) as [Heq | Hne].
  - subst j. rewrite Hc. simpl. unfold raw_effect.
    destruct (is_click_start ev && click_throws w); [reflexivity | ].
    rewrite He. reflexivity.
  - destruct (components w !! j); reflexivity.
Qed.

(** Handlers other than those of mousedown and touchstart leave the
    first-click latch and its queue alone. *)
Lemma deliver_no_click (i : nat) (ev : RawEvent) (w : World) :
  is_click_start ev = false ->
  firstClickHasHappened (deliver i ev w) = firstClickHasHappened w /\
  pendingFirstClickHandlers (deliver i ev w) = pendingFirstClickHandlers w /\
  first_click_calls (log (deliver i ev w)) = first_click_calls (log w).
Proof.
  intros Hev. unfold deliver. destruct (components w !! i) as [c | ]; [ | auto].
  destruct ev as [e | e | e | e | e | e | e | e]; try discriminate;
    cbn [raw_handler lift fst snd];
    unfold handleMouseMove, handleMouseUp, handleMouseOver, handleMouseOut,
           handleTouchMove, handleTouchEnd;
    try (destruct (negb (isTouching c)));
    try (destruct (touches e)); try (destruct (changedTouches e));
    unfold modify; cbn [set_components add_log firstClickHasHappened
                        pendingFirstClickHandlers log];
    rewrite ?first_click_calls_snoc by exact I; auto.
Qed.

(** The module-level variables after the first-click block. *)
Lemma first_click_module (w : World) :
  firstClickHasHappened (fst (first_click w)) = true /\
  pendingFirstClickHandlers (fst (first_click w))
  = (if negb (firstClickHasHappened w)
        && negb (existsb fc_throws (pendingFirstClickHandlers w))
     then [] else pendingFirstClickHandlers w) /\
  first_click_calls (log (fst (first_click w)))
  = first_click_calls (log w)
    ++ (if firstClickHasHappened w then []
        else map fc_id (handlers_called (pendingFirstClickHandlers w))).
Proof.
  rewrite first_click_spec. destruct (firstClickHasHappened w) eqn:Hl.
  - cbn [fst negb andb]. rewrite app_nil_r. auto.
  - cbn [fst negb andb firstClickHasHappened pendingFirstClickHandlers log].
    rewrite first_click_calls_app, first_click_calls_map.
    destruct (existsb fc_throws (pendingFirstClickHandlers w)); auto.
Qed.

Lemma andThen_lift_module (a : Act) (g : World -> World) (w : World) :
  (forall w0, firstClickHasHappened (g w0) = firstClickHasHappened w0 /\
              pendingFirstClickHandlers (g w0) = pendingFirstClickHandlers w0 /\
              log (g w0) = log w0) ->
  firstClickHasHappened (fst ((a ;> lift g) w)) = firstClickHasHappened (fst (a w)) /\
  pendingFirstClickHandlers (fst ((a ;> lift g) w))
  = pendingFirstClickHandlers (fst (a w)) /\
  log (fst ((a ;> lift g) w)) = log (fst (a w)).
Proof.
  intros Hg. rewrite andThen_lift.
  destruct (snd (a w)); cbn [fst]; [apply Hg | auto].
Qed.

(** A mousedown, or a touchstart on a component that is not touching,
    runs the first-click block. *)
Lemma deliver_click (i : nat) (ev : RawEvent) (w : World) (c : Component) :
  components w !! i = Some c ->
  is_click_start ev = true ->
  match ev with touchstart _ => isTouching c = false | _ => True end ->
  firstClickHasHappened (deliver i ev w) = true /\
  pendingFirstClickHandlers (deliver i ev w)
  = (if negb (firstClickHasHappened w)
        && negb (existsb fc_throws (pendingFirstClickHandlers w))
     then [] else pendingFirstClickHandlers w) /\
  first_click_calls (log (deliver i ev w))
  = first_click_calls (log w)
    ++ (if firstClickHasHappened w then []
        else map fc_id (handlers_called (pendingFirstClickHandlers w))).
Proof.
  intros Hc Hev Ht. unfold deliver. rewrite Hc. cbn zeta.
  match goal with
  | |- context [add_log ?o w] => set (entry := o)
  end.
  assert (Hentry : match entry with OFirstClick _ => False | _ => True end).
  { unfold entry. destruct (snd (raw_handler i c ev w)); exact I. }
  clearbody entry.
  destruct ev as [e | e | e | e | e | e | e | e]; try discriminate; cbn [raw_handler].
  - unfold handleMouseDown.
    destruct (andThen_lift_module first_click
                (modify i (set_pendingDown (Some (args_of_button e))))
                (add_log entry w)) as (H1 & H2 & H3); [intros w0; auto | ].
    rewrite H1, H2, H3.
    destruct (first_click_module (add_log entry w)) as (F1 & F2 & F3).
    rewrite F1, F2, F3. cbn [add_log firstClickHasHappened pendingFirstClickHandlers log].
    rewrite first_click_calls_snoc by exact Hentry. auto.
  - rewrite handleTouchStart_eq, Ht.
    match goal with
    | |- context [(first_click ;> lift ?g0) ?w0] =>
        destruct (andThen_lift_module first_click g0 w0) as (H1 & H2 & H3)
    end.
    { intros w0. destruct (touches e); auto. }
    rewrite H1, H2, H3.
    destruct (first_click_module (add_log (OPreventDefault i) (add_log entry w)))
      as (F1 & F2 & F3).
    rewrite F1, F2, F3. cbn [add_log firstClickHasHappened pendingFirstClickHandlers log].
    rewrite !first_click_calls_snoc by (exact I || exact Hentry). auto.
Qed.

(** A touchstart on a component that is already touching does not reach
    the first-click block. *)
Lemma touchstart_while_touching (i : nat) (e : TouchEvent) (w : World) (c : Component) :
  components w !! i = Some c ->
  isTouching c = true ->
  same_state w (deliver i (touchstart e) w).
Proof.
  intros Hc Ht. split.
  - apply (deliver_components_unchanged i _ w c Hc). simpl. rewrite Ht. reflexivity.
  - unfold deliver. rewrite Hc. cbn [raw_handler]. rewrite !handleTouchStart_eq, Ht.
    cbn [fst snd add_log firstClickHasHappened pendingFirstClickHandlers log].
    rewrite !first_click_calls_snoc by exact I. auto.
Qed.

(** Once the latch is set, no handler touches it, its queue, or calls a
    first-click handler. *)
Lemma deliver_latched (i : nat) (ev : RawEvent) (w : World) :
  firstClickHasHappened w = true ->
  firstClickHasHappened (deliver i ev w) = true /\
  pendingFirstClickHandlers (deliver i ev w) = pendingFirstClickHandlers w /\
  first_click_calls (log (deliver i ev w)) = first_click_calls (log w).
Proof.
  intros Hl.
  destruct (is_click_start ev) eqn:Hev.
  - destruct (components w !! i) as [c | ] eqn:Hc;
      [ | unfold deliver; rewrite Hc; auto].
    assert (Hcases : match ev with touchstart _ => isTouching c = false | _ => True end
                     \/ exists e, ev = touchstart e /\ isTouching c = true).
    { destruct ev as [e | e | e | e | e | e | e | e]; auto.
      destruct (isTouching c); [right; eauto | left; reflexivity]. }
    destruct Hcases as [Hnt | (e & -> & Ht)].
    + destruct (deliver_click i ev w c Hc Hev Hnt) as (H1 & H2 & H3).
      rewrite H1, H2, H3, Hl, app_nil_r. auto.
    + destruct (touchstart_while_touching i e w c Hc Ht) as (_ & H1 & H2 & H3).
      rewrite H1, H2, H3. auto.
  - destruct (deliver_no_click i ev w Hev) as (H1 & H2 & H3).
    rewrite H1. auto.
Qed.

(** The first mousedown, or touchstart on a component that is not
    touching, sets the latch and calls the queued handlers in order up to
    and including the first that throws; it empties the queue when none
    throws. *)
Lemma deliver_first_click (i : nat) (ev : RawEvent) (w : World) (c : Component) :
  components w !! i = Some c ->
  isTouching c = false ->
  firstClickHasHappened w = false ->
  is_click_start ev = true ->
  firstClickHasHappened (deliver i ev w) = true /\
  pendingFirstClickHandlers (deliver i ev w)
  = (if existsb fc_throws (pendingFirstClickHandlers w)
     then pendingFirstClickHandlers w else []) /\
  first_click_calls (log (deliver i ev w))
  = first_click_calls (log w)
    ++ map fc_id (handlers_called (pendingFirstClickHandlers w)).
Proof.
  intros Hc Ht Hl Hev.
  destruct (deliver_click i ev w c Hc Hev) as (H1 & H2 & H3).
  { destruct ev; auto. }
  rewrite H1, H2, H3, Hl. cbn [negb andb].
  destruct (existsb fc_throws (pendingFirstClickHandlers w)); auto.
Qed.

(** C7 (amended): a touchmove whose list of touches is empty and a
    touchend whose list of changed touches is empty change no variable of
    any component and no module-level variable; a touchstart whose list of
    touches is empty schedules nothing and changes no variable of any
    component (the pending slots and isTouching stay as they were), and it
    leaves the first-click latch and its queue alone when the component is
    already touching or the latch is already set; otherwise it sets the
    latch and calls the queued first-click handlers in order, up to and
    including the first that throws, and it empties the queue only when
    none of them throws. *)
Theorem zero_touch_events :
  forall (i : nat) (w : World) (c : Component) (e : TouchEvent),
    components w !! i = Some c ->
    (touches e = [] -> same_state w (deliver i (touchmove e) w)) /\
    (changedTouches e = [] -> same_state w (deliver i (touchend e) w)) /\
    (touches e = [] ->
     components (deliver i (touchstart e) w) = components w /\
     (isTouching c = true \/ firstClickHasHappened w = true ->
      same_state w (deliver i (touchstart e) w)) /\
     (isTouching c = false -> firstClickHasHappened w = false ->
      firstClickHasHappened (deliver i (touchstart e) w) = true /\
      first_click_calls (log (deliver i (touchstart e) w))
      = first_click_calls (log w)
        ++ map fc_id (handlers_called (pendingFirstClickHandlers w)) /\
      pendingFirstClickHandlers (deliver i (touchstart e) w)
      = (if existsb fc_throws (pendingFirstClickHandlers w)
         then pendingFirstClickHandlers w else []))).
Proof.
  intros i w c e Hc. split; [ | split].
  - intros He. split.
    + apply (deliver_components_unchanged i _ w c Hc). simpl. rewrite He. reflexivity.
    + apply deliver_no_click. reflexivity.
  - intros He. split.
    + apply (deliver_components_unchanged i _ w c Hc). simpl. rewrite He.
      destruct (negb (isTouching c)); reflexivity.
    + apply deliver_no_click. reflexivity.
  - intros He.
    assert (Hcomp : components (deliver i (touchstart e) w) = components w).
    { apply (deliver_components_unchanged i _ w c Hc). simpl. rewrite He.
      destruct (isTouching c); reflexivity. }
    split; [exact Hcomp | split].
    + intros [Ht | Hl].
      * apply (touchstart_while_touching i e w c Hc Ht).
      * split; [exact Hcomp | ].
        destruct (deliver_latched i (touchstart e) w Hl) as (H1 & H2 & H3).
        rewrite H1, Hl. auto.
    + intros Ht Hl.
      destruct (deliver_first_click i (touchstart e) w c Hc Ht Hl eq_refl)
        as (H1 & H2 & H3).
      auto.
Qed.

Lemma zero_touch_events_witness :
  same_state untouched_world (deliver 0 (touchmove empty_touch) untouched_world) /\
  same_state untouched_world (deliver 0 (touchend empty_touch) untouched_world) /\
  components (deliver 0 (touchstart empty_touch) untouched_world)
  = components untouched_world.
Proof.
  destruct (zero_touch_events 0 untouched_world
              (new_component (canvas_at 0 0) identity_matrix) empty_touch eq_refl)
    as (H1 & H2 & H3).
  split; [exact (H1 eq_refl) | split; [exact (H2 eq_refl) | ]].
  exact (proj1 (H3 eq_refl)).
Defined.

(** C7 as stated fails.  A touchstart with no touch point, reaching a
    component that is not touching before the first click, sets the
    first-click latch, calls the queued handler and empties the queue.
    And a touchend whose list of active touches is empty but whose list of
    changed touches is not, reaching a touching component, schedules an up
    dispatch and clears isTouching. *)
Lemma zero_touch_counterexample :
  (touches empty_touch = [] /\
   firstClickHasHappened untouched_world = false /\
   pendingFirstClickHandlers untouched_world = [mkFirstClickHandler 7 false] /\
   firstClickHasHappened (deliver 0 (touchstart empty_touch) untouched_world) = true /\
   pendingFirstClickHandlers (deliver 0 (touchstart empty_touch) untouched_world) = [] /\
   first_click_calls (log (deliver 0 (touchstart empty_touch) untouched_world)) = [7]) /\
  (touches lift_finger = [] /\
   (isTouching <$> components touching_world !! 0%nat) = Some true /\
   (pendingUp <$> components touching_world !! 0%nat) = Some None /\
   (isTouching <$> components (deliver 0 (touchend lift_finger) touching_world) !! 0%nat)
   = Some false /\
   (pendingUp <$> components (deliver 0 (touchend lift_finger) touching_world) !! 0%nat)
   = Some (Some (args_of_touch (mkTouch (Fin 3) (Fin 4))))).
Proof. repeat split; reflexivity. Qed.

(** ** What a tick keeps *)

Lemma preserves_andThen (P : World -> Prop) (a b : Act) :
  preserves P a -> preserves P b -> preserves P (a ;> b).
Proof.
  intros Ha Hb w Hw. unfold andThen.
  specialize (Ha w Hw). destruct (a w) as [w1 [ | cb]]; simpl in *.
  - apply Hb. exact Ha.
  - exact Ha.
Qed.

Lemma preserves_lift (P : World -> Prop) (f : World -> World) :
  (forall w, P w -> P (f w)) -> preserves P (lift f).
Proof. intros H w Hw. apply H. exact Hw. Qed.

Lemma preserves_deliver_all (P : World -> Prop) (evs : list (nat * RawEvent)) :
  handler_stable P -> forall w, P w -> P (deliver_all evs w).
Proof.
  intros (Hd & _ & _). induction evs as [ | [i ev] evs IH]; intros w Hw.
  - exact Hw.
  - simpl. apply IH. apply Hd. exact Hw.
Qed.

Lemma preserves_forEach (P : World -> Prop) (i : nat) (cls : EventClass)
    (cbs : list Callback) :
  handler_stable P -> preserves P (forEach i cls cbs).
Proof.
  intros HP. induction cbs as [ | cb rest IH].
  - intros w Hw. exact Hw.
  - cbn [forEach]. apply preserves_andThen; [ | exact IH].
    intros w Hw. unfold invoke. destruct (components w !! i) as [c | ]; [ | exact Hw].
    simpl. apply preserves_deliver_all; [exact HP | ].
    destruct HP as (_ & Hl & _). apply Hl; [exact I | exact Hw].
Qed.

Lemma preserves_triggerCallbacks (P : World -> Prop) (i : nat) (cls : EventClass) :
  handler_stable P -> preserves P (triggerCallbacks i cls).
Proof.
  intros HP w Hw. unfold triggerCallbacks.
  destruct (components w !! i) as [c | ]; [ | exact Hw].
  apply preserves_forEach; [exact HP | ].
  destruct HP as (_ & Hl & _). apply Hl; [exact I | exact Hw].
Qed.

Lemma preserves_closure (P : World -> Prop) (i : nat) (s : Slot)
    (a : UpdateArgs) (cls : EventClass) :
  handler_stable P ->
  preserves P (lift (fun w0 => add_log (OCleared i s) (modify i (clear_slot s) w0)) ;>
               lift (modify i (updateEvent a)) ;>
               triggerCallbacks i cls).
Proof.
  intros HP. pose proof HP as (_ & Hl & Hm).
  apply preserves_andThen; [ | apply preserves_andThen].
  - apply preserves_lift. intros w Hw. apply Hl; [exact I | ].
    apply Hm; [ | exact Hw]. intros c. destruct s; reflexivity.
  - apply preserves_lift. intros w Hw. apply Hm; [ | exact Hw]. reflexivity.
  - apply preserves_triggerCallbacks. exact HP.
Qed.

Lemma preserves_update (P : World -> Prop) (i : nat) :
  handler_stable P -> preserves P (update i).
Proof.
  intros HP. unfold update.
  apply preserves_andThen; [ | apply preserves_andThen].
  - intros w Hw. unfold flushMove.
    destruct (components w !! i) as [c | ]; [ | exact Hw].
    destruct (pendingMove c) as [p | ]; [ | exact Hw].
    exact (preserves_closure P i SMove (fst p) _ HP w Hw).
  - intros w Hw. unfold flushDown.
    destruct (components w !! i) as [c | ]; [ | exact Hw].
    destruct (pendingDown c) as [a | ]; [ | exact Hw].
    exact (preserves_closure P i SDown a Down HP w Hw).
  - intros w Hw. unfold flushUp.
    destruct (components w !! i) as [c | ]; [ | exact Hw].
    destruct (pendingUp c) as [a | ]; [ | exact Hw].
    exact (preserves_closure P i SUp a Up HP w Hw).
Qed.

(** ** The first-click latch *)

Lemma latched_stable (l : list nat) : handler_stable (latched l).
Proof.
  split; [ | split].
  - intros w i ev [H1 H2].
    destruct (deliver_latched i ev w H1) as (A & _ & C).
    split; [exact A | rewrite C; exact H2].
  - intros w o Ho [H1 H2]. split; [exact H1 | ].
    cbn [add_log log]. rewrite first_click_calls_snoc by exact Ho. exact H2.
  - intros w i f _ H. exact H.
Qed.

Lemma run_action_latched (l : list nat) (a : Action) (w : World) :
  latched l w -> latched l (run_action a w).
Proof.
  intros H. destruct a as [cv m | f | i cls cb | i ev | i | i cv m]; simpl.
  - exact H.
  - exact H.
  - exact H.
  - apply latched_stable. exact H.
  - apply (preserves_update (latched l) i (latched_stable l) w H).
  - exact H.
Qed.

Lemma run_latched (l : list nat) (h : list Action) (w : World) :
  latched l w -> latched l (run h w).
Proof.
  revert w. induction h as [ | a h IH]; intros w H; [exact H | ].
  simpl. apply IH. apply run_action_latched. exact H.
Qed.

Lemma handler_effect_not_touching (ev : RawEvent) (c : Component) :
  is_click_start ev = false -> isTouching c = false ->
  isTouching (handler_effect ev c) = false.
Proof.
  intros Hev Ht.
  destruct ev as [e | e | e | e | e | e | e | e]; try discriminate;
    cbn [handler_effect]; rewrite ?Ht; cbn [negb];
    try (destruct (touches e)); auto.
Qed.

Lemma no_click_yet_stable (r : list FirstClickHandler) :
  handler_stable (no_click_yet r).
Proof.
  split; [ | split].
  - intros w i ev H Hl'.
    destruct (firstClickHasHappened w) eqn:Hl.
    { destruct (deliver_latched i ev w Hl) as (A & _). congruence. }
    destruct (H Hl) as (Hq & Hcalls & Hnt).
    destruct (components w !! i) as [c | ] eqn:Hc.
    + assert (Ht : isTouching c = false).
      { rewrite Forall_lookup in Hnt. exact (Hnt i c Hc). }
      destruct (is_click_start ev) eqn:Hev.
      { destruct (deliver_first_click i ev w c Hc Ht Hl Hev) as (A & _). congruence. }
      destruct (deliver_no_click i ev w Hev) as (_ & B & C).
      rewrite B, C. split; [exact Hq | split; [exact Hcalls | ]].
      rewrite Forall_lookup. intros j cj Hj.
      rewrite deliver_lookup in Hj.
      destruct (components w !! j) as [cj0 | ] eqn:Hj0; [ | discriminate].
      injection Hj as <-.
      assert (Ht0 : isTouching cj0 = false).
      { rewrite Forall_lookup in Hnt. exact (Hnt j cj0 Hj0). }
      destruct (Nat.eqb i j); [ | exact Ht0].
      rewrite raw_effect_no_click by exact Hev.
      apply handler_effect_not_touching; assumption.
    + unfold deliver in *. rewrite Hc in *. auto.
  - intros w o Ho H Hl. destruct (H Hl) as (Hq & Hcalls & Hnt).
    cbn [add_log pendingFirstClickHandlers log components].
    rewrite first_click_calls_snoc by exact Ho. auto.
  - intros w i f Hf H Hl. destruct (H Hl) as (Hq & Hcalls & Hnt).
    split; [exact Hq | split; [exact Hcalls | ]].
    rewrite Forall_lookup. intros j cj Hj. rewrite lookup_modify in Hj.
    destruct (components w !! j) as [cj0 | ] eqn:Hj0; [ | discriminate].
    injection Hj as <-.
    assert (Ht0 : isTouching cj0 = false).
    { rewrite Forall_lookup in Hnt. exact (Hnt j cj0 Hj0). }
    destruct (Nat.eqb i j); [rewrite Hf | ]; exact Ht0.
Qed.

Lemma run_action_no_click_yet (r : list FirstClickHandler) (a : Action) (w : World) :
  no_click_yet r w -> no_click_yet (r ++ registered [a]) (run_action a w).
Proof.
  intros H.
  destruct a as [cv m | f | i cls cb | i ev | i | i cv m]; simpl;
    rewrite ?app_nil_r.
  - intros Hl. destruct (H Hl) as (Hq & Hcalls & Hnt).
    split; [exact Hq | split; [exact Hcalls | ]].
    cbn [LowLevelMouse set_components components].
    apply Forall_app. split; [exact Hnt | repeat constructor].
  - intros Hl. destruct (H Hl) as (Hq & Hcalls & Hnt).
    cbn [useFirstClick set_pendingFirstClickHandlers pendingFirstClickHandlers
         log components].
    rewrite Hq. auto.
  - apply no_click_yet_stable; [ | exact H]. reflexivity.
  - apply no_click_yet_stable. exact H.
  - apply (preserves_update (no_click_yet r) i (no_click_yet_stable r) w H).
  - apply no_click_yet_stable; [ | exact H]. reflexivity.
Qed.

Lemma registered_cons (a : Action) (h : list Action) :
  registered (a :: h) = registered [a] ++ registered h.
Proof. unfold registered. simpl. rewrite app_nil_r. reflexivity. Qed.

Lemma run_no_click_yet (h : list Action) (r : list FirstClickHandler) (w : World) :
  no_click_yet r w -> no_click_yet (r ++ registered h) (run h w).
Proof.
  revert r w. induction h as [ | a h IH]; intros r w H.
  - simpl. rewrite app_nil_r. exact H.
  - rewrite registered_cons, app_assoc. simpl. apply IH.
    apply run_action_no_click_yet. exact H.
Qed.

Lemma initial_no_click_yet : no_click_yet [] initial_world.
Proof. intros _. repeat split. constructor. Qed.

Lemma run_app (h1 h2 : list Action) (w : World) :
  run (h1 ++ h2) w = run h2 (run h1 w).
Proof. unfold run. apply fold_left_app. Qed.

(** While the latch is unset, no mousedown or touchstart of the history
    has reached a component. *)
Lemma unset_latch_no_click (h1 h2 : list Action) (j : nat) (ev : RawEvent) :
  firstClickHasHappened (run (h1 ++ Raw j ev :: h2) initial_world) = false ->
  is_click_start ev = true ->
  components (run h1 initial_world) !! j = None.
Proof.
  intros Hl Hev.
  destruct (components (run h1 initial_world) !! j) as [c | ] eqn:Hc; [ | reflexivity].
  exfalso. rewrite run_app in Hl. simpl in Hl.
  assert (Hset : firstClickHasHappened (deliver j ev (run h1 initial_world)) = true).
  { destruct (firstClickHasHappened (run h1 initial_world)) eqn:Hl1.
    - apply deliver_latched. exact Hl1.
    - destruct (run_no_click_yet h1 [] initial_world initial_no_click_yet Hl1)
        as (_ & _ & Hnt).
      rewrite Forall_lookup in Hnt.
      apply (deliver_first_click j ev _ c Hc (Hnt j c Hc) Hl1 Hev). }
  destruct (run_latched _ h2 _ (conj Hset eq_refl)) as [L _].
  fold (run h2 (deliver j ev (run h1 initial_world))) in Hl. congruence.
Qed.

(** C4 (amended): take any history of the process after which the latch
    is still unset, that is, in which no mousedown or touchstart has
    reached a component.  All handlers registered so far wait in the queue
    and none has been called.  The first mousedown or touchstart handled
    by any component then sets the latch and calls those handlers in
    registration order, each once, up to and including the first that
    throws: the handlers after a throwing one are not called, and the
    queue is emptied only when no handler throws.  So when none of the
    registered handlers throws, all of them are called exactly once, in
    registration order, and the queue is empty.  Whatever happens
    afterwards (more clicks, ticks, registrations), the latch stays set
    and no first-click handler is ever called again, so a handler
    registered later is never called; the object it gets reads
    firstClickHasHappened as true at once. *)
Theorem first_click_latch :
  forall (h : list Action) (j : nat) (ev : RawEvent) (c : Component),
    firstClickHasHappened (run h initial_world) = false ->
    components (run h initial_world) !! j = Some c ->
    is_click_start ev = true ->
    (forall h1 h2 j' ev',
       h = h1 ++ Raw j' ev' :: h2 -> is_click_start ev' = true ->
       components (run h1 initial_world) !! j' = None) /\
    (pendingFirstClickHandlers (run h initial_world) = registered h /\
     first_click_calls (log (run h initial_world)) = []) /\
    firstClickHasHappened (deliver j ev (run h initial_world)) = true /\
    first_click_calls (log (deliver j ev (run h initial_world)))
    = map fc_id (handlers_called (registered h)) /\
    pendingFirstClickHandlers (deliver j ev (run h initial_world))
    = (if existsb fc_throws (registered h) then registered h else []) /\
    (existsb fc_throws (registered h) = false ->
     first_click_calls (log (deliver j ev (run h initial_world)))
     = map fc_id (registered h) /\
     pendingFirstClickHandlers (deliver j ev (run h initial_world)) = []) /\
    forall (h2 : list Action) (late : FirstClickHandler),
      firstClickHasHappened (run h2 (deliver j ev (run h initial_world))) = true /\
      first_click_calls (log (run h2 (deliver j ev (run h initial_world))))
      = map fc_id (handlers_called (registered h)) /\
      get_firstClickHasHappened
        (useFirstClick late (run h2 (deliver j ev (run h initial_world)))) = true.
Proof.
  intros h j ev c Hl Hc Hev.
  split.
  { intros h1 h2 j' ev' -> Hev'. exact (unset_latch_no_click h1 h2 j' ev' Hl Hev'). }
  destruct (run_no_click_yet h [] initial_world initial_no_click_yet Hl)
    as (Hq & Hcalls & Hnt).
  simpl in Hq.
  assert (Ht : isTouching c = false).
  { rewrite Forall_lookup in Hnt. exact (Hnt j c Hc). }
  destruct (deliver_first_click j ev _ c Hc Ht Hl Hev) as (A & B & C).
  rewrite Hcalls, Hq in C. simpl in C. rewrite Hq in B.
  split; [split; assumption | ].
  split; [exact A | split; [exact C | split; [exact B | ]]].
  split.
  { intros Hno. rewrite C, B, Hno, (handlers_called_all _ Hno). auto. }
  intros h2 late.
  destruct (run_latched _ h2 _ (conj A C)) as [L1 L2].
  split; [exact L1 | split; [exact L2 | exact L1]].
Qed.

Lemma first_click_latch_witness :
  first_click_calls (log (deliver 0 (mousedown (plain_mouse 1 1)) waiting_world))
  = [11; 12] /\
  first_click_calls
    (log (run [Raw 0 (mousedown (plain_mouse 2 2));
               UseFirstClick (mkFirstClickHandler 13 false);
               Raw 0 (touchstart lift_finger); Tick 0]
              (deliver 0 (mousedown (plain_mouse 1 1)) waiting_world)))
  = [11; 12].
Proof.
  destruct (first_click_latch waiting_history 0 (mousedown (plain_mouse 1 1))
              (new_component (canvas_at 0 0) identity_matrix)
              eq_refl eq_refl eq_refl) as (_ & _ & _ & H1 & _ & _ & H2).
  split; [exact H1 | ].
  exact (proj1 (proj2 (H2 [Raw 0 (mousedown (plain_mouse 2 2));
                           UseFirstClick (mkFirstClickHandler 13 false);
                           Raw 0 (touchstart lift_finger); Tick 0]
                          (mkFirstClickHandler 0 false)))).
Defined.

(** C4 as stated fails.  With two handlers registered of which the first
    throws, the first mousedown sets the latch and calls the first handler
    only: the second is not called then or at any later click, the queue
    still holds both, and the mousedown itself schedules no down
    dispatch. *)
Lemma first_click_latch_counterexample :
  registered faulty_history
  = [mkFirstClickHandler 11 true; mkFirstClickHandler 12 false] /\
  firstClickHasHappened faulty_world = false /\
  firstClickHasHappened (deliver 0 (mousedown (plain_mouse 1 1)) faulty_world) = true /\
  first_click_calls (log (deliver 0 (mousedown (plain_mouse 1 1)) faulty_world)) = [11] /\
  pendingFirstClickHandlers (deliver 0 (mousedown (plain_mouse 1 1)) faulty_world)
  = [mkFirstClickHandler 11 true; mkFirstClickHandler 12 false] /\
  (pendingDown <$> components (deliver 0 (mousedown (plain_mouse 1 1)) faulty_world)
                   !! 0%nat) = Some None /\
  first_click_calls
    (log (deliver 0 (mousedown (plain_mouse 2 2))
            (deliver 0 (mousedown (plain_mouse 1 1)) faulty_world))) = [11].
Proof. repeat split; reflexivity. Qed.

(** ** The theorems at sample inputs *)



(** The tick of [busy_world]: the three slots fire in order, the move
    listener's own mousemove is still scheduled afterwards, and the other
    two slots are empty. *)
Example rescheduled_move_survives :
  fired_slots 0 (log (fst (update 0 busy_world))) = [SMove; SDown; SUp] /\
  calls 0 (log (fst (update 0 busy_world))) = [(Move, 3); (Down, 2)] /\
  (pendingMove <$> components (fst (update 0 busy_world)) !! 0%nat)
  = Some (Some (args_of_buttons (plain_mouse 1 2), ToMove)) /\
  (pendingDown <$> components (fst (update 0 busy_world)) !! 0%nat) = Some None /\
  (pendingUp <$> components (fst (update 0 busy_world)) !! 0%nat) = Some None.
Proof. repeat split; reflexivity. Qed.

Lemma coalesced_move_then_down_witness :
  (pendingMove <$> components coalesce_world !! 0%nat
   = Some (Some (mkUpdateArgs (Fin 20) (Fin 20) (Some 0%Z) None, ToMove))) /\
  (pendingDown <$> components coalesce_world !! 0%nat
   = Some (Some (mkUpdateArgs (Fin 20) (Fin 20) None (Some 0%Z)))) /\
  exists t e1 rest c',
    log (fst (update 0 coalesce_world)) = log coalesce_world ++ t /\
    dispatches 0 t = (Move, e1) :: rest /\
    pos e1 = translatePos origin_component (Fin 20) (Fin 20) /\
    delta e1 = subtract (inl (lastPos origin_component))
                        (translatePos origin_component (Fin 20) (Fin 20)) /\
    Forall (fun x => fst x <> Move) rest /\
    (outcome_of e1 (moveCallbacks (storage origin_component)) = Normal ->
     exists e2 rest',
       rest = (Down, e2) :: rest' /\
       delta e2 = subtract (inl (pos e1)) (pos e2) /\
       (rest' = [] \/ exists e3, rest' = [(Up, e3)])) /\
    (forall cb, outcome_of e1 (moveCallbacks (storage origin_component)) = Threw cb ->
                rest = [] /\ snd (update 0 coalesce_world) = Threw cb) /\
    components (fst (update 0 coalesce_world)) !! 0%nat = Some c' /\
    lastPos c' = pos (event c') /\
    exists cls, last (dispatches 0 t) = Some (cls, event c').
Proof.
  apply (coalesced_move_then_down 0 origin_world
           (fst (update 0 coalesce_world)) (snd (update 0 coalesce_world))
           origin_component 0 0 0 0 0 (Fin 20) (Fin 20)).
  - reflexivity.
  - reflexivity.
  - apply surjective_pairing.
Defined.

(** C2 as stated fails.  When a move listener throws, the tick after
    move(10,10), move(20,20), down dispatches the move class and nothing
    else: there is no down dispatch in that tick.  And when a first-click
    handler that throws is queued, the mousedown is the first click: the
    handler's exception ends the raw handler before it schedules the down
    dispatch, so the tick dispatches the move class alone. *)
Lemma coalesced_move_then_down_counterexample :
  (map fst (dispatches 0 (log (fst (update 0 abort_coalesce_world)))) = [Move] /\
   snd (update 0 abort_coalesce_world) = Threw 1) /\
  ((pendingDown <$> components faulty_coalesce_world !! 0%nat) = Some None /\
   map fst (dispatches 0 (log (fst (update 0 faulty_coalesce_world)))) = [Move] /\
   snd (update 0 faulty_coalesce_world) = Normal).
Proof. repeat split; reflexivity. Qed.

Lemma move_out_over_share_one_slot_witness :
  exists t,
    log (fst (update 0 leave_world)) = log leave_world ++ t /\
    length (List.filter (fun x => is_move_out_over (fst x)) (dispatches 0 t)) <= 1 /\
    forall ev, last leave_events = Some ev ->
      exists a k e,
        move_closure ev = Some (a, k) /\
        pendingMove <$> components leave_world !! 0%nat = Some (Some (a, k)) /\
        List.filter (fun x => is_move_out_over (fst x)) (dispatches 0 t)
        = [(class_of_target k, e)] /\
        pos e = translatePos origin_component (clientX a) (clientY a).
Proof.
  apply (move_out_over_share_one_slot 0 origin_world
           (fst (update 0 leave_world)) (snd (update 0 leave_world))
           origin_component leave_events).
  - reflexivity.
  - repeat constructor.
  - apply surjective_pairing.
Defined.

(** A mouseout after a mousemove in one tick: the tick dispatches to the
    out listeners only. *)
Example mouseout_replaces_mousemove :
  map fst (dispatches 0 (log (fst (update 0 leave_world)))) = [Out].
Proof. reflexivity. Qed.

(** The tick after move(10,10), move(20,20), down: one move dispatch, one
    down dispatch. *)
Example one_move_one_down :
  map fst (dispatches 0 (log (fst (update 0 coalesce_world)))) = [Move; Down].
Proof. reflexivity. Qed.

(** * Further properties of the code *)

(** ** Point arithmetic *)

Lemma nneg_involutive (a : num) : nneg (nneg a) = a.
Proof. destruct a; simpl; try reflexivity. f_equal. lra. Qed.

(** X1: [opposite] undoes itself on every Point, NaN and infinite
    components included, and a Point with finite components plus its
    opposite is the zero vector. *)
Theorem opposite_involution :
  forall p : Point,
    opposite (opposite p) = p /\
    (is_finite (x p) -> is_finite (y p) ->
     add (inl (opposite p)) p = mkPoint (Fin 0) (Fin 0)).
Proof.
  intros [a b]. split.
  - unfold opposite. cbn [x y]. rewrite !nneg_involutive. reflexivity.
  - destruct a as [ | | | r], b as [ | | | s]; cbn [x y is_finite]; try tauto.
    intros _ _. simpl. f_equal; f_equal; lra.
Qed.

Lemma opposite_involution_witness :
  add (inl (opposite (mkPoint (Fin 3) (Fin 4)))) (mkPoint (Fin 3) (Fin 4))
  = mkPoint (Fin 0) (Fin 0).
Proof.
  exact (proj2 (opposite_involution (mkPoint (Fin 3) (Fin 4))) I I).
Defined.

Lemma nadd_nsub_not_finite (a n : num) :
  ~ is_finite n -> nsub (nadd a n) n = NaN /\ nadd (nsub a n) n = NaN.
Proof.
  destruct n as [ | | | r]; cbn [is_finite]; intros H;
    [ | | | exfalso; apply H; exact I];
    destruct a; split; reflexivity.
Qed.

(** X2: adding the number Infinity, -Infinity or NaN to a Point and then
    subtracting it again does not give the Point back: both components
    are NaN, whatever the Point; and so it is for subtracting and then
    adding. *)
Theorem add_subtract_not_finite :
  forall (p : Point) (n : num),
    ~ is_finite n ->
    subtract (inr n) (add (inr n) p) = mkPoint NaN NaN /\
    add (inr n) (subtract (inr n) p) = mkPoint NaN NaN.
Proof.
  intros [a b] n Hn.
  destruct (nadd_nsub_not_finite a n Hn) as [A1 A2].
  destruct (nadd_nsub_not_finite b n Hn) as [B1 B2].
  unfold subtract, add. cbn [x y]. rewrite A1, A2, B1, B2. auto.
Qed.

Lemma add_subtract_not_finite_witness :
  subtract (inr PInf) (add (inr PInf) (mkPoint (Fin 3) (Fin 4))) = mkPoint NaN NaN.
Proof.
  refine (proj1 (add_subtract_not_finite (mkPoint (Fin 3) (Fin 4)) PInf _)).
  simpl. tauto.
Defined.

Lemma nmul_ndiv_fin (a : num) (k : R) :
  is_finite a -> k <> 0%R ->
  nmul (ndiv a (Fin k)) (Fin k) = a /\ ndiv (nmul a (Fin k)) (Fin k) = a.
Proof.
  destruct a as [ | | | s]; cbn [is_finite]; try tauto. intros _ Hk.
  cbn [nmul]. rewrite !ndiv_fin by assumption. cbn [nmul].
  split; f_equal; field; assumption.
Qed.

(** X3: scaling by a power of two and back is lossless: for every Point
    whose components are each zero or of absolute value between 2^-150
    and 2^150, and every k = 2^n with n <= 150, dividing by k and then
    multiplying by k gives back the Point, and so does multiplying and
    then dividing (in this range both operations are exact in binary64). *)
Theorem multiply_divide_round_trip :
  forall (p : Point) (n : nat),
    moderate_point p -> (n <= 150)%nat ->
    multiply (inr (Fin (2 ^ n))) (divide (inr (Fin (2 ^ n))) p) = p /\
    divide (inr (Fin (2 ^ n))) (multiply (inr (Fin (2 ^ n))) p) = p.
Proof.
  intros p n Hp _.
  destruct (moderate_point_fin p Hp) as [a [b [-> _]]].
  assert (Hk : (2 ^ n <> 0)%R) by (apply pow_nonzero; lra).
  destruct (nmul_ndiv_fin (Fin a) (2 ^ n) I Hk) as [A1 A2].
  destruct (nmul_ndiv_fin (Fin b) (2 ^ n) I Hk) as [B1 B2].
  unfold multiply, divide. cbn [x y]. rewrite A1, A2, B1, B2. auto.
Qed.

Lemma multiply_divide_round_trip_witness :
  multiply (inr (Fin (2 ^ 1))) (divide (inr (Fin (2 ^ 1))) (mkPoint (Fin 3) (Fin 4)))
  = mkPoint (Fin 3) (Fin 4).
Proof.
  refine (proj1 (multiply_divide_round_trip (mkPoint (Fin 3) (Fin 4)) 1 _ _)).
  - exact (conj moderate_3 moderate_4).
  - lia.
Defined.

Lemma ndiv_zero_not_finite (a : num) : ~ is_finite (ndiv a (Fin 0)).
Proof.
  destruct a as [ | | | r]; cbn [ndiv]; rewrite ?(Rsgn_zero 0) by reflexivity;
    cbn [nsgn sgn_mul inf_of is_finite]; try tauto.
  destruct (Rsgn r); simpl; tauto.
Qed.

(** X4: dividing any Point by the number 0, or by a Point whose
    components are 0, raises nothing and never leaves a finite component:
    each component becomes NaN or an infinity. *)
Theorem divide_by_zero_not_finite :
  forall p : Point,
    ~ is_finite (x (divide (inr (Fin 0)) p)) /\
    ~ is_finite (y (divide (inr (Fin 0)) p)) /\
    ~ is_finite (x (divide (inl (mkPoint (Fin 0) (Fin 0))) p)) /\
    ~ is_finite (y (divide (inl (mkPoint (Fin 0) (Fin 0))) p)).
Proof.
  intros [a b]. unfold divide. cbn [x y].
  repeat split; apply ndiv_zero_not_finite.
Qed.

Lemma num_strict_eq_true (a b : num) : num_strict_eq a b = true -> a = b.
Proof.
  destruct a as [ | | | r], b as [ | | | s]; simpl; try discriminate; try reflexivity.
  destruct (Req_dec_T r s) as [-> | ]; [reflexivity | discriminate].
Qed.

Lemma num_strict_eq_refl (a : num) : num_strict_eq a a = true <-> a <> NaN.
Proof.
  destruct a as [ | | | r]; simpl.
  - split; [discriminate | congruence].
  - split; [discriminate | reflexivity].
  - split; [discriminate | reflexivity].
  - destruct (Req_dec_T r r) as [_ | Hne]; [ | congruence].
    split; [discriminate | reflexivity].
Qed.

Lemma num_strict_eq_sym (a b : num) : num_strict_eq a b = num_strict_eq b a.
Proof.
  destruct a as [ | | | r], b as [ | | | s]; simpl; try reflexivity.
  destruct (Req_dec_T r s), (Req_dec_T s r); congruence.
Qed.

(** X5: [equals] is symmetric and holds only between Points with the same
    components, but a Point equals itself exactly when neither of its
    components is NaN. *)
Theorem equals_reflexive_without_NaN :
  forall p q : Point,
    equals q p = equals p q /\
    (equals q p = true -> p = q) /\
    (equals p p = true <-> x p <> NaN /\ y p <> NaN).
Proof.
  intros [a b] [c d]. unfold equals. cbn [x y]. split; [ | split].
  - rewrite (num_strict_eq_sym a c), (num_strict_eq_sym b d). reflexivity.
  - intros H. apply andb_true_iff in H. destruct H as [H1 H2].
    rewrite (num_strict_eq_true _ _ H1), (num_strict_eq_true _ _ H2). reflexivity.
  - rewrite andb_true_iff, !num_strict_eq_refl. tauto.
Qed.

Lemma equals_reflexive_without_NaN_witness :
  equals (mkPoint (Fin 1) PInf) (mkPoint (Fin 1) PInf) = true.
Proof.
  apply (proj2 (proj2 (equals_reflexive_without_NaN
                         (mkPoint (Fin 1) PInf) (mkPoint (Fin 1) PInf)))).
  split; discriminate.
Defined.

(** The square of a difference, as [distanceTo] and [magnitude] take it. *)
Lemma square_diff_sym (a b : num) :
  Math_pow (nsub a b) 2 = Math_pow (nsub b a) 2.
Proof.
  destruct a as [ | | | r], b as [ | | | s]; cbn [nsub nneg nadd];
    try reflexivity;
    try (unfold Math_pow; cbn [exact_pow nmul nsgn sgn_mul inf_of];
         rewrite ?(Rsgn_pos 1) by lra; reflexivity).
  rewrite !Math_pow_2_fin. do 2 f_equal. ring.
Qed.

Lemma nsub_not_finite (a b : num) :
  ~ (is_finite a /\ is_finite b) -> ~ is_finite (nsub a b).
Proof.
  destruct a as [ | | | r], b as [ | | | s]; simpl; tauto.
Qed.

Lemma nsub_fin (a b : num) (d : R) :
  nsub a b = Fin d -> exists r s : R, a = Fin r /\ b = Fin s /\ d = (r - s)%R.
Proof.
  destruct a as [ | | | r], b as [ | | | s]; simpl; try discriminate.
  intros H. injection H as H. exists r, s. repeat split. lra.
Qed.

Lemma distanceTo_fin (a b c d : R) :
  square_in_range (c - a) -> square_in_range (d - b) ->
  distanceTo (mkPoint (Fin c) (Fin d)) (mkPoint (Fin a) (Fin b))
  = Fin (sqrt ((c - a) * (c - a) + (d - b) * (d - b))).
Proof.
  intros Hx Hy. unfold distanceTo. cbn [x y nsub nneg nadd].
  rewrite !Math_pow_2_fin.
  replace ((c + - a) * (c + - a))%R with ((c - a) * (c - a))%R by ring.
  replace ((d + - b) * (d + - b))%R with ((d - b) * (d - b))%R by ring.
  rewrite !square_to_double by assumption. cbn [nadd].
  rewrite sum_of_squares_to_double by assumption.
  apply Math_sqrt_fin.
  apply Rplus_le_le_0_compat; apply Rle_0_sqr.
Qed.

Lemma distanceTo_nonfinite (p q : Point) :
  ~ (is_finite (x p) /\ is_finite (y p) /\ is_finite (x q) /\ is_finite (y q)) ->
  distanceTo q p = NaN \/ distanceTo q p = PInf.
Proof.
  intros H. unfold distanceTo.
  assert (D : ~ is_finite (nsub (x q) (x p)) \/ ~ is_finite (nsub (y q) (y p))).
  { destruct p as [[ | | | a] [ | | | b]], q as [[ | | | c] [ | | | d]];
      cbn [x y is_finite] in *;
      try (left; apply nsub_not_finite; simpl; tauto);
      try (right; apply nsub_not_finite; simpl; tauto). }
  destruct D as [D | D].
  - apply (nonfinite_square_sum _ _ (Math_pow_2_nonfinite _ D) (Math_pow_2_cases _)).
  - apply (nonfinite_square_sum _ _ (Math_pow_2_nonfinite _ D) (Math_pow_2_cases _)).
Qed.

(** X6: the distance between two Points is the same in both directions,
    whatever their components; the distance to the origin is the
    magnitude; the distance from a Point with finite components to itself
    is 0; a distance of 0 is only read between Points with finite
    components, and when the two coordinate differences are each zero or
    of absolute value between 2^-537 and 2^511 (their squares neither
    overflow nor underflow) only between a Point and itself. *)
Theorem distanceTo_symmetric :
  forall p q : Point,
    distanceTo q p = distanceTo p q /\
    distanceTo (mkPoint (Fin 0) (Fin 0)) p = magnitude p /\
    (is_finite (x p) -> is_finite (y p) -> distanceTo p p = Fin 0) /\
    (distanceTo q p = Fin 0 ->
     (is_finite (x p) /\ is_finite (y p) /\ is_finite (x q) /\ is_finite (y q)) /\
     forall dx dy : R,
       nsub (x q) (x p) = Fin dx -> nsub (y q) (y p) = Fin dy ->
       square_in_range dx -> square_in_range dy -> p = q).
Proof.
  intros p q. split; [ | split; [ | split]].
  - unfold distanceTo.
    rewrite (square_diff_sym (x q) (x p)), (square_diff_sym (y q) (y p)).
    reflexivity.
  - reflexivity.
  - destruct p as [[ | | | a] [ | | | b]]; cbn [x y is_finite]; try tauto.
    intros _ _.
    rewrite distanceTo_fin
      by (replace (a - a)%R with 0%R by ring; replace (b - b)%R with 0%R by ring;
          left; reflexivity).
    f_equal.
    replace ((a - a) * (a - a) + (b - b) * (b - b))%R with 0%R by ring.
    apply sqrt_0.
  - intros H.
    assert (F : is_finite (x p) /\ is_finite (y p) /\ is_finite (x q) /\ is_finite (y q)).
    { destruct p as [[ | | | a] [ | | | b]], q as [[ | | | c] [ | | | d]];
        cbn [x y is_finite]; try tauto;
        match type of H with
        | distanceTo ?q0 ?p0 = _ =>
            destruct (distanceTo_nonfinite p0 q0 ltac:(simpl; tauto)) as [E | E];
            rewrite E in H; discriminate
        end. }
    split; [exact F | ].
    intros dx dy Hx Hy Sx Sy.
    destruct p as [a b], q as [c d]. cbn [x y] in *.
    destruct (nsub_fin _ _ _ Hx) as [c' [a' [-> [-> Ex]]]].
    destruct (nsub_fin _ _ _ Hy) as [d' [b' [-> [-> Ey]]]].
    subst dx dy.
    rewrite distanceTo_fin in H by assumption. injection H as H.
    destruct (sqrt_sumsq_zero (c' - a') (d' - b') H) as [H1 H2].
    assert (a' = c') by lra. assert (b' = d') by lra. subst. reflexivity.
Qed.

Lemma distanceTo_symmetric_witness :
  distanceTo (mkPoint (Fin 3) (Fin 4)) (mkPoint (Fin 3) (Fin 4)) = Fin 0.
Proof.
  exact (proj1 (proj2 (proj2 (distanceTo_symmetric (mkPoint (Fin 3) (Fin 4))
                                (mkPoint (Fin 3) (Fin 4))))) I I).
Defined.

(** ** Rotation *)

Lemma rotate_fin (a b r : R) :
  square_in_range a -> square_in_range b ->
  exists t : R,
    (sqrt (a * a + b * b) * cos t = a)%R /\
    (sqrt (a * a + b * b) * sin t = - b)%R /\
    rotate (Fin r) (mkPoint (Fin a) (Fin b))
    = mkPoint (Fin (sqrt (a * a + b * b) * cos (t + r)))
              (Fin (- (sqrt (a * a + b * b) * sin (t + r)))).
Proof.
  intros Ha Hb. destruct (angle_unit a b) as [t [Ht [Hc Hs]]].
  exists t. split; [exact Hc | split; [exact Hs | ]].
  unfold rotate, clone. cbn [x y]. rewrite Ht. cbn [nadd].
  apply set_angle_fin; assumption.
Qed.

(** [rotate] as a linear map. *)
Lemma rotate_linear (a b r : R) :
  square_in_range a -> square_in_range b ->
  rotate (Fin r) (mkPoint (Fin a) (Fin b))
  = mkPoint (Fin (a * cos r + b * sin r)) (Fin (b * cos r - a * sin r)).
Proof.
  intros Ha Hb.
  destruct (rotate_fin a b r Ha Hb) as [t [Hc [Hs ->]]].
  rewrite cos_plus, sin_plus.
  f_equal; f_equal.
  - replace (sqrt (a * a + b * b) * (cos t * cos r - sin t * sin r))%R
      with ((sqrt (a * a + b * b) * cos t) * cos r
            - (sqrt (a * a + b * b) * sin t) * sin r)%R by ring.
    rewrite Hc, Hs. ring.
  - replace (- (sqrt (a * a + b * b) * (sin t * cos r + cos t * sin r)))%R
      with (- ((sqrt (a * a + b * b) * sin t) * cos r
               + (sqrt (a * a + b * b) * cos t) * sin r))%R by ring.
    rewrite Hc, Hs. ring.
Qed.



(** X8: rotating a Point keeps its magnitude, up to rounding (the reals
    between the thresholds are exact here), when the components of the
    Point and of the rotated Point are each zero or of absolute value
    between 2^-150 and 2^150; and rotating such a Point by 0 gives the
    same Point. *)
Theorem rotate_keeps_magnitude :
  forall (p : Point) (r : R),
    moderate_point p ->
    (moderate_point (rotate (Fin r) p) ->
     magnitude (rotate (Fin r) p) = magnitude p) /\
    rotate (Fin 0) p = p.
Proof.
  intros p r Hp.
  destruct (moderate_point_fin p Hp) as [a [b [-> [Ha Hb]]]].
  pose proof (moderate_square_in_range a Ha) as Sa.
  pose proof (moderate_square_in_range b Hb) as Sb.
  rewrite !rotate_linear by assumption. split.
  - intros [Hx Hy].
    rewrite !magnitude_moderate by assumption. do 2 f_equal.
    pose proof (sin2_cos2 r) as H. unfold Rsqr in H.
    replace ((a * cos r + b * sin r) * (a * cos r + b * sin r) +
             (b * cos r - a * sin r) * (b * cos r - a * sin r))%R
      with ((a * a + b * b) * (sin r * sin r + cos r * cos r))%R by ring.
    rewrite H. ring.
  - rewrite cos_0, sin_0. f_equal; f_equal; ring.
Qed.

Lemma rotate_quarter_3_4 :
  rotate (Fin (PI / 2)) (mkPoint (Fin 3) (Fin 4)) = mkPoint (Fin 4) (Fin (- 3)).
Proof.
  rewrite rotate_linear
    by (apply moderate_square_in_range; (apply moderate_3 || apply moderate_4)).
  rewrite cos_PI2, sin_PI2. f_equal; f_equal; ring.
Qed.

Lemma moderate_point_4_3 : moderate_point (mkPoint (Fin 4) (Fin (- 3))).
Proof. split; [exact moderate_4 | apply bounded_opp; exact moderate_3]. Qed.

Lemma rotate_keeps_magnitude_witness :
  magnitude (rotate (Fin (PI / 2)) (mkPoint (Fin 3) (Fin 4)))
  = magnitude (mkPoint (Fin 3) (Fin 4)) /\
  rotate (Fin 0) (mkPoint (Fin 3) (Fin 4)) = mkPoint (Fin 3) (Fin 4).
Proof.
  destruct (rotate_keeps_magnitude (mkPoint (Fin 3) (Fin 4)) (PI / 2)
              (conj moderate_3 moderate_4)) as [H1 H2].
  split; [apply H1 | exact H2].
  rewrite rotate_quarter_3_4. exact moderate_point_4_3.
Defined.



(** ** The polar constructor and rounding *)

Lemma sqrt_scaled_unit (s a : R) :
  (0 <= s)%R -> sqrt (s * cos a * (s * cos a) + - (s * sin a) * - (s * sin a)) = s.
Proof.
  intros Hs. apply sqrt_lem_1; [ | exact Hs | ].
  - apply Rplus_le_le_0_compat.
    + apply Rle_0_sqr.
    + pose proof (Rle_0_sqr (s * sin a)) as H. unfold Rsqr in H. lra.
  - pose proof (sin2_cos2 a) as H. unfold Rsqr in H.
    replace (s * cos a * (s * cos a) + - (s * sin a) * - (s * sin a))%R
      with (s * s * (sin a * sin a + cos a * cos a))%R by ring.
    rewrite H. ring.
Qed.

Lemma fromAngleAndMagnitude_fin (a m : R) :
  moderate (cos a) -> moderate (sin a) ->
  fromAngleAndMagnitude (Fin a) (Fin m)
  = mkPoint (Fin (m * cos a)) (Fin (- (m * sin a))).
Proof.
  intros Hc Hs. unfold fromAngleAndMagnitude.
  rewrite set_angle_fin by exact square_in_range_1.
  assert (Hne : sqrt (1 * 1 + 1 * 1) <> 0%R).
  { assert (0 < sqrt (1 * 1 + 1 * 1))%R by (apply sqrt_lt_R0; lra). lra. }
  pose proof (magnitude_bounds 1 1 moderate_1 moderate_1 Hne) as HB.
  set (s := sqrt (1 * 1 + 1 * 1)) in *.
  assert (Hs0 : (0 < s)%R) by (apply sqrt_lt_R0; lra).
  assert (Hq : sqrt (s * cos a * (s * cos a) + - (s * sin a) * - (s * sin a)) = s)
    by (apply sqrt_scaled_unit; lra).
  rewrite set_magnitude_fin
    by (try (rewrite Hq; lra); try apply bounded_opp;
        apply scaled_in_range; assumption).
  rewrite Hq. f_equal; f_equal; field; lra.
Qed.

(** X10: for every angle a whose cosine and sine are each zero or at
    least 2^-150 in absolute value, and every m that is zero or of
    absolute value between 2^-150 and 2^150, [fromAngleAndMagnitude]
    gives, up to rounding (the reals between the thresholds are exact
    here), the Point (m cos a, -(m sin a)); its magnitude reads |m|, and
    for m > 0 its angle reads a up to a multiple of 2 PI. *)
Theorem fromAngleAndMagnitude_polar :
  forall a m : R,
    moderate (cos a) -> moderate (sin a) -> moderate m ->
    fromAngleAndMagnitude (Fin a) (Fin m)
    = mkPoint (Fin (m * cos a)) (Fin (- (m * sin a))) /\
    magnitude (fromAngleAndMagnitude (Fin a) (Fin m)) = Fin (Rabs m) /\
    ((0 < m)%R ->
     exists k : Z,
       angle (fromAngleAndMagnitude (Fin a) (Fin m)) = Fin (a + 2 * IZR k * PI)).
Proof.
  intros a m Hc Hs Hm. rewrite fromAngleAndMagnitude_fin by assumption.
  split; [reflexivity | split].
  - rewrite magnitude_fin
      by (try apply bounded_opp; apply moderate_mult_in_range; assumption).
    f_equal.
    replace (m * cos a * (m * cos a) + - (m * sin a) * - (m * sin a))%R
      with (Rabs m * cos a * (Rabs m * cos a)
            + - (Rabs m * sin a) * - (Rabs m * sin a))%R.
    + apply sqrt_scaled_unit. apply Rabs_pos.
    + unfold Rabs. destruct (Rcase_abs m); ring.
  - intros Hpos. apply angle_polar. exact Hpos.
Qed.

Lemma fromAngleAndMagnitude_polar_witness :
  exists k : Z,
    angle (fromAngleAndMagnitude (Fin 0) (Fin 2)) = Fin (0 + 2 * IZR k * PI).
Proof.
  refine (proj2 (proj2 (fromAngleAndMagnitude_polar 0 2 _ _ _)) _).
  - rewrite cos_0. exact moderate_1.
  - rewrite sin_0. exact moderate_0.
  - exact moderate_2.
  - lra.
Defined.

Lemma Int_part_bounds (r : R) :
  (IZR (Int_part r) <= r < IZR (Int_part r) + 1)%R.
Proof. destruct (base_Int_part r) as [H1 H2]. lra. Qed.

Lemma Int_part_IZR (z : Z) : Int_part (IZR z) = z.
Proof. symmetry. apply Int_part_spec. lra. Qed.

(** X11: on a Point with finite components [roundDown], [roundUp] and
    [round] give integer components: the greatest integer not above, the
    least integer not below, and the integer nearest to each component
    with halves going up; a Point with integer components is left as it
    is by all three. *)
Theorem rounding_bounds :
  forall a b : R,
    (exists fx fy cx cy rx ry : Z,
       roundDown (mkPoint (Fin a) (Fin b)) = mkPoint (Fin (IZR fx)) (Fin (IZR fy)) /\
       roundUp (mkPoint (Fin a) (Fin b)) = mkPoint (Fin (IZR cx)) (Fin (IZR cy)) /\
       round (mkPoint (Fin a) (Fin b)) = mkPoint (Fin (IZR rx)) (Fin (IZR ry)) /\
       (IZR fx <= a < IZR fx + 1)%R /\ (IZR fy <= b < IZR fy + 1)%R /\
       (IZR cx - 1 < a <= IZR cx)%R /\ (IZR cy - 1 < b <= IZR cy)%R /\
       (IZR rx - / 2 <= a < IZR rx + / 2)%R /\
       (IZR ry - / 2 <= b < IZR ry + / 2)%R) /\
    forall zx zy : Z,
      roundDown (mkPoint (Fin (IZR zx)) (Fin (IZR zy)))
      = mkPoint (Fin (IZR zx)) (Fin (IZR zy)) /\
      roundUp (mkPoint (Fin (IZR zx)) (Fin (IZR zy)))
      = mkPoint (Fin (IZR zx)) (Fin (IZR zy)) /\
      round (mkPoint (Fin (IZR zx)) (Fin (IZR zy)))
      = mkPoint (Fin (IZR zx)) (Fin (IZR zy)).
Proof.
  intros a b. split.
  - exists (Int_part a), (Int_part b), (- Int_part (- a))%Z, (- Int_part (- b))%Z,
           (Int_part (a + / 2)), (Int_part (b + / 2)).
    pose proof (Int_part_bounds a). pose proof (Int_part_bounds b).
    pose proof (Int_part_bounds (- a)). pose proof (Int_part_bounds (- b)).
    pose proof (Int_part_bounds (a + / 2)). pose proof (Int_part_bounds (b + / 2)).
    unfold roundDown, roundUp, round. cbn [x y Math_floor Math_ceil Math_round].
    rewrite !opp_IZR.
    repeat split; lra.
  - intros zx zy. unfold roundDown, roundUp, round.
    cbn [x y Math_floor Math_ceil Math_round].
    rewrite <- !opp_IZR, !Int_part_IZR, !opp_IZR, !Ropp_involutive.
    assert (E : forall z : Z, Int_part (IZR z + / 2) = z).
    { intros z. symmetry. apply Int_part_spec. lra. }
    rewrite !E. auto.
Qed.

(** ** Binding and unbinding the raw handlers *)

Lemma EventType_eqb_eq (a b : EventType) : EventType_eqb a b = true <-> a = b.
Proof. destruct a, b; simpl; split; intros H; try reflexivity; discriminate. Qed.

Lemma EventType_eqb_refl (a : EventType) : EventType_eqb a a = true.
Proof. destruct a; reflexivity. Qed.

Lemma listening_add (ty ty' : EventType) (l : list EventType) :
  existsb (EventType_eqb ty) (addEventListener ty' l)
  = EventType_eqb ty ty' || existsb (EventType_eqb ty) l.
Proof.
  unfold addEventListener.
  destruct (existsb (EventType_eqb ty') l) eqn:E.
  - destruct (EventType_eqb ty ty') eqn:E'; [ | reflexivity].
    apply EventType_eqb_eq in E'. subst ty'. rewrite E. reflexivity.
  - rewrite existsb_app. simpl. rewrite orb_false_r. apply orb_comm.
Qed.

Lemma listening_remove (ty ty' : EventType) (l : list EventType) :
  existsb (EventType_eqb ty) (removeEventListener ty' l)
  = negb (EventType_eqb ty' ty) && existsb (EventType_eqb ty) l.
Proof.
  unfold removeEventListener. induction l as [ | o l IH]; simpl.
  - rewrite andb_false_r. reflexivity.
  - destruct (EventType_eqb ty' o) eqn:E; simpl.
    + rewrite IH. apply EventType_eqb_eq in E. subst o.
      destruct (EventType_eqb ty ty') eqn:E'.
      * apply EventType_eqb_eq in E'. subst ty'.
        rewrite EventType_eqb_refl. reflexivity.
      * reflexivity.
    + rewrite IH. destruct (EventType_eqb ty o) eqn:E'.
      * apply EventType_eqb_eq in E'. subst o. rewrite E. reflexivity.
      * reflexivity.
Qed.

Lemma NoDup_add (ty : EventType) (l : list EventType) :
  NoDup l -> NoDup (addEventListener ty l).
Proof.
  intros H. unfold addEventListener.
  destruct (existsb (EventType_eqb ty) l) eqn:E; [exact H | ].
  apply NoDup_app. split; [exact H | split].
  - intros o Ho Ho'. apply list_elem_of_singleton in Ho'. subst o.
    assert (E' : existsb (EventType_eqb ty) l = true).
    { apply existsb_exists. exists ty. split.
      - apply list_elem_of_In. exact Ho.
      - apply EventType_eqb_refl. }
    congruence.
  - apply NoDup_singleton.
Qed.

Lemma NoDup_remove (ty : EventType) (l : list EventType) :
  NoDup l -> NoDup (removeEventListener ty l).
Proof.
  intros H. unfold removeEventListener.
  induction H as [ | o l Ho H IH]; simpl; [apply NoDup_nil; exact I | ].
  destruct (negb (EventType_eqb ty o)); [ | exact IH].
  apply NoDup_cons. split; [ | exact IH].
  intros Hin. apply Ho. apply list_elem_of_In. apply list_elem_of_In in Hin.
  apply List.filter_In in Hin. apply Hin.
Qed.

Lemma is_listening_bind (wi : Wiring) (ty : EventType) :
  bound wi = false -> is_listening (bindListeners wi) ty = true.
Proof.
  intros H. unfold is_listening, bindListeners. rewrite H. cbn [listeners].
  rewrite !listening_add. destruct ty; simpl; rewrite ?orb_true_r; reflexivity.
Qed.

Lemma is_listening_unbind (wi : Wiring) (ty : EventType) :
  bound wi = true ->
  is_listening (unbindListeners wi) ty
  = match ty with
    | Tmouseover | Tmouseout => is_listening wi ty
    | _ => false
    end.
Proof.
  intros H. unfold is_listening, unbindListeners. rewrite H. cbn [negb listeners].
  rewrite !listening_remove. destruct ty; simpl; reflexivity.
Qed.

Lemma toggles_snoc (ops : list bool) (op : bool) (wi : Wiring) :
  toggles (ops ++ [op]) wi = toggle op (toggles ops wi).
Proof. unfold toggles. rewrite fold_left_app. reflexivity. Qed.

(** X12: however often a component is enabled and disabled, the canvas
    never holds one of its handlers twice; while the component is bound
    all eight handlers are attached; while it is unbound the only handlers
    still attached are those for mouseover and mouseout, and these two
    stay attached for good once the component has been enabled. *)
Theorem unbind_leaves_over_and_out :
  forall (ops : list bool),
    let wi := toggles ops initial_wiring in
    NoDup (listeners wi) /\
    (bound wi = true -> forall ty, is_listening wi ty = true) /\
    (bound wi = false ->
     forall ty, is_listening wi ty = true -> ty = Tmouseover \/ ty = Tmouseout) /\
    (In true ops ->
     is_listening wi Tmouseover = true /\ is_listening wi Tmouseout = true).
Proof.
  intros ops. induction ops as [ | op ops IH] using rev_ind; intros wi.
  - subst wi. cbn. split; [apply NoDup_nil; exact I | ].
    split; [discriminate | split; [ | tauto]].
    intros _ ty H. discriminate.
  - subst wi. rewrite toggles_snoc.
    set (wi := toggles ops initial_wiring) in *.
    destruct IH as (Hnd & Hon & Hoff & Hleak).
    assert (Hnd' : NoDup (listeners (toggle op wi))).
    { destruct op; cbn [toggle].
      - unfold bindListeners. destruct (bound wi); [exact Hnd | ].
        cbn [listeners]. repeat apply NoDup_add. exact Hnd.
      - unfold unbindListeners. destruct (negb (bound wi)); [exact Hnd | ].
        cbn [listeners]. repeat apply NoDup_remove. exact Hnd. }
    split; [exact Hnd' | ].
    destruct op; cbn [toggle].
    + (* enabled *)
      destruct (bound wi) eqn:Hb.
      * assert (E : bindListeners wi = wi) by (unfold bindListeners; rewrite Hb; reflexivity).
        rewrite E, Hb. split; [intros _; apply Hon; reflexivity | ].
        split; [discriminate | ]. intros _. split; apply Hon; reflexivity.
      * assert (Hb' : bound (bindListeners wi) = true)
          by (unfold bindListeners; rewrite Hb; reflexivity).
        rewrite Hb'. split; [intros _ ty; apply is_listening_bind; exact Hb | ].
        split; [discriminate | ]. intros _. split; apply is_listening_bind; exact Hb.
    + (* disabled *)
      destruct (bound wi) eqn:Hb.
      * assert (Hb' : bound (unbindListeners wi) = false)
          by (unfold unbindListeners; rewrite Hb; reflexivity).
        rewrite Hb'. split; [discriminate | ]. split.
        -- intros _ ty. rewrite is_listening_unbind by exact Hb.
           destruct ty; try discriminate; auto.
        -- intros _. rewrite !is_listening_unbind by exact Hb.
           split; apply Hon; reflexivity.
      * assert (E : unbindListeners wi = wi)
          by (unfold unbindListeners; rewrite Hb; reflexivity).
        rewrite E, Hb. split; [discriminate | ]. split; [intros _; apply Hoff; reflexivity | ].
        intros Hin. apply Hleak. apply in_app_or in Hin.
        destruct Hin as [Hin | [Hin | []]]; [exact Hin | discriminate].
Qed.

(** X13: a component that is enabled and then disabled no longer hears
    mouse moves, presses, releases or touches, but a mouseout or mouseover
    on the canvas still reaches its handler and fills its pendingMove
    slot with a closure for the out or over listeners. *)
Theorem disabled_component_hears_over_and_out :
  forall (wi : Wiring) (i : nat) (w : World) (c : Component) (ev : RawEvent),
    bound wi = false ->
    components w !! i = Some c ->
    let wi' := unbindListeners (bindListeners wi) in
    bound wi' = false /\
    (forall e, ev = mouseout e ->
       pendingMove <$> components (canvas_dispatch wi' i ev w) !! i
       = Some (Some (args_of_buttons e, ToOut))) /\
    (forall e, ev = mouseover e ->
       pendingMove <$> components (canvas_dispatch wi' i ev w) !! i
       = Some (Some (args_of_buttons e, ToOver))) /\
    (type_of ev <> Tmouseout -> type_of ev <> Tmouseover ->
     canvas_dispatch wi' i ev w = w).
Proof.
  intros wi i w c ev Hb Hc wi'.
  assert (Hb1 : bound (bindListeners wi) = true)
    by (unfold bindListeners; rewrite Hb; reflexivity).
  assert (Hl : forall ty, is_listening wi' ty
                          = match ty with Tmouseover | Tmouseout => true | _ => false end).
  { intros ty. unfold wi'. rewrite is_listening_unbind by exact Hb1.
    destruct ty; try reflexivity; apply is_listening_bind; exact Hb. }
  split; [unfold wi', unbindListeners; rewrite Hb1; reflexivity | ].
  split; [ | split].
  - intros e ->. unfold canvas_dispatch. rewrite Hl. cbn [type_of].
    rewrite deliver_lookup, Nat.eqb_refl, Hc. reflexivity.
  - intros e ->. unfold canvas_dispatch. rewrite Hl. cbn [type_of].
    rewrite deliver_lookup, Nat.eqb_refl, Hc. reflexivity.
  - intros H1 H2. unfold canvas_dispatch. rewrite Hl.
    destruct ev; cbn [type_of] in *; try reflexivity; congruence.
Qed.

Lemma disabled_component_hears_over_and_out_witness :
  pendingMove <$> components
    (canvas_dispatch (unbindListeners (bindListeners initial_wiring)) 0
       (mouseout (plain_mouse 2 2)) origin_world) !! 0%nat
  = Some (Some (args_of_buttons (plain_mouse 2 2), ToOut)) /\
  canvas_dispatch (unbindListeners (bindListeners initial_wiring)) 0
    (mousemove (plain_mouse 2 2)) origin_world = origin_world.
Proof.
  split.
  - exact (proj1 (proj2 (disabled_component_hears_over_and_out initial_wiring 0
             origin_world origin_component (mouseout (plain_mouse 2 2))
             eq_refl eq_refl)) (plain_mouse 2 2) eq_refl).
  - refine (proj2 (proj2 (proj2 (disabled_component_hears_over_and_out initial_wiring 0
             origin_world origin_component (mousemove (plain_mouse 2 2))
             eq_refl eq_refl))) _ _); discriminate.
Defined.

(** ** Ticks without input and ticks with quiet listeners *)

(** X14: a tick does nothing at all (no variable changes, nothing is
    dispatched, no listener is called) exactly when none of the three
    slots of the component holds a closure. *)
Theorem idle_tick_is_noop :
  forall (i : nat) (w : World),
    update i w = (w, Normal) <->
    (forall c, components w !! i = Some c -> no_pending c).
Proof.
  intros i w. split.
  - intros H c Hc.
    destruct (update_stages i w w Normal c Hc H)
      as (t1 & t2 & t3 & o1 & o2 & Ha & Hs1 & Hs2 & Hs3).
    destruct Ha as [Hlog _].
    assert (Ht : t1 ++ t2 ++ t3 = []).
    { apply (f_equal (@length Obs)) in Hlog. rewrite length_app in Hlog.
      destruct (t1 ++ t2 ++ t3); [reflexivity | simpl in Hlog; lia]. }
    apply app_eq_nil in Ht. destruct Ht as [-> Ht].
    apply app_eq_nil in Ht. destruct Ht as [-> ->].
    unfold no_pending. cbn [stage_log] in Hs1.
    destruct (pendingMove c) as [p | ] eqn:Em.
    { destruct Hs1 as (t' & Ht' & _). discriminate. }
    destruct Hs1 as [_ ->]. cbn [replay fold_left stage_log] in Hs2.
    destruct (pendingDown c) as [a | ] eqn:Ed.
    { destruct Hs2 as (t' & Ht' & _). discriminate. }
    destruct Hs2 as [_ ->]. cbn [app replay fold_left stage_log] in Hs3.
    destruct (pendingUp c) as [a | ] eqn:Eu.
    { destruct Hs3 as (t' & Ht' & _). discriminate. }
    auto.
  - intros H. unfold update, andThen, flushMove, flushDown, flushUp.
    destruct (components w !! i) as [c | ] eqn:Hc;
      [ | repeat (rewrite Hc; cbn beta iota); reflexivity].
    destruct (H c eq_refl) as (Hm & Hd & Hu). rewrite Hm.
    repeat (rewrite Hc, ?Hd, ?Hu; cbn beta iota). reflexivity.
Qed.

Lemma forEach_quiet (i : nat) (cls : EventClass) (cbs : list Callback) :
  forall (w : World) (c : Component),
    components w !! i = Some c ->
    Forall emits_nothing cbs ->
    Forall never_throws cbs ->
    forEach i cls cbs w
    = (mkWorld (firstClickHasHappened w) (pendingFirstClickHandlers w) (components w)
         (log w ++ map (fun cb => OCall i cls (cb_id cb) (event c)) cbs), Normal).
Proof.
  induction cbs as [ | cb rest IH]; intros w c Hc He Ht.
  - destruct w. cbn. rewrite app_nil_r. reflexivity.
  - apply Forall_cons in He. destruct He as [He1 He].
    apply Forall_cons in Ht. destruct Ht as [Ht1 Ht].
    cbn [forEach]. unfold andThen, invoke. rewrite Hc, He1, Ht1.
    cbn [deliver_all fold_left].
    rewrite (IH _ c) by assumption.
    unfold add_log. cbn [firstClickHasHappened pendingFirstClickHandlers components log map].
    rewrite <- app_assoc. reflexivity.
Qed.

Lemma calls_of_listeners (i : nat) (cls : EventClass) (e : HexMouseEvent)
    (cbs : list Callback) :
  calls i (map (fun cb => OCall i cls (cb_id cb) e) cbs)
  = map (fun cb => (cls, cb_id cb)) cbs /\
  fired_slots i (map (fun cb => OCall i cls (cb_id cb) e) cbs) = [] /\
  dispatches i (map (fun cb => OCall i cls (cb_id cb) e) cbs) = [].
Proof.
  induction cbs as [ | cb rest (IH1 & IH2 & IH3)]; [repeat split | ].
  cbn [map]. unfold calls, fired_slots, dispatches in *. cbn [flat_map].
  rewrite Nat.eqb_refl, IH1, IH2, IH3. repeat split.
Qed.

(** One pending closure run on a component whose listeners of the class
    dispatch nothing and do not throw. *)
Lemma closure_quiet (i : nat) (s : Slot) (a : UpdateArgs) (cls : EventClass)
    (w : World) (c : Component) :
  components w !! i = Some c ->
  Forall emits_nothing (callbacks_of cls (storage c)) ->
  Forall never_throws (callbacks_of cls (storage c)) ->
  exists w1 t,
    (lift (fun w0 => add_log (OCleared i s) (modify i (clear_slot s) w0)) ;>
     lift (modify i (updateEvent a)) ;>
     triggerCallbacks i cls) w = (w1, Normal) /\
    log w1 = log w ++ t /\
    firstClickHasHappened w1 = firstClickHasHappened w /\
    pendingFirstClickHandlers w1 = pendingFirstClickHandlers w /\
    (forall j, components w1 !! j
               = if Nat.eqb i j then Some (updateEvent a (clear_slot s c))
                 else components w !! j) /\
    calls i t = map (fun cb => (cls, cb_id cb)) (callbacks_of cls (storage c)) /\
    fired_slots i t = [s] /\
    dispatches i t = [(cls, event (updateEvent a c))].
Proof.
  intros Hc He Ht.
  set (w0 := modify i (updateEvent a)
               (add_log (OCleared i s) (modify i (clear_slot s) w))).
  assert (H0 : forall j, components w0 !! j
                         = if Nat.eqb i j then Some (updateEvent a (clear_slot s c))
                           else components w !! j).
  { intros j. unfold w0. rewrite lookup_modify.
    change (components (add_log (OCleared i s) (modify i (clear_slot s) w)))
      with (components (modify i (clear_slot s) w)).
    rewrite lookup_modify.
    destruct (Nat.eqb i j) eqn:E.
    - apply Nat.eqb_eq in E. subst j. rewrite Hc. reflexivity.
    - destruct (components w !! j); reflexivity. }
  assert (Hi : components w0 !! i = Some (updateEvent a (clear_slot s c))).
  { rewrite H0, Nat.eqb_refl. reflexivity. }
  assert (Hst : storage (updateEvent a (clear_slot s c)) = storage c)
    by (destruct s; reflexivity).
  eexists. eexists. split.
  - unfold andThen, lift. fold w0. unfold triggerCallbacks. rewrite Hi.
    rewrite (forEach_quiet i cls _ _ (updateEvent a (clear_slot s c)));
      [reflexivity | exact Hi | rewrite Hst; exact He | rewrite Hst; exact Ht].
  - cbn [log firstClickHasHappened pendingFirstClickHandlers components add_log].
    unfold w0. cbn [modify set_components add_log log firstClickHasHappened
                    pendingFirstClickHandlers components].
    rewrite Hst, updateEvent_clear.
    split; [rewrite <- !app_assoc; reflexivity | ].
    split; [reflexivity | split; [reflexivity | ]].
    split; [exact H0 | ].
    destruct (calls_of_listeners i cls (event (updateEvent a c))
                (callbacks_of cls (storage c))) as (E1 & E2 & E3).
    unfold calls, fired_slots, dispatches in *. cbn [app flat_map].
    rewrite Nat.eqb_refl, E1, E2, E3. repeat split.
Qed.

(** One line of the tick on such a component. *)
Lemma stage_quiet (i : nat) (s : Slot) (w : World) (c : Component) :
  components w !! i = Some c ->
  all_listeners emits_nothing c ->
  all_listeners never_throws c ->
  exists w1 t c1,
    match s with
    | SMove => flushMove i
    | SDown => flushDown i
    | SUp => flushUp i
    end w = (w1, Normal) /\
    log w1 = log w ++ t /\
    firstClickHasHappened w1 = firstClickHasHappened w /\
    pendingFirstClickHandlers w1 = pendingFirstClickHandlers w /\
    (forall j, components w1 !! j = if Nat.eqb i j then Some c1 else components w !! j) /\
    c1 = match slot_content s c with
         | Some (_, a) => updateEvent a (clear_slot s c)
         | None => c
         end /\
    calls i t = match slot_content s c with
                | Some (cls, _) => map (fun cb => (cls, cb_id cb))
                                       (callbacks_of cls (storage c))
                | None => []
                end /\
    fired_slots i t = (if slot_pending s c then [s] else []) /\
    dispatches i t = match slot_content s c with
                     | Some (cls, a) => [(cls, event (updateEvent a c))]
                     | None => []
                     end.
Proof.
  intros Hc He Ht.
  assert (Hidle : exists w1 t c1,
             (w, Normal) = (w1, Normal) /\ log w1 = log w ++ t /\
             firstClickHasHappened w1 = firstClickHasHappened w /\
             pendingFirstClickHandlers w1 = pendingFirstClickHandlers w /\
             (forall j, components w1 !! j
                        = if Nat.eqb i j then Some c1 else components w !! j) /\
             c1 = c /\ calls i t = [] /\ fired_slots i t = [] /\ dispatches i t = []).
  { exists w, [], c. rewrite app_nil_r. repeat split.
    intros j. destruct (Nat.eqb i j) eqn:E; [ | reflexivity].
    apply Nat.eqb_eq in E. subst j. exact Hc. }
  destruct s; cbn [slot_content slot_pending].
  - unfold flushMove. rewrite Hc. destruct (pendingMove c) as [[a k] | ]; [ | exact Hidle].
    destruct (closure_quiet i SMove a (class_of_target k) w c Hc (He _) (Ht _))
      as (w1 & t & H1 & H2 & H3 & H4 & H5 & H6 & H7 & H8).
    exists w1, t, (updateEvent a (clear_slot SMove c)). cbn [fmap option_fmap option_map fst snd].
    repeat split; assumption.
  - unfold flushDown. rewrite Hc. destruct (pendingDown c) as [a | ]; [ | exact Hidle].
    destruct (closure_quiet i SDown a Down w c Hc (He _) (Ht _))
      as (w1 & t & H1 & H2 & H3 & H4 & H5 & H6 & H7 & H8).
    exists w1, t, (updateEvent a (clear_slot SDown c)). cbn [fmap option_fmap option_map].
    repeat split; assumption.
  - unfold flushUp. rewrite Hc. destruct (pendingUp c) as [a | ]; [ | exact Hidle].
    destruct (closure_quiet i SUp a Up w c Hc (He _) (Ht _))
      as (w1 & t & H1 & H2 & H3 & H4 & H5 & H6 & H7 & H8).
    exists w1, t, (updateEvent a (clear_slot SUp c)). cbn [fmap option_fmap option_map].
    repeat split; assumption.
Qed.

Lemma stage_keeps (s : Slot) (c : Component) :
  let c1 := match slot_content s c with
            | Some (_, a) => updateEvent a (clear_slot s c)
            | None => c
            end in
  storage c1 = storage c /\ canvas c1 = canvas c /\
  matrixForWorldPosition c1 = matrixForWorldPosition c /\
  isTouching c1 = isTouching c /\
  slot_pending s c1 = false /\
  (forall s', s' <> s -> slot_content s' c1 = slot_content s' c).
Proof.
  destruct s; cbn [slot_content].
  - destruct (pendingMove c) as [[a k] | ] eqn:E; cbn [fmap option_fmap option_map fst snd];
      repeat split; try (cbn [slot_pending]; rewrite ?E; reflexivity);
      intros s' Hs'; destruct s'; try reflexivity; congruence.
  - destruct (pendingDown c) as [a | ] eqn:E; cbn [fmap option_fmap option_map];
      repeat split; try (cbn [slot_pending]; rewrite ?E; reflexivity);
      intros s' Hs'; destruct s'; try reflexivity; congruence.
  - destruct (pendingUp c) as [a | ] eqn:E; cbn [fmap option_fmap option_map];
      repeat split; try (cbn [slot_pending]; rewrite ?E; reflexivity);
      intros s' Hs'; destruct s'; try reflexivity; congruence.
Qed.

Lemma slot_pending_content (s : Slot) (c : Component) :
  slot_pending s c = match slot_content s c with Some _ => true | None => false end.
Proof.
  destruct s; cbn [slot_pending slot_content].
  - destruct (pendingMove c); reflexivity.
  - destruct (pendingDown c); reflexivity.
  - destruct (pendingUp c); reflexivity.
Qed.

(** The three lines of one tick on a component whose listeners dispatch
    nothing and do not throw. *)
Lemma quiet_tick_stages (i : nat) (w : World) (c : Component) :
  components w !! i = Some c ->
  all_listeners emits_nothing c ->
  all_listeners never_throws c ->
  exists w' t1 t2 t3 c1 c2 c3,
    update i w = (w', Normal) /\
    log w' = log w ++ t1 ++ t2 ++ t3 /\
    firstClickHasHappened w' = firstClickHasHappened w /\
    pendingFirstClickHandlers w' = pendingFirstClickHandlers w /\
    (forall j, components w' !! j = if Nat.eqb i j then Some c3 else components w !! j) /\
    (c1 = after_closure SMove c /\ calls i t1 = listener_calls SMove c /\
     fired_slots i t1 = (if slot_pending SMove c then [SMove] else [])) /\
    (c2 = after_closure SDown c1 /\ calls i t2 = listener_calls SDown c1 /\
     fired_slots i t2 = (if slot_pending SDown c1 then [SDown] else [])) /\
    (c3 = after_closure SUp c2 /\ calls i t3 = listener_calls SUp c2 /\
     fired_slots i t3 = (if slot_pending SUp c2 then [SUp] else [])).
Proof.
  intros Hc He Ht.
  destruct (stage_quiet i SMove w c Hc He Ht)
    as (w1 & t1 & c1 & R1 & L1 & F1 & P1 & C1 & E1 & K1 & S1 & _).
  destruct (stage_keeps SMove c) as (A1 & _).
  rewrite <- E1 in A1.
  assert (Hc1 : components w1 !! i = Some c1) by (rewrite C1, Nat.eqb_refl; reflexivity).
  assert (He1 : all_listeners emits_nothing c1) by (intros cls; rewrite A1; apply He).
  assert (Ht1 : all_listeners never_throws c1) by (intros cls; rewrite A1; apply Ht).
  destruct (stage_quiet i SDown w1 c1 Hc1 He1 Ht1)
    as (w2 & t2 & c2 & R2 & L2 & F2 & P2 & C2 & E2 & K2 & S2 & _).
  destruct (stage_keeps SDown c1) as (B1 & _).
  rewrite <- E2 in B1.
  assert (Hc2 : components w2 !! i = Some c2) by (rewrite C2, Nat.eqb_refl; reflexivity).
  assert (He2 : all_listeners emits_nothing c2) by (intros cls; rewrite B1; apply He1).
  assert (Ht2 : all_listeners never_throws c2) by (intros cls; rewrite B1; apply Ht1).
  destruct (stage_quiet i SUp w2 c2 Hc2 He2 Ht2)
    as (w3 & t3 & c3 & R3 & L3 & F3 & P3 & C3 & E3 & K3 & S3 & _).
  exists w3, t1, t2, t3, c1, c2, c3.
  split; [unfold update, andThen; rewrite R1, R2, R3; reflexivity | ].
  split; [rewrite L3, L2, L1, <- !app_assoc; reflexivity | ].
  split; [congruence | split; [congruence | ]].
  split.
  { intros j. rewrite C3. destruct (Nat.eqb i j) eqn:E; [reflexivity | ].
    rewrite C2, E, C1, E. reflexivity. }
  unfold after_closure, listener_calls. repeat split; assumption.
Qed.

(** X15: on a component none of whose listeners dispatches a raw event
    or throws, one tick returns normally and leaves all three slots
    empty; for each slot that held a closure, in the order move, down,
    up, it calls every listener of the closure's class exactly once, in
    the order of the set; the listener sets, the canvas, the transform
    and isTouching of the component, every other component, and the
    first-click latch and queue stay as they were. *)
Theorem quiet_tick_drains_slots :
  forall (i : nat) (w : World) (c : Component),
    components w !! i = Some c ->
    all_listeners emits_nothing c ->
    all_listeners never_throws c ->
    exists w' t c',
      update i w = (w', Normal) /\
      log w' = log w ++ t /\
      firstClickHasHappened w' = firstClickHasHappened w /\
      pendingFirstClickHandlers w' = pendingFirstClickHandlers w /\
      (forall j, components w' !! j = if Nat.eqb i j then Some c' else components w !! j) /\
      no_pending c' /\
      storage c' = storage c /\ canvas c' = canvas c /\
      matrixForWorldPosition c' = matrixForWorldPosition c /\
      isTouching c' = isTouching c /\
      fired_slots i t = List.filter (fun s => slot_pending s c) [SMove; SDown; SUp] /\
      calls i t
      = flat_map (fun s => match slot_content s c with
                           | Some (cls, _) => map (fun cb => (cls, cb_id cb))
                                                  (callbacks_of cls (storage c))
                           | None => []
                           end) [SMove; SDown; SUp].
Proof.
  intros i w c Hc He Ht.
  destruct (quiet_tick_stages i w c Hc He Ht)
    as (w' & t1 & t2 & t3 & c1 & c2 & c3 & R & L & F & P & C
        & (E1 & K1 & S1) & (E2 & K2 & S2) & (E3 & K3 & S3)).
  unfold after_closure in E1, E2, E3. unfold listener_calls in K1, K2, K3.
  destruct (stage_keeps SMove c) as (A1 & A2 & A3 & A4 & A5 & A6).
  rewrite <- E1 in A1, A2, A3, A4, A5, A6.
  destruct (stage_keeps SDown c1) as (B1 & B2 & B3 & B4 & B5 & B6).
  rewrite <- E2 in B1, B2, B3, B4, B5, B6.
  destruct (stage_keeps SUp c2) as (D1 & D2 & D3 & D4 & D5 & D6).
  rewrite <- E3 in D1, D2, D3, D4, D5, D6.
  exists w', (t1 ++ t2 ++ t3), c3.
  split; [exact R | split; [exact L | split; [exact F | split; [exact P | ]]]].
  split; [exact C | ].
  assert (Q1 : slot_content SDown c1 = slot_content SDown c) by (apply A6; discriminate).
  assert (Q2 : slot_content SUp c2 = slot_content SUp c).
  { rewrite B6 by discriminate. apply A6. discriminate. }
  assert (N1 : slot_pending SMove c3 = false).
  { rewrite slot_pending_content, D6, B6, <- slot_pending_content by discriminate.
    exact A5. }
  assert (N2 : slot_pending SDown c3 = false).
  { rewrite slot_pending_content, D6, <- slot_pending_content by discriminate.
    exact B5. }
  split.
  { unfold no_pending. cbn [slot_pending] in N1, N2, D5.
    destruct (pendingMove c3); [discriminate | ].
    destruct (pendingDown c3); [discriminate | ].
    destruct (pendingUp c3); [discriminate | ]. auto. }
  split; [congruence | split; [congruence | split; [congruence | split; [congruence | ]]]].
  split.
  - rewrite !fired_slots_app, S1, S2, S3.
    rewrite (slot_pending_content SDown c1), Q1, <- slot_pending_content.
    rewrite (slot_pending_content SUp c2), Q2, <- slot_pending_content.
    cbn [List.filter].
    destruct (slot_pending SMove c), (slot_pending SDown c), (slot_pending SUp c);
      reflexivity.
  - rewrite !calls_app, K1, K2, K3, Q1, Q2, B1, A1. cbn [flat_map].
    rewrite app_nil_r. reflexivity.
Qed.

Lemma quiet_tick_drains_slots_witness :
  exists w' t c',
    update 0 coalesce_world = (w', Normal) /\
    log w' = log coalesce_world ++ t /\
    components w' !! 0%nat = Some c' /\
    no_pending c' /\
    fired_slots 0 t = [SMove; SDown].
Proof.
  assert (Hc : components coalesce_world !! 0%nat
               = Some (default origin_component (components coalesce_world !! 0%nat)))
    by reflexivity.
  destruct (quiet_tick_drains_slots 0 coalesce_world _ Hc)
    as (w' & t & c' & H1 & H2 & _ & _ & H5 & H6 & _ & _ & _ & _ & H11 & _).
  - intros cls. destruct cls; apply Forall_nil; exact I.
  - intros cls. destruct cls; apply Forall_nil; exact I.
  - exists w', t, c'. split; [exact H1 | split; [exact H2 | ]].
    split; [exact (H5 0%nat) | split; [exact H6 | exact H11]].
Defined.

(** ** Raw handlers only buffer *)

(** X16: a raw event reaching the handler of component [i] calls no
    listener and dispatches nothing; it leaves every other component as
    it was, and of component [i] it leaves the listener sets, the event
    object, lastPos, the canvas and the transform as they were: all it
    can change are the pending slots and isTouching (and, on a click
    start, the first-click latch). *)
Theorem raw_events_only_buffer :
  forall (i : nat) (ev : RawEvent) (w : World),
    exists t,
      log (deliver i ev w) = log w ++ t /\
      (forall j, calls j t = [] /\ dispatches j t = [] /\ fired_slots j t = []) /\
      (forall j c,
         components w !! j = Some c ->
         exists c',
           components (deliver i ev w) !! j = Some c' /\
           storage c' = storage c /\ event c' = event c /\ lastPos c' = lastPos c /\
           canvas c' = canvas c /\
           matrixForWorldPosition c' = matrixForWorldPosition c /\
           (j <> i -> c' = c)) /\
      length (components (deliver i ev w)) = length (components w) /\
      (is_click_start ev = false ->
       firstClickHasHappened (deliver i ev w) = firstClickHasHappened w /\
       pendingFirstClickHandlers (deliver i ev w) = pendingFirstClickHandlers w).
Proof.
  intros i ev w.
  destruct (deliver_accounts i ev w) as (t & [Hlog Hcomp] & Hraw).
  exists t. split; [exact Hlog | ].
  split.
  { intros j. destruct (raw_only_views j t Hraw) as (H1 & H2 & H3 & _). auto. }
  split.
  { intros j c Hc. rewrite deliver_lookup, Hc. cbn [fmap option_fmap option_map].
    destruct (Nat.eqb i j) eqn:E.
    - exists (raw_effect w ev c).
      destruct (raw_effect_frame w ev c) as (H1 & H2 & H3 & H4 & H5).
      repeat split; try assumption.
      intros Hne. apply Nat.eqb_eq in E. congruence.
    - exists c. repeat split. }
  split.
  { apply Nat.le_antisymm.
    - destruct (Nat.le_gt_cases (length (components (deliver i ev w)))
                                (length (components w))) as [Hle | Hgt]; [exact Hle | ].
      destruct (lookup_lt_is_Some_2 (components (deliver i ev w))
                  (length (components w)) Hgt) as [c Hc].
      rewrite deliver_lookup in Hc.
      rewrite (lookup_ge_None_2 (components w) (length (components w))) in Hc
        by apply Nat.le_refl.
      discriminate.
    - destruct (Nat.le_gt_cases (length (components w))
                                (length (components (deliver i ev w)))) as [Hle | Hgt];
        [exact Hle | ].
      destruct (lookup_lt_is_Some_2 (components w)
                  (length (components (deliver i ev w))) Hgt) as [c Hc].
      pose proof (deliver_lookup i (length (components (deliver i ev w))) ev w) as Hd.
      rewrite Hc in Hd.
      rewrite (lookup_ge_None_2 (components (deliver i ev w))) in Hd
        by apply Nat.le_refl.
      discriminate. }
  intros Hcs. destruct (deliver_no_click i ev w Hcs) as (H1 & H2 & _). auto.
Qed.

(** ** The position of the last dispatch *)

Lemma replay_obs_keeps_last (i : nat) (o : Obs) (c : Component) :
  lastPos c = pos (event c) ->
  lastPos (replay_obs i o c) = pos (event (replay_obs i o c)).
Proof.
  intros H. destruct o as [j ev | j ev h0 | j | h | j s | j cls e | j cls cb e]; cbn [replay_obs];
    try exact H; destruct (Nat.eqb j i); try exact H.
  - destruct (handler_effect_frame ev c) as (_ & _ & _ & H4 & H5).
    rewrite H4, H5. exact H.
  - destruct s; exact H.
  - reflexivity.
Qed.

Lemma replay_keeps_last (i : nat) (t : list Obs) :
  forall c, lastPos c = pos (event c) ->
            lastPos (replay i t c) = pos (event (replay i t c)).
Proof.
  induction t as [ | o t IH]; intros c H; [exact H | ].
  rewrite replay_cons. apply IH. apply replay_obs_keeps_last. exact H.
Qed.

Lemma Forall_modify (Q : Component -> Prop) (i : nat) (f : Component -> Component)
    (w : World) :
  (forall c, Q c -> Q (f c)) ->
  Forall Q (components w) -> Forall Q (components (modify i f w)).
Proof.
  intros Hf H. apply Forall_lookup. intros j c Hc.
  rewrite lookup_modify in Hc.
  destruct (components w !! j) as [c0 | ] eqn:E; [ | discriminate].
  injection Hc as <-.
  pose proof (proj1 (Forall_lookup Q (components w)) H j c0 E) as Hq.
  destruct (Nat.eqb i j); [apply Hf; exact Hq | exact Hq].
Qed.

Lemma run_action_keeps_last (a : Action) (w : World) :
  Forall (fun c => lastPos c = pos (event c)) (components w) ->
  Forall (fun c => lastPos c = pos (event c)) (components (run_action a w)).
Proof.
  intros H. destruct a as [cv m | h | i cls cb | i ev | i | i cv m]; cbn [run_action].
  - unfold LowLevelMouse. cbn [components set_components].
    apply Forall_app. split; [exact H | ].
    apply Forall_cons. split; [reflexivity | apply Forall_nil; exact I].
  - exact H.
  - unfold subscribe. apply Forall_modify; [ | exact H]. intros c Hc. exact Hc.
  - apply Forall_lookup. intros j c Hc. rewrite deliver_lookup in Hc.
    destruct (components w !! j) as [c0 | ] eqn:E; [ | discriminate].
    injection Hc as <-.
    pose proof (proj1 (Forall_lookup _ (components w)) H j c0 E) as Hq.
    cbn beta in Hq.
    destruct (Nat.eqb i j); [ | exact Hq].
    destruct (raw_effect_frame w ev c0) as (_ & _ & _ & H4 & H5).
    rewrite H4, H5. exact Hq.
  - destruct (components w !! i) as [c | ] eqn:Hc.
    + destruct (update i w) as [w' out] eqn:Hu.
      destruct (update_stages i w w' out c Hc Hu) as (t1 & t2 & t3 & _ & _ & Ha & _).
      cbn [fst]. apply Forall_lookup. intros j c' Hc'.
      destruct Ha as [_ Ha]. rewrite Ha in Hc'.
      destruct (components w !! j) as [c0 | ] eqn:E; [ | discriminate].
      injection Hc' as <-.
      apply replay_keeps_last.
      exact (proj1 (Forall_lookup _ (components w)) H j c0 E).
    + assert (E : update i w = (w, Normal)).
      { unfold update, andThen, flushMove, flushDown, flushUp.
        repeat (rewrite Hc; cbn beta iota). reflexivity. }
      rewrite E. exact H.
  - apply Forall_modify; [ | exact H]. intros c Hc. exact Hc.
Qed.

(** X17: in every state the process can reach, lastPos of each component
    equals the position in its event object, so the delta that the next
    dispatch reports (whatever its class) is the new position minus the
    position of the dispatch before it. *)
Theorem delta_is_since_last_dispatch :
  forall (h : list Action),
    Forall (fun c =>
              lastPos c = pos (event c) /\
              forall a, delta (event (updateEvent a c))
                        = subtract (inl (pos (event c))) (pos (event (updateEvent a c))))
           (components (run h initial_world)).
Proof.
  intros h.
  assert (H : Forall (fun c => lastPos c = pos (event c))
                     (components (run h initial_world))).
  { induction h as [ | a h IH] using rev_ind.
    - apply Forall_nil. exact I.
    - rewrite run_app. cbn [run fold_left]. apply run_action_keeps_last. exact IH. }
  apply Forall_lookup. intros j c Hc.
  pose proof (proj1 (Forall_lookup _ _) H j c Hc) as Hq. cbn beta in Hq.
  split; [exact Hq | ]. intros a.
  destruct (updateEvent_pos_delta a c) as (H1 & H2 & _).
  rewrite H1, H2, Hq. reflexivity.
Qed.

(** ** The translator on a scaled canvas *)

Lemma not_finite_through_identity (p : Point) :
  ~ is_finite (x p) -> ~ is_finite (x (transformPoint identity_matrix p)).
Proof.
  intros H. unfold transformPoint, identity_matrix. cbn [x m_a m_c m_e].
  destruct p as [[ | | | a] [ | | | b]]; cbn [x y is_finite] in *; try tauto;
    cbn [nmul nsgn sgn_mul inf_of nadd];
    rewrite ?(Rsgn_pos 1) by lra; rewrite ?(Rsgn_zero 0) by reflexivity;
    cbn [nmul nsgn sgn_mul inf_of nadd is_finite]; tauto.
Qed.

(** X18: with the identity transform, a canvas of logical size cw by ch
    shown in a rectangle of size rw by rh at (l, t) sends the client
    position (cx, cy) to ((cx - l) * cw / rw, (cy - t) * ch / rh); when
    the rectangle has width 0 (the canvas is not laid out) the x
    coordinate of every position is NaN or an infinity. *)
Theorem translatePos_scaled :
  forall (c : Component) (cx cy l t rw rh cw ch : R),
    getBoundingClientRect (canvas c) = mkDOMRect (Fin l) (Fin t) (Fin rw) (Fin rh) ->
    width (canvas c) = Fin cw ->
    height (canvas c) = Fin ch ->
    matrixForWorldPosition c = identity_matrix ->
    cw <> 0%R -> ch <> 0%R ->
    (rw <> 0%R -> rh <> 0%R ->
     translatePos c (Fin cx) (Fin cy)
     = mkPoint (Fin ((cx - l) * cw / rw)) (Fin ((cy - t) * ch / rh))) /\
    (rw = 0%R -> ~ is_finite (x (translatePos c (Fin cx) (Fin cy)))).
Proof.
  intros c cx cy l t rw rh cw ch Hr Hw Hh Hm Hcw Hch.
  unfold translatePos. rewrite Hr, Hw, Hh, Hm, inverse_identity.
  cbn [rect_left rect_top rect_width rect_height nsub nneg nadd].
  rewrite !(ndiv_fin _ _ Hcw), !(ndiv_fin _ _ Hch).
  split.
  - intros Hrw Hrh.
    assert (H1 : (rw / cw <> 0)%R).
    { intros H0. apply Hrw. apply (Rmult_eq_reg_r (/ cw)).
      - unfold Rdiv in H0. rewrite H0. ring.
      - apply Rinv_neq_0_compat. exact Hcw. }
    assert (H2 : (rh / ch <> 0)%R).
    { intros H0. apply Hrh. apply (Rmult_eq_reg_r (/ ch)).
      - unfold Rdiv in H0. rewrite H0. ring.
      - apply Rinv_neq_0_compat. exact Hch. }
    rewrite !ndiv_fin by assumption. rewrite transformPoint_identity.
    f_equal; f_equal; field; auto.
  - intros ->. apply not_finite_through_identity. cbn [x].
    replace (0 / cw)%R with 0%R by (field; exact Hcw).
    apply ndiv_zero_not_finite.
Qed.

Lemma translatePos_scaled_witness :
  translatePos (new_component (mkCanvas (Fin 100) (Fin 50)
                                 (mkDOMRect (Fin 10) (Fin 20) (Fin 200) (Fin 100)))
                              identity_matrix) (Fin 30) (Fin 40)
  = mkPoint (Fin ((30 - 10) * 100 / 200)) (Fin ((40 - 20) * 50 / 100)).
Proof.
  apply (translatePos_scaled _ 30 40 10 20 200 100 100 50); try reflexivity; lra.
Defined.

(** ** Touches *)

Lemma handler_effect_first_touch (e e' : TouchEvent) (c : Component) :
  (first_touch (touches e) = first_touch (touches e') ->
   handler_effect (touchstart e) c = handler_effect (touchstart e') c /\
   handler_effect (touchmove e) c = handler_effect (touchmove e') c) /\
  (first_touch (changedTouches e) = first_touch (changedTouches e') ->
   handler_effect (touchend e) c = handler_effect (touchend e') c).
Proof.
  split.
  - intros H. cbn [handler_effect].
    destruct (touches e) as [ | t l], (touches e') as [ | t' l'];
      cbn [first_touch] in H; try discriminate; [split; reflexivity | ].
    injection H as <-. split; reflexivity.
  - intros H. cbn [handler_effect].
    destruct (changedTouches e) as [ | t l], (changedTouches e') as [ | t' l'];
      cbn [first_touch] in H; try discriminate; [reflexivity | ].
    injection H as <-. reflexivity.
Qed.

Lemma deliver_same_effect (i : nat) (ev ev' : RawEvent) (w : World) :
  is_click_start ev = is_click_start ev' ->
  (forall c, handler_effect ev c = handler_effect ev' c) ->
  components (deliver i ev w) = components (deliver i ev' w).
Proof.
  intros Hk H. apply list_eq. intros j. rewrite !deliver_lookup.
  destruct (components w !! j) as [c | ]; [ | reflexivity].
  cbn [fmap option_fmap option_map]. destruct (Nat.eqb i j); [ | reflexivity].
  unfold raw_effect. rewrite Hk, H. reflexivity.
Qed.

(** X19: of a touch event only one touch point counts: two touchstart
    or two touchmove events whose first entries of [touches] agree, and
    two touchend events whose first entries of [changedTouches] agree,
    leave the components in the same state, whatever further touch
    points they carry; a touchend does not read [touches] at all. *)
Theorem only_first_touch_point_counts :
  forall (i : nat) (w : World) (e e' : TouchEvent),
    (first_touch (touches e) = first_touch (touches e') ->
     components (deliver i (touchstart e) w) = components (deliver i (touchstart e') w) /\
     components (deliver i (touchmove e) w) = components (deliver i (touchmove e') w)) /\
    (first_touch (changedTouches e) = first_touch (changedTouches e') ->
     components (deliver i (touchend e) w) = components (deliver i (touchend e') w)).
Proof.
  intros i w e e'. split.
  - intros H. split; (apply deliver_same_effect; [reflexivity | ]); intros c;
      apply (handler_effect_first_touch e e' c); exact H.
  - intros H. apply deliver_same_effect; [reflexivity | ]. intros c.
    apply (handler_effect_first_touch e e' c). exact H.
Qed.

(** X20: a second touchstart while the component is touching and a
    touchend while it is not are ignored, whatever touch points they
    carry: no variable of any component and no module-level variable
    changes; all that happens is the call of preventDefault. *)
Theorem redundant_touch_ignored :
  forall (i : nat) (w : World) (c : Component) (e : TouchEvent),
    components w !! i = Some c ->
    (isTouching c = true ->
     same_state w (deliver i (touchstart e) w) /\
     log (deliver i (touchstart e) w)
     = log w ++ [ORaw i (touchstart e); OPreventDefault i]) /\
    (isTouching c = false ->
     same_state w (deliver i (touchend e) w) /\
     log (deliver i (touchend e) w)
     = log w ++ [ORaw i (touchend e); OPreventDefault i]).
Proof.
  intros i w c e Hc. split; intros Ht.
  - split; [apply (touchstart_while_touching i e w c Hc Ht) | ].
    unfold deliver. rewrite Hc. cbn [raw_handler]. rewrite !handleTouchStart_eq, Ht.
    cbn [fst snd add_log log]. rewrite <- app_assoc. reflexivity.
  - split.
    + split.
      * apply (deliver_components_unchanged i _ w c Hc). cbn [handler_effect].
        rewrite Ht. reflexivity.
      * apply deliver_no_click. reflexivity.
    + unfold deliver. rewrite Hc. cbn [raw_handler lift fst snd].
      unfold handleTouchEnd. rewrite Ht.
      cbn [negb add_log log]. rewrite <- app_assoc. reflexivity.
Qed.

Lemma redundant_touch_ignored_witness :
  same_state touching_world
    (deliver 0 (touchstart (mkTouchEvent [mkTouch (Fin 8) (Fin 9)] [])) touching_world) /\
  same_state origin_world (deliver 0 (touchend lift_finger) origin_world).
Proof.
  split.
  - refine (proj1 (proj1 (redundant_touch_ignored 0 touching_world
              (default origin_component (components touching_world !! 0%nat)) _ _) _));
      reflexivity.
  - refine (proj1 (proj2 (redundant_touch_ignored 0 origin_world origin_component
              lift_finger _) _)); reflexivity.
Defined.

Lemma touch_buttons (t : Touch) (c : Component) :
  buttons (event (updateEvent (args_of_touch t) c))
  = mkButtons true false false false false.
Proof. reflexivity. Qed.

(** X21: a touch is reported as the left button.  The event of every
    closure scheduled by a touch handler has left set and no other
    button; and after a touchstart with a touch point on a component that
    is not touching and has nothing pending, at a time when the
    first-click block does not throw (the latch is set, or no queued
    first-click handler throws), the component is touching and the next
    tick dispatches first a down event at the translated position of the
    first touch point, with the left button alone. *)
Theorem touch_is_left_button :
  forall (i : nat) (w w' : World) (out : Outcome) (c : Component)
         (e : TouchEvent) (t : Touch) (more : list Touch),
    components w !! i = Some c ->
    click_throws w = false ->
    no_pending c ->
    isTouching c = false ->
    touches e = t :: more ->
    update i (deliver i (touchstart e) w) = (w', out) ->
    (forall t0 c0, buttons (event (updateEvent (args_of_touch t0) c0))
                   = mkButtons true false false false false) /\
    (isTouching <$> components (deliver i (touchstart e) w) !! i) = Some true /\
    exists tr ev rest,
      log w' = log (deliver i (touchstart e) w) ++ tr /\
      dispatches i tr = (Down, ev) :: rest /\
      pos ev = translatePos c (t_clientX t) (t_clientY t) /\
      buttons ev = mkButtons true false false false false.
Proof.
  intros i w w' out c e t more Hc Hct (Hm & Hd & Hu) Ht He H.
  split; [exact touch_buttons | ].
  set (c1 := set_isTouching true (set_pendingDown (Some (args_of_touch t)) c)).
  assert (Hc1 : components (deliver i (touchstart e) w) !! i = Some c1).
  { rewrite deliver_lookup, Nat.eqb_refl, Hc. cbn [fmap option_fmap option_map].
    rewrite raw_effect_returns by exact Hct. cbn [handler_effect].
    rewrite Ht, He. reflexivity. }
  split; [rewrite Hc1; reflexivity | ].
  destruct (update_stages i _ w' out c1 Hc1 H)
    as (t1 & t2 & t3 & o1 & o2 & Ha & Hs1 & Hs2 & Hs3).
  cbn [stage_log] in Hs1.
  change (pendingMove c1) with (pendingMove c) in Hs1. rewrite Hm in Hs1.
  destruct Hs1 as [-> ->]. cbn [replay fold_left] in Hs2.
  destruct (stage_log_dispatch i SDown c1 t2 o2 Hs2)
    as [(_ & _ & Hnone) | (cls & a & Hsc & _ & Hdis & _)]; [discriminate | ].
  injection Hsc as <- <-.
  exists ([] ++ t2 ++ t3), (event (updateEvent (args_of_touch t) c1)), (dispatches i t3).
  split; [apply Ha | ].
  split; [cbn [app]; rewrite dispatches_app, Hdis; reflexivity | ].
  split; reflexivity.
Qed.

Lemma touch_is_left_button_witness :
  exists tr ev rest,
    log (fst (update 0 touching_world)) = log touching_world ++ tr /\
    dispatches 0 tr = (Down, ev) :: rest /\
    pos ev = translatePos origin_component (Fin 3) (Fin 4) /\
    buttons ev = mkButtons true false false false false.
Proof.
  refine (proj2 (proj2 (touch_is_left_button 0 origin_world
            (fst (update 0 touching_world)) (snd (update 0 touching_world))
            origin_component
            (mkTouchEvent [mkTouch (Fin 3) (Fin 4)] [mkTouch (Fin 3) (Fin 4)])
            (mkTouch (Fin 3) (Fin 4)) [] _ _ _ _ _ _))).
  - reflexivity.
  - reflexivity.
  - repeat split.
  - reflexivity.
  - reflexivity.
  - apply surjective_pairing.
Defined.

(** ** Animation *)













(** X25: an animation without frames cannot run.  The first update at
    which the timer has run out throws a TypeError, after it has moved the
    index (to a frame that is not there) and before it sets the timer;
    [play()] throws after it has enabled the timer; and every later
    such update and every later play throws as well, whatever the index
    has become, since the frames stay empty. *)
Theorem animation_without_frames_throws :
  forall (T : Type) (st : AnimationState T) (d : num),
    frames st = [] ->
    num_gt d (Fin 0) = true ->
    getCurrentFrame st = None /\
    animation_update d st
    = (mkAnimationState [] (S (currentFrameIndex st)) (anim_log st), AnimTypeError) /\
    animation_play st
    = (mkAnimationState [] (currentFrameIndex st) (anim_log st ++ [TimerEnable]),
       AnimTypeError) /\
    frames (fst (animation_update d st)) = [] /\
    frames (fst (animation_play st)) = [].
Proof.
  intros T st d Hf Hd.
  assert (H1 : getCurrentFrame st = None) by (unfold getCurrentFrame; rewrite Hf; reflexivity).
  assert (H2 : animation_update d st
               = (mkAnimationState [] (S (currentFrameIndex st)) (anim_log st),
                  AnimTypeError)).
  { unfold animation_update. rewrite Hd, Hf. cbn [length].
    destruct (Z.eqb_spec (Z.of_nat (currentFrameIndex st)) (Z.of_nat 0 - 1)) as [E | E];
      [lia | ].
    unfold getCurrentFrame, set_currentFrameIndex. cbn [frames currentFrameIndex].
    rewrite Hf. reflexivity. }
  assert (H3 : animation_play st
               = (mkAnimationState [] (currentFrameIndex st) (anim_log st ++ [TimerEnable]),
                  AnimTypeError)).
  { unfold animation_play, getCurrentFrame, anim_record. cbn [frames currentFrameIndex].
    rewrite Hf. reflexivity. }
  split; [exact H1 | split; [exact H2 | split; [exact H3 | ]]].
  rewrite H2, H3. split; reflexivity.
Qed.

Lemma animation_without_frames_throws_witness :
  snd (animation_update (Fin 16) (@Animation nat [])) = AnimTypeError /\
  snd (animation_play (@Animation nat [])) = AnimTypeError.
Proof.
  destruct (animation_without_frames_throws nat (Animation []) (Fin 16) eq_refl)
    as (_ & H2 & H3 & _).
  - unfold num_gt. destruct (Rlt_dec 0 16) as [_ | Hn]; [reflexivity | exfalso; lra].
  - rewrite H2, H3. split; reflexivity.
Defined.

(** ** Registration order *)

Lemma EventClass_eqb_eq (a b : EventClass) : EventClass_eqb a b = true <-> a = b.
Proof. destruct a, b; simpl; split; intros H; try reflexivity; discriminate. Qed.

Lemma callbacks_of_add (cls cls' : EventClass) (cb : Callback) (s : Storage) :
  callbacks_of cls' (add_callback cls cb s)
  = if EventClass_eqb cls cls' then CallbackSet_add cb (callbacks_of cls' s)
    else callbacks_of cls' s.
Proof. destruct cls, cls'; reflexivity. Qed.

Lemma CallbackSet_add_fresh (cb : Callback) (s : CallbackSet) :
  ~ In (cb_id cb) (map cb_id s) -> CallbackSet_add cb s = s ++ [cb].
Proof.
  intros H. unfold CallbackSet_add.
  destruct (CallbackSet_has s cb) eqn:E; [ | reflexivity].
  exfalso. apply H. unfold CallbackSet_has in E.
  apply existsb_exists in E. destruct E as (o & Ho & Heq).
  apply Nat.eqb_eq in Heq. rewrite <- Heq. apply in_map. exact Ho.
Qed.

Lemma subscribed_frame (subs : list (EventClass * Callback)) (c : Component) :
  fold_left subscribed subs c = set_storage (storage (fold_left subscribed subs c)) c.
Proof.
  revert c. induction subs as [ | s subs IH]; intros c; [destruct c; reflexivity | ].
  cbn [fold_left]. rewrite IH at 1. reflexivity.
Qed.

Lemma filter_snoc {A : Type} (f : A -> bool) (l : list A) (a : A) :
  List.filter f (l ++ [a]) = List.filter f l ++ (if f a then [a] else []).
Proof.
  induction l as [ | b l IH]; cbn [app List.filter].
  - destruct (f a); reflexivity.
  - rewrite IH. destruct (f b); reflexivity.
Qed.

Lemma subscribed_storage (cv : HTMLCanvasElement) (m : Matrix)
    (subs : list (EventClass * Callback)) (cls : EventClass) :
  List.NoDup (map (fun s => cb_id (snd s)) subs) ->
  callbacks_of cls (storage (fold_left subscribed subs (new_component cv m)))
  = map snd (List.filter (fun s => EventClass_eqb (fst s) cls) subs).
Proof.
  induction subs as [ | s subs IH] using rev_ind; intros Hnd.
  - destruct cls; reflexivity.
  - rewrite map_app in Hnd. cbn [map] in Hnd.
    apply List.NoDup_remove in Hnd. rewrite app_nil_r in Hnd. destruct Hnd as [Hnd Hnew].
    rewrite fold_left_app. cbn [fold_left]. unfold subscribed at 1.
    cbn [storage set_storage]. rewrite callbacks_of_add, IH by exact Hnd.
    rewrite filter_snoc. destruct (EventClass_eqb (fst s) cls); cbn [map].
    + rewrite map_app. cbn [map]. apply CallbackSet_add_fresh.
      intros Hin. apply Hnew. rewrite map_map in Hin.
      apply in_map_iff in Hin. destruct Hin as (o & Ho & Hin).
      apply List.filter_In in Hin. rewrite <- Ho.
      apply (in_map (fun s0 => cb_id (snd s0))). apply Hin.
    + rewrite app_nil_r. reflexivity.
Qed.

Lemma run_subscriptions (subs : list (EventClass * Callback)) :
  forall (w : World) (c : Component),
    components w !! 0%nat = Some c ->
    components (run (map (fun s => Subscribe 0 (fst s) (snd s)) subs) w) !! 0%nat
    = Some (fold_left subscribed subs c).
Proof.
  induction subs as [ | s subs IH]; intros w c Hc; [exact Hc | ].
  cbn [map run fold_left run_action]. apply IH.
  unfold subscribe. rewrite lookup_modify, Hc. reflexivity.
Qed.

Lemma run_subscriptions_queue (subs : list (EventClass * Callback)) :
  forall w : World,
    pendingFirstClickHandlers (run (map (fun s => Subscribe 0 (fst s) (snd s)) subs) w)
    = pendingFirstClickHandlers w.
Proof.
  induction subs as [ | s subs IH]; intros w; [reflexivity | ].
  cbn [map run fold_left run_action].
  fold (run (map (fun s0 => Subscribe 0 (fst s0) (snd s0)) subs) (subscribe 0 (fst s) (snd s) w)).
  rewrite IH. reflexivity.
Qed.

Lemma Forall_filter_snd (P : Callback -> Prop) (cls : EventClass)
    (subs : list (EventClass * Callback)) :
  Forall (fun s => P (snd s)) subs ->
  Forall P (map snd (List.filter (fun s => EventClass_eqb (fst s) cls) subs)).
Proof.
  induction subs as [ | s subs IH]; intros H; [apply Forall_nil; exact I | ].
  apply Forall_cons in H. destruct H as [Hs H]. cbn [List.filter].
  destruct (EventClass_eqb (fst s) cls); cbn [map]; [apply Forall_cons; split | ]; auto.
Qed.

(** X26: listeners are called in the order in which they were
    registered, each for the class it was registered for and no other.
    On a new component, after any subscriptions of distinct listeners
    that dispatch nothing and do not throw, and one raw mouse event, the
    next tick calls exactly the listeners registered for the event's
    class, once each, in the order of their registration. *)
Theorem listeners_called_in_registration_order :
  forall (cv : HTMLCanvasElement) (m : Matrix)
         (subs : list (EventClass * Callback)) (ev : RawEvent) (cls : EventClass),
    List.NoDup (map (fun s => cb_id (snd s)) subs) ->
    Forall (fun s => emits_nothing (snd s)) subs ->
    Forall (fun s => never_throws (snd s)) subs ->
    mouse_class ev = Some cls ->
    let w := run (NewComponent cv m
                    :: map (fun s => Subscribe 0 (fst s) (snd s)) subs ++ [Raw 0 ev])
                 initial_world in
    exists w' t,
      update 0 w = (w', Normal) /\
      log w' = log w ++ t /\
      calls 0 t
      = map (fun s => (cls, cb_id (snd s)))
            (List.filter (fun s => EventClass_eqb (fst s) cls) subs).
Proof.
  intros cv m subs ev cls Hnd He Ht Hcls w.
  set (cs := fold_left subscribed subs (new_component cv m)).
  set (c := handler_effect ev cs).
  assert (Hcs : cs = set_storage (storage cs) (new_component cv m))
    by apply subscribed_frame.
  assert (Hc : components w !! 0%nat = Some c).
  { unfold w. cbn [run fold_left run_action]. rewrite fold_left_app.
    cbn [fold_left run_action]. rewrite deliver_lookup. cbn [Nat.eqb].
    fold (run (map (fun s => Subscribe 0 (fst s) (snd s)) subs)
              (LowLevelMouse cv m initial_world)).
    rewrite (run_subscriptions subs _ (new_component cv m)) by reflexivity.
    cbn [fmap option_fmap option_map]. rewrite raw_effect_returns; [reflexivity | ].
    unfold click_throws. rewrite run_subscriptions_queue. apply andb_false_r. }
  assert (Hst : storage c = storage cs) by apply handler_effect_frame.
  assert (Hcb : forall cls', callbacks_of cls' (storage c)
                  = map snd (List.filter (fun s => EventClass_eqb (fst s) cls') subs)).
  { intros cls'. rewrite Hst. apply subscribed_storage. exact Hnd. }
  assert (Hq1 : all_listeners emits_nothing c).
  { intros cls'. rewrite Hcb. apply Forall_filter_snd. exact He. }
  assert (Hq2 : all_listeners never_throws c).
  { intros cls'. rewrite Hcb. apply Forall_filter_snd. exact Ht. }
  destruct (quiet_tick_stages 0 w c Hc Hq1 Hq2)
    as (w' & t1 & t2 & t3 & c1 & c2 & c3 & R & L & _ & _ & _
        & (E1 & K1 & _) & (E2 & K2 & _) & (_ & K3 & _)).
  exists w', (t1 ++ t2 ++ t3). split; [exact R | split; [exact L | ]].
  rewrite !calls_app, K1, K2, K3, E2, E1.
  rewrite <- (map_map snd (fun cb => (cls, cb_id cb))), <- Hcb.
  unfold c. rewrite Hcs.
  destruct ev as [e | e | e | e | e | e | e | e]; try discriminate;
    injection Hcls as <-;
    unfold listener_calls, after_closure;
    cbn [slot_content handler_effect new_component clear_slot updateEvent
         set_storage set_pendingMove set_pendingDown set_pendingUp set_event set_lastPos
         pendingMove pendingDown pendingUp storage
         fmap option_fmap option_map fst snd class_of_target app];
    rewrite ?app_nil_r; reflexivity.
Qed.

Lemma listeners_called_in_registration_order_witness :
  exists w' t,
    update 0 (run (NewComponent (canvas_at 0 0) identity_matrix
                     :: map (fun s => Subscribe 0 (fst s) (snd s))
                            [(Down, bystander); (Move, mkCallback 5 (cb_run bystander));
                             (Down, mkCallback 4 (cb_run bystander))]
                        ++ [Raw 0 (mousedown (plain_mouse 1 1))]) initial_world)
    = (w', Normal) /\
    calls 0 t = [(Down, 2); (Down, 4)].
Proof.
  destruct (listeners_called_in_registration_order (canvas_at 0 0) identity_matrix
              [(Down, bystander); (Move, mkCallback 5 (cb_run bystander));
               (Down, mkCallback 4 (cb_run bystander))]
              (mousedown (plain_mouse 1 1)) Down) as (w' & t & H1 & _ & H3).
  - cbn [map snd cb_id bystander].
    repeat (apply List.NoDup_cons; [simpl; intuition discriminate | ]).
    apply List.NoDup_nil.
  - repeat (apply Forall_cons; split; [intros e; reflexivity | ]).
    apply Forall_nil. exact I.
  - repeat (apply Forall_cons; split; [intros e; reflexivity | ]).
    apply Forall_nil. exact I.
  - reflexivity.
  - exists w', t. split; [exact H1 | exact H3].
Defined.

(** ** When the position is translated *)

(** X27: the position of a mouse move is translated when the tick
    dispatches it, not when the raw event arrives: if the canvas is laid
    out anew or the entity is transformed between the two, the dispatched
    position is what the translator gives for the client coordinates of
    the raw event under the layout and transform of the tick, and the
    delta is measured from the position of the dispatch before. *)
Theorem position_translated_at_tick :
  forall (i : nat) (w w' : World) (out : Outcome) (c : Component)
         (e : MouseEvent) (cv : HTMLCanvasElement) (m : Matrix),
    components w !! i = Some c ->
    update i (modify i (set_environment cv m) (deliver i (mousemove e) w)) = (w', out) ->
    exists t ev rest,
      log w' = log (deliver i (mousemove e) w) ++ t /\
      dispatches i t = (Move, ev) :: rest /\
      pos ev = translatePos (set_environment cv m c) (me_clientX e) (me_clientY e) /\
      delta ev = subtract (inl (lastPos c)) (pos ev).
Proof.
  intros i w w' out c e cv m Hc H.
  set (c1 := set_environment cv m (handler_effect (mousemove e) c)).
  assert (Hc1 : components (modify i (set_environment cv m) (deliver i (mousemove e) w)) !! i
                = Some c1).
  { rewrite lookup_modify, deliver_lookup, Nat.eqb_refl, Hc. reflexivity. }
  destruct (update_stages i _ w' out c1 Hc1 H)
    as (t1 & t2 & t3 & o1 & o2 & Ha & Hs1 & _).
  destruct (stage_log_dispatch i SMove c1 t1 o1 Hs1)
    as [(_ & _ & Hnone) | (cls & a & Hsc & _ & Hdis & _)]; [discriminate | ].
  injection Hsc as <- <-.
  exists (t1 ++ t2 ++ t3), (event (updateEvent (args_of_buttons e) c1)),
         (dispatches i t2 ++ dispatches i t3).
  split; [apply Ha | ].
  split; [rewrite !dispatches_app, Hdis; reflexivity | ].
  split; reflexivity.
Qed.

Lemma position_translated_at_tick_witness :
  exists t ev rest,
    dispatches 0 t = (Move, ev) :: rest /\
    pos ev = translatePos (set_environment (canvas_at 5 0) identity_matrix origin_component)
                          (Fin 10) (Fin 10).
Proof.
  destruct (position_translated_at_tick 0 origin_world
              (fst (update 0 (modify 0 (set_environment (canvas_at 5 0) identity_matrix)
                                (deliver 0 (mousemove (plain_mouse 10 10)) origin_world))))
              (snd (update 0 (modify 0 (set_environment (canvas_at 5 0) identity_matrix)
                                (deliver 0 (mousemove (plain_mouse 10 10)) origin_world))))
              origin_component (plain_mouse 10 10) (canvas_at 5 0) identity_matrix
              eq_refl (surjective_pairing _))
    as (t & ev & rest & _ & H2 & H3 & _).
  exists t, ev, rest. split; [exact H2 | exact H3].
Defined.

(** ** Further sample inputs *)

Lemma unbind_leaves_over_and_out_witness :
  is_listening (toggles [true; false; true; false] initial_wiring) Tmouseover = true /\
  is_listening (toggles [true; false; true; false] initial_wiring) Tmouseout = true.
Proof.
  apply (proj2 (proj2 (proj2 (unbind_leaves_over_and_out [true; false; true; false])))).
  simpl. auto.
Defined.

Lemma idle_tick_is_noop_witness : update 0 origin_world = (origin_world, Normal).
Proof.
  apply (proj2 (idle_tick_is_noop 0 origin_world)).
  intros c Hc. injection Hc as <-. repeat split.
Defined.

Lemma only_first_touch_point_counts_witness :
  components (deliver 0 (touchstart (mkTouchEvent [mkTouch (Fin 3) (Fin 4)] []))
                origin_world)
  = components (deliver 0 (touchstart (mkTouchEvent [mkTouch (Fin 3) (Fin 4);
                                                     mkTouch (Fin 8) (Fin 9)] []))
                  origin_world).
Proof.
  apply (proj1 (proj1 (only_first_touch_point_counts 0 origin_world
           (mkTouchEvent [mkTouch (Fin 3) (Fin 4)] [])
           (mkTouchEvent [mkTouch (Fin 3) (Fin 4); mkTouch (Fin 8) (Fin 9)] []))
           eq_refl)).
Defined.
